(** * winleap: window indexing and dispatch, verified against the C sources

    The development embeds the programs of the repository:
    - [GrabKeys]   (grab_keys.c): keyboard grab with retry and back-off;
    - [Atsw]       (atsw.c): prefix index and incremental keystroke matcher;
    - [AtswMode]   (atsw_mode.sh): the shell matcher over an associative array;
    - [AtswManual] (atsw_manual.c): mark dispatch that cycles to the next instance;
    - [Winleap]    (winleap.c): mark dispatch with explicit instance selection.

    C strings are kept as the list of bytes that precede the terminating NUL;
    raw buffers (property data, file contents, key text) enter through [cstr].
    The X server, the configuration file and the user are inputs of the model:
    property values, grab results and the sequence of events. *)

From Stdlib Require Import ZArith Ascii Lia.
From stdpp Require Import base numbers list strings gmap pretty.

Local Open Scope Z_scope.

(** ** The C library, as far as the programs use it (the "C" locale) *)

Module CLib.

Definition cstring := list ascii.

Definition NUL : ascii := Ascii.zero.

(** The value of a byte as an [unsigned char]. *)
Definition code (c : ascii) : Z := Z.of_N (N_of_ascii c).

Definition isspace (c : ascii) : bool :=
  (code c =? 32) || ((9 <=? code c) && (code c <=? 13)).

Definition isprint (c : ascii) : bool :=
  (32 <=? code c) && (code c <=? 126).

Definition isupper (c : ascii) : bool :=
  (65 <=? code c) && (code c <=? 90).

Definition isdigit (c : ascii) : bool :=
  (48 <=? code c) && (code c <=? 57).

Definition tolower (c : ascii) : ascii :=
  if isupper c then ascii_of_N (N_of_ascii c + 32) else c.

(** The C string held by a buffer: the bytes before the first NUL. *)
Fixpoint cstr (buf : list ascii) : cstring :=
  match buf with
  | [] => []
  | c :: rest => if decide (c = NUL) then [] else c :: cstr rest
  end.

Definition strlen (s : cstring) : nat := length s.

(** [strncasecmp s1 s2 n]: the difference of the first pair of bytes that
    differ after [tolower], looking at no more than [n] bytes; the end of a
    string compares as NUL. *)
Fixpoint strncasecmp (s1 s2 : cstring) (n : nat) {struct n} : Z :=
  match n with
  | O => 0
  | S n' =>
    match s1, s2 with
    | [], [] => 0
    | [], c2 :: _ => 0 - code (tolower c2)
    | c1 :: _, [] => code (tolower c1)
    | c1 :: t1, c2 :: t2 =>
      if decide (tolower c1 = tolower c2) then strncasecmp t1 t2 n'
      else code (tolower c1) - code (tolower c2)
    end
  end.

Fixpoint strcasecmp (s1 s2 : cstring) : Z :=
  match s1, s2 with
  | [], [] => 0
  | [], c2 :: _ => 0 - code (tolower c2)
  | c1 :: _, [] => code (tolower c1)
  | c1 :: t1, c2 :: t2 =>
    if decide (tolower c1 = tolower c2) then strcasecmp t1 t2
    else code (tolower c1) - code (tolower c2)
  end.

Fixpoint strcmp (s1 s2 : cstring) : Z :=
  match s1, s2 with
  | [], [] => 0
  | [], c2 :: _ => 0 - code c2
  | c1 :: _, [] => code c1
  | c1 :: t1, c2 :: t2 =>
    if decide (c1 = c2) then strcmp t1 t2 else code c1 - code c2
  end.

(** [strncpy dst src n] followed by [dst[n] = 0], or [dst[size-1] = 0] after
    copying [size-1] bytes: the string left in [dst] is the first [n] bytes
    of [src]. *)
Definition strncpy_str (src : cstring) (n : nat) : cstring := take n src.

(** [strchr s c] for a byte [c] other than NUL: the offset of its first
    occurrence. *)
Fixpoint strchr (s : cstring) (c : ascii) : option nat :=
  match s with
  | [] => None
  | x :: rest => if decide (x = c) then Some O else S <$> strchr rest c
  end.

(** [strcspn s "\n"]: the length of the part before the first line feed. *)
Fixpoint strcspn_nl (s : cstring) : nat :=
  match s with
  | [] => O
  | x :: rest => if decide (code x = 10) then O else S (strcspn_nl rest)
  end.

(** The decimal rendering that [%d] gives a non-negative [int]. *)
Definition decimal (n : nat) : cstring := String.list_ascii_of_string (pretty n).

(** *** strtol and atoi in base 10 (LP64: [long] has 64 bits, [int] 32) *)

Definition LONG_MAX : Z := 2 ^ 63 - 1.
Definition LONG_MIN : Z := - 2 ^ 63.
Definition INT_MAX : Z := 2 ^ 31 - 1.

Definition digit_value (c : ascii) : Z := code c - 48.

(** The digits at the head of [s]: their value and how many there are. *)
Fixpoint read_digits (s : cstring) (acc : Z) (n : nat) : Z * nat :=
  match s with
  | c :: rest =>
    if isdigit c then read_digits rest (acc * 10 + digit_value c) (S n)
    else (acc, n)
  | [] => (acc, n)
  end.

Fixpoint skip_spaces (s : cstring) (n : nat) : cstring * nat :=
  match s with
  | c :: rest => if isspace c then skip_spaces rest (S n) else (s, n)
  | [] => (s, n)
  end.

(** [strtol s &endptr 10]: the value, clamped to [long], and [endptr - s]
    (0 when no digits were found). *)
Definition strtol (s : cstring) : Z * nat :=
  let '(s1, skipped) := skip_spaces s O in
  let '(neg, s2, signlen) :=
    match s1 with
    | c :: rest =>
      if decide (code c = 45) then (true, rest, 1%nat)
      else if decide (code c = 43) then (false, rest, 1%nat)
      else (false, s1, 0%nat)
    | [] => (false, s1, 0%nat)
    end in
  let '(v, ndigits) := read_digits s2 0 O in
  match ndigits with
  | O => (0, O)
  | _ =>
    let v' := if neg then Z.max LONG_MIN (- v) else Z.min LONG_MAX v in
    (v', (skipped + signlen + ndigits)%nat)
  end.

(** Conversion of a [long] to [int] (wrap-around on 32 bits). *)
Definition to_int (z : Z) : Z := (z + 2 ^ 31) mod 2 ^ 32 - 2 ^ 31.

Definition atoi (s : cstring) : Z := to_int (fst (strtol s)).

End CLib.

Export CLib.

(** ** The X server as the programs see it *)

Module X11.

(** Window identifiers (XIDs); [None] is 0. *)
Definition Window := Z.
Definition XNone : Window := 0.

(** The result of [XGrabKeyboard]. *)
Inductive GrabStatus :=
| GrabSuccess
| AlreadyGrabbed
| GrabInvalidTime
| GrabNotViewable
| GrabFrozen.

Global Instance GrabStatus_eq_dec : EqDecision GrabStatus.
Proof. solve_decision. Defined.

Definition grab_code (r : GrabStatus) : Z :=
  match r with
  | GrabSuccess => 0
  | AlreadyGrabbed => 1
  | GrabInvalidTime => 2
  | GrabNotViewable => 3
  | GrabFrozen => 4
  end.

Definition KeySym := Z.
Definition XK_BackSpace : KeySym := 0xff08.
Definition XK_Return : KeySym := 0xff0d.
Definition XK_Escape : KeySym := 0xff1b.
Definition XK_KP_Enter : KeySym := 0xff8d.

(** An event delivered by [XNextEvent]; for a key press, the key symbol and
    the bytes that [XLookupString] stores (at most 31 of them). *)
Inductive XEvent :=
| KeyPress (keysym : KeySym) (text : list ascii)
| OtherEvent.

(** What reaches the standard error stream. *)
Inductive Message :=
| TooManyWindows (match_count key_count : nat)
| FailedToGrabForSelection
| FailedToGrabKeyboard (grab_result : Z)
| DuplicateSelectorKey (c : ascii)
| InstanceKeysTooLong
| InstanceKeysEmpty
| InvalidDebugValue (value : cstring)
| FailedToOpenConfig
| FailedToReadConfig
| InvalidMarkNumber (arg : cstring)
| NoMappingFound (mark : Z)
| CannotOpenDisplay
| FailedToDiscoverWindows
| NoWindowsFound (target_class : cstring) (current_workspace : bool).

Global Instance Message_eq_dec : EqDecision Message.
Proof. solve_decision. Defined.

(** What a run does to the outside world, in order. *)
Inductive Action :=
| XGrabKeyboard
| XUngrabKeyboard
| Usleep (microseconds : Z)
| SwitchDesktop (desktop : Z)
| SendActiveWindow (w : Window)
| XMapRaised (w : Window)
| XRaiseWindow (w : Window)
| XSetInputFocus (w : Window)
| XCloseDisplay
| Stderr (m : Message)
| Stdout (line : cstring).

Global Instance Action_eq_dec : EqDecision Action.
Proof. solve_decision. Defined.

(** How a run ends: with an exit code, blocked in [XNextEvent] once the
    events given are used up, or in a write outside an array. *)
Inductive Outcome :=
| Exited (code : Z)
| Waiting
| OutOfBounds.

Definition sleeps (trace : list Action) : list Z :=
  omap (λ a, match a with Usleep d => Some d | _ => None end) trace.

Definition grab_attempts (trace : list Action) : nat :=
  length (filter (λ a, a = XGrabKeyboard) trace).

End X11.

Export X11.

(** ** Reading window properties ([get_wm_class] and [get_window_title]: the
    same text in atsw.c, atsw_manual.c and winleap.c) *)

Module Props.

(** A client window on the server: its identifier and the raw data of the
    properties the program reads ([None]: the request fails or gives no
    data). *)
Record XClient := {
  xid : Window;
  x_wm_class : option (list ascii);
  x_net_wm_name : option (list ascii);
  x_wm_name : option (list ascii);
  x_net_wm_desktop : option Z;
}.

(** [get_wm_class]: the property holds "instance\0class\0"; the class is
    taken when it starts inside the data, else the instance. [None] stands for
    the return value 0. *)
Definition get_wm_class (win : XClient) (bufsize : nat) : option cstring :=
  match x_wm_class win with
  | None => None
  | Some prop =>
    let nitems := length prop in
    let instance := cstr prop in
    let class_offset := (strlen instance + 1)%nat in
    let buf :=
      if decide (class_offset < nitems)%nat
      then strncpy_str (cstr (drop class_offset prop)) (bufsize - 1)
      else strncpy_str instance (bufsize - 1) in
    if decide (0 < strlen buf)%nat then Some buf else None
  end.

Definition untitled : cstring := String.list_ascii_of_string "(untitled)".

Definition get_window_title (win : XClient) (bufsize : nat) : cstring :=
  match x_net_wm_name win with
  | Some prop => strncpy_str (cstr prop) (bufsize - 1)
  | None =>
    match x_wm_name win with
    | Some name => strncpy_str (cstr name) (bufsize - 1)
    | None => untitled
    end
  end.

End Props.

Export Props.

(** ** Exclusive keyboard grab (winleap.c and atsw.c: [grab_keyboard]) *)

Module Grab.

Definition max_retries : nat := 10.
Definition initial_delay_us : Z := 10000.

(** [retry_delay_us = retry_delay_us * 3 / 2] on [int]. *)
Definition next_delay (retry_delay_us : Z) : Z := Z.quot (retry_delay_us * 3) 2.

(** The [for] loop, [remaining] iterations before [i < max_retries] fails;
    [answers i] is what the server answers to the grab made at iteration [i].
    The result is the last [grab_result], whether the function returned 1,
    and what it did. *)
Fixpoint grab_loop (answers : nat → GrabStatus) (remaining : nat) (i : nat)
    (retry_delay_us : Z) (last : GrabStatus) : GrabStatus * bool * list Action :=
  match remaining with
  | O => (last, false, [])
  | S remaining' =>
    let grab_result := answers i in
    if decide (grab_result = GrabSuccess) then (grab_result, true, [XGrabKeyboard])
    else if decide (grab_result = AlreadyGrabbed ∧ (i < max_retries - 1)%nat) then
      let '(r, ok, acts) :=
        grab_loop answers remaining' (S i) (next_delay retry_delay_us) grab_result in
      (r, ok, XGrabKeyboard :: Usleep retry_delay_us :: acts)
    else (grab_result, false, [XGrabKeyboard])
  end.

Definition grab_keyboard (answers : nat → GrabStatus) : bool * list Action :=
  let '(_, ok, acts) := grab_loop answers max_retries 0 initial_delay_us GrabSuccess in
  (ok, acts).

(** The delay slept after the [k]-th failed attempt. *)
Fixpoint backoff (k : nat) : Z :=
  match k with
  | O => initial_delay_us
  | S k' => next_delay (backoff k')
  end.

(** [n] attempts with the [n - 1] waits between them. *)
Fixpoint attempts_from (k : nat) (n : nat) : list Action :=
  match n with
  | O => []
  | S O => [XGrabKeyboard]
  | S n' => XGrabKeyboard :: Usleep (backoff k) :: attempts_from (S k) n'
  end.

End Grab.

(** ** grab_keys.c *)

Module GrabKeys.

(** [retry_delay_us *= 1.5]: the [int] is converted to [double], multiplied
    (exactly, for values of this size) and converted back, which drops the
    fraction. *)
Definition next_delay (retry_delay_us : Z) : Z := Z.quot (retry_delay_us * 3) 2.

Fixpoint grab_loop (answers : nat → GrabStatus) (remaining : nat) (i : nat)
    (retry_delay_us : Z) (last : GrabStatus) : GrabStatus * list Action :=
  match remaining with
  | O => (last, [])
  | S remaining' =>
    let grab_result := answers i in
    if decide (grab_result = GrabSuccess) then (grab_result, [XGrabKeyboard])
    else if decide (grab_result = AlreadyGrabbed ∧ (i < Grab.max_retries - 1)%nat) then
      let '(r, acts) :=
        grab_loop answers remaining' (S i) (next_delay retry_delay_us) grab_result in
      (r, XGrabKeyboard :: Usleep retry_delay_us :: acts)
    else (grab_result, [XGrabKeyboard])
  end.

Definition ready : cstring := String.list_ascii_of_string "READY".
Definition key_line (text : list ascii) : cstring :=
  String.list_ascii_of_string "KEY:" ++ cstr text.

Definition sym_line (keyname : cstring) : cstring :=
  String.list_ascii_of_string "SYM:" ++ keyname.

(** The event loop: one line on standard output per key press. A key
    without text is reported by the name of its symbol: [keysym_name] is
    [XKeysymToString], [None] for a null pointer. *)
Fixpoint event_loop (keysym_name : KeySym → option cstring) (events : list XEvent)
    : Outcome * list Action :=
  match events with
  | [] => (Waiting, [])
  | OtherEvent :: rest => event_loop keysym_name rest
  | KeyPress keysym text :: rest =>
    if decide (keysym = XK_Escape) then
      (Exited 0, [Stdout (String.list_ascii_of_string "ESCAPE"); XUngrabKeyboard; XCloseDisplay])
    else if decide (keysym = XK_Return ∨ keysym = XK_KP_Enter) then
      let '(o, acts) := event_loop keysym_name rest in
      (o, Stdout (String.list_ascii_of_string "RETURN") :: acts)
    else if decide (keysym = XK_BackSpace) then
      let '(o, acts) := event_loop keysym_name rest in
      (o, Stdout (String.list_ascii_of_string "BACKSPACE") :: acts)
    else if decide (0 < length text)%nat then
      let '(o, acts) := event_loop keysym_name rest in
      (o, Stdout (key_line text) :: acts)
    else
      match keysym_name keysym with
      | Some keyname =>
        let '(o, acts) := event_loop keysym_name rest in
        (o, Stdout (sym_line keyname) :: acts)
      | None => event_loop keysym_name rest
      end
  end.

Definition main (display : bool) (answers : nat → GrabStatus)
    (keysym_name : KeySym → option cstring) (events : list XEvent)
    : Outcome * list Action :=
  if negb display then (Exited 1, [Stderr CannotOpenDisplay])
  else
    let '(grab_result, acts) :=
      grab_loop answers Grab.max_retries 0 10000 GrabSuccess in
    if decide (grab_result ≠ GrabSuccess) then
      (Exited 1, acts ++ [Stderr (FailedToGrabKeyboard (grab_code grab_result)); XCloseDisplay])
    else
      let '(o, acts') := event_loop keysym_name events in
      (o, acts ++ Stdout ready :: acts').

End GrabKeys.

(** ** atsw.c: prefix index and keystroke matcher *)

Module Atsw.

Definition MAX_WINDOWS : nat := 256.
Definition MAX_APPS : nat := 128.
Definition MAX_PREFIX_LEN : nat := 32.
Definition MAX_CLASS_LEN : nat := 256.
Definition MAX_TITLE_LEN : nat := 512.
Definition MAX_BUFFER_LEN : nat := 64.

Record WindowInfo := {
  id : Window;
  wm_class : cstring;
  wm_class_lower : cstring;
  title : cstring;
  prefix : cstring;
}.

(** The loop of [discover_windows] over the client list; [windows] holds the
    [num_windows] entries filled so far. *)
Fixpoint discover_loop (client_list : list XClient) (windows : list WindowInfo)
    : list WindowInfo :=
  match client_list with
  | [] => windows
  | win :: rest =>
    if decide (length windows < MAX_WINDOWS)%nat then
      match get_wm_class win MAX_CLASS_LEN with
      | None => discover_loop rest windows
      | Some cls =>
        discover_loop rest
          (windows ++ [ {| id := xid win;
                           wm_class := cls;
                           wm_class_lower := tolower <$> strncpy_str cls MAX_CLASS_LEN;
                           title := get_window_title win MAX_TITLE_LEN;
                           prefix := [] |} ])
      end
    else windows
  end.

(** [discover_windows]: the window table it leaves; its return value is
    [num_windows], the length of the table, and 0 when the client list cannot
    be read. *)
Definition discover_windows (client_list : option (list XClient)) : list WindowInfo :=
  match client_list with
  | None => []
  | Some l => discover_loop l []
  end.

Record AppGroup := {
  class_lower : cstring;
  window_indices : list nat;
}.

Definition count (g : AppGroup) : nat := length (window_indices g).

(** The inner search of the grouping loop: the first group of that class. *)
Definition find_app (apps : list AppGroup) (cls : cstring) : option nat :=
  fst <$> list_find (λ g, strcmp (class_lower g) cls = 0) apps.

Definition add_window (i : nat) (g : AppGroup) : AppGroup :=
  {| class_lower := class_lower g; window_indices := window_indices g ++ [i] |}.

Definition group_window (apps : list AppGroup) (i : nat) (w : WindowInfo)
    : list AppGroup :=
  match find_app apps (wm_class_lower w) with
  | Some found => alter (add_window i) found apps
  | None =>
    if decide (length apps < MAX_APPS)%nat then
      apps ++ [ {| class_lower := strncpy_str (wm_class_lower w) MAX_CLASS_LEN;
                   window_indices := [i] |} ]
    else apps
  end.

Fixpoint group_windows_from (i : nat) (windows : list WindowInfo)
    (apps : list AppGroup) : list AppGroup :=
  match windows with
  | [] => apps
  | w :: rest => group_windows_from (S i) rest (group_window apps i w)
  end.

Definition group_windows (windows : list WindowInfo) : list AppGroup :=
  group_windows_from 0 windows [].

(** The loop over [other]: no other group agrees on the first [prefix_len]
    bytes. *)
Fixpoint is_unique_from (other : nat) (others : list AppGroup) (a : nat)
    (app_class : cstring) (prefix_len : nat) : bool :=
  match others with
  | [] => true
  | g :: rest =>
    if decide (other = a) then is_unique_from (S other) rest a app_class prefix_len
    else if decide (strncasecmp app_class (class_lower g) prefix_len = 0) then false
    else is_unique_from (S other) rest a app_class prefix_len
  end.

Definition is_unique (apps : list AppGroup) (a : nat) (app_class : cstring)
    (prefix_len : nat) : bool :=
  is_unique_from 0 apps a app_class prefix_len.

(** The loop [for (prefix_len = 1; prefix_len <= app_len; prefix_len++)] with
    [remaining] values of [prefix_len] left to try; the result is the value
    of [prefix_len] after the loop. *)
Fixpoint search_prefix_len (apps : list AppGroup) (a : nat) (app_class : cstring)
    (remaining : nat) (prefix_len : nat) : nat :=
  match remaining with
  | O => prefix_len
  | S remaining' =>
    if is_unique apps a app_class prefix_len then prefix_len
    else search_prefix_len apps a app_class remaining' (S prefix_len)
  end.

Definition find_prefix_len (apps : list AppGroup) (a : nat) (app_class : cstring) : nat :=
  search_prefix_len apps a app_class (strlen app_class) 1.

Definition set_prefix (p : cstring) (w : WindowInfo) : WindowInfo :=
  {| id := id w; wm_class := wm_class w; wm_class_lower := wm_class_lower w;
     title := title w; prefix := p |}.

(** [snprintf(prefix, MAX_PREFIX_LEN, "%.*s%d", prefix_len, app_class, w + 1)] *)
Definition numbered_prefix (app_class : cstring) (prefix_len : nat) (w : nat) : cstring :=
  take (MAX_PREFIX_LEN - 1) (take prefix_len app_class ++ decimal (w + 1)).

Fixpoint assign_numbered (app_class : cstring) (prefix_len : nat) (w : nat)
    (indices : list nat) (windows : list WindowInfo) : list WindowInfo :=
  match indices with
  | [] => windows
  | idx :: rest =>
    assign_numbered app_class prefix_len (S w) rest
      (alter (set_prefix (numbered_prefix app_class prefix_len w)) idx windows)
  end.

(** The body of the loop over the groups. A single window gets
    [strncpy(prefix, app_class, prefix_len); prefix[prefix_len] = 0], which
    writes outside the 32 bytes of [prefix] once [prefix_len] reaches 32. *)
Definition assign_group (apps : list AppGroup) (a : nat) (g : AppGroup)
    (windows : list WindowInfo) : option (list WindowInfo) :=
  let app_class := class_lower g in
  let prefix_len := find_prefix_len apps a app_class in
  if decide (count g = 1%nat) then
    match window_indices g with
    | idx :: _ =>
      if decide (prefix_len < MAX_PREFIX_LEN)%nat
      then Some (alter (set_prefix (strncpy_str app_class prefix_len)) idx windows)
      else None
    | [] => Some windows
    end
  else Some (assign_numbered app_class prefix_len 0 (window_indices g) windows).

Fixpoint assign_from (apps : list AppGroup) (a : nat) (todo : list AppGroup)
    (windows : list WindowInfo) : option (list WindowInfo) :=
  match todo with
  | [] => Some windows
  | g :: rest =>
    match assign_group apps a g windows with
    | Some windows' => assign_from apps (S a) rest windows'
    | None => None
    end
  end.

(** [compute_prefixes]: the window table with the prefixes filled in; [None]
    when a prefix is written past the end of its field. *)
Definition compute_prefixes (windows : list WindowInfo) : option (list WindowInfo) :=
  let apps := group_windows windows in
  assign_from apps 0 apps windows.

(** The loop of [find_match] from window [i] on: the indices that match. *)
Fixpoint scan_matches (i : nat) (windows : list WindowInfo) (buffer : cstring)
    (buf_len : nat) : list nat :=
  match windows with
  | [] => []
  | w :: rest =>
    if decide (strncasecmp (prefix w) buffer buf_len = 0)
    then i :: scan_matches (S i) rest buffer buf_len
    else scan_matches (S i) rest buffer buf_len
  end.

(** [find_match buffer &match_count]: the return value and [match_count].
    [buffer] is the array as filled so far; the callee reads the C string in
    it. *)
Definition find_match (windows : list WindowInfo) (buffer : list ascii) : Z * nat :=
  match cstr buffer with
  | [] => (-2, length windows)
  | b =>
    let matches := scan_matches 0 windows b (strlen b) in
    match matches with
    | [m] => (Z.of_nat m, 1%nat)
    | [] => (-1, 0%nat)
    | _ => (-2, length matches)
    end
  end.

(** The candidate set behind [match_count]: every window for the empty
    string, the [matches] array otherwise. *)
Definition candidates (windows : list WindowInfo) (buffer : list ascii) : list nat :=
  match cstr buffer with
  | [] => seq 0 (length windows)
  | b => scan_matches 0 windows b (strlen b)
  end.

(** [activate_window idx]; [desktop_of] answers the read of
    [_NET_WM_DESKTOP]. *)
Definition activate_window (windows : list WindowInfo) (desktop_of : Window → option Z)
    (idx : Z) : list Action :=
  if decide (idx < 0 ∨ idx >= Z.of_nat (length windows)) then []
  else
    match windows !! Z.to_nat idx with
    | None => []
    | Some w =>
      let win := id w in
      match desktop_of win with
      | Some desktop => [SwitchDesktop desktop; Usleep 50000]
      | None => []
      end ++ [SendActiveWindow win; XMapRaised win; XRaiseWindow win; XSetInputFocus win]
    end.

(** One turn of the event loop from the buffer [buffer] (its length is
    [buf_pos]): the loop goes on with a new buffer, or the program exits. *)
Inductive Step :=
| Continue (buffer : list ascii)
| Exit (code : Z) (acts : list Action).

Definition append_keys (buffer : list ascii) (text : list ascii) : list ascii :=
  buffer ++ take (MAX_BUFFER_LEN - 1 - length buffer) (tolower <$> text).

Definition step (windows : list WindowInfo) (desktop_of : Window → option Z)
    (buffer : list ascii) (event : XEvent) : Step :=
  match event with
  | OtherEvent => Continue buffer
  | KeyPress keysym text =>
    if decide (keysym = XK_Escape) then Exit 1 [XUngrabKeyboard; XCloseDisplay]
    else if decide (keysym = XK_BackSpace) then
      Continue (take (length buffer - 1) buffer)
    else if decide (keysym = XK_Return ∨ keysym = XK_KP_Enter) then
      if decide (0 < length buffer)%nat then
        let '(m, _) := find_match windows buffer in
        if decide (m >= 0) then
          Exit 0 (activate_window windows desktop_of m ++ [XUngrabKeyboard; XCloseDisplay])
        else Continue buffer
      else Continue buffer
    else if decide ((0 < length text)%nat ∧ (length buffer < MAX_BUFFER_LEN - 1)%nat) then
      let buffer' := append_keys buffer text in
      let '(m, _) := find_match windows buffer' in
      if decide (m >= 0) then
        Exit 0 (activate_window windows desktop_of m ++ [XUngrabKeyboard; XCloseDisplay])
      else Continue buffer'
    else Continue buffer
  end.

Fixpoint event_loop (windows : list WindowInfo) (desktop_of : Window → option Z)
    (buffer : list ascii) (events : list XEvent) : Outcome * list Action :=
  match events with
  | [] => (Waiting, [])
  | event :: rest =>
    match step windows desktop_of buffer event with
    | Continue buffer' => event_loop windows desktop_of buffer' rest
    | Exit code acts => (Exited code, acts)
    end
  end.

Record Env := {
  display : bool;
  grab_answers : nat → GrabStatus;
  client_list : option (list XClient);
  desktop_of : Window → option Z;
  events : list XEvent;
}.

Definition main (env : Env) : Outcome * list Action :=
  if negb (display env) then (Exited 2, [])
  else
    let '(grabbed, acts) := Grab.grab_keyboard (grab_answers env) in
    if negb grabbed then (Exited 2, acts ++ [XCloseDisplay])
    else
      let windows := discover_windows (client_list env) in
      if decide (length windows = 0%nat) then
        (Exited 2, acts ++ [XUngrabKeyboard; XCloseDisplay])
      else
        match compute_prefixes windows with
        | None => (OutOfBounds, acts)
        | Some windows' =>
          let '(o, acts') := event_loop windows' (desktop_of env) [] (events env) in
          (o, acts ++ acts')
        end.

End Atsw.

(** ** atsw_mode.sh: the matcher over the associative array *)

Module AtswMode.

(** [PREFIX_TO_WINDOW]: prefix to window identifier. *)
Definition PrefixTable := gmap string string.

(** [[[ "$pfx" == "$buffer"* ]]]: the quoted buffer is matched literally. *)
Definition starts_with (buffer : string) (pfx : string) : bool :=
  String.prefix buffer pfx.

(** The keys collected in [matches], with their windows. *)
Definition matching (table : PrefixTable) (buffer : string) : PrefixTable :=
  filter (λ kv, starts_with buffer kv.1 = true) table.

(** [check_prefix_match]: the status it returns, [MATCH_RESULT] and
    [MATCH_COUNT]. *)
Definition check_prefix_match (table : PrefixTable) (buffer : string)
    : nat * option string * nat :=
  if decide (buffer = EmptyString) then (1%nat, None, size table)
  else
    let matches := matching table buffer in
    let match_count := size matches in
    if decide (match_count = 0%nat) then (2%nat, None, 0%nat)
    else if decide (match_count = 1%nat) then
      (0%nat, snd <$> head (map_to_list matches), 1%nat)
    else (1%nat, None, match_count).

(** The prefixes counted by [MATCH_COUNT]. *)
Definition candidates (table : PrefixTable) (buffer : string) : gset string :=
  if decide (buffer = EmptyString) then dom table else dom (matching table buffer).

End AtswMode.

(** ** atsw_manual.c: mark dispatch that cycles through the instances *)

Module AtswManual.

Definition MAX_WINDOWS : nat := 256.

Record WindowInfo := {
  id : Window;
  wm_class : cstring;
  title : cstring;
}.

(** [find_windows_by_class]: the loop from window [i] on, with [count]
    indices stored so far. *)
Fixpoint find_windows_from (i : nat) (windows : list WindowInfo) (target_class : cstring)
    (max_indices : nat) (count : nat) : list nat :=
  match windows with
  | [] => []
  | w :: rest =>
    if decide (count < max_indices)%nat then
      if decide (strcasecmp (wm_class w) target_class = 0)
      then i :: find_windows_from (S i) rest target_class max_indices (S count)
      else find_windows_from (S i) rest target_class max_indices count
    else []
  end.

Definition find_windows_by_class (windows : list WindowInfo) (target_class : cstring)
    (max_indices : nat) : list nat :=
  find_windows_from 0 windows target_class max_indices 0.

(** [windows[k].id] *)
Definition id_at (windows : list WindowInfo) (k : nat) : Window :=
  match windows !! k with
  | Some w => id w
  | None => XNone
  end.

(** The search for the active window among the matches, from position [i]:
    [active_idx], or -1. *)
Fixpoint find_active_from (i : nat) (windows : list WindowInfo) (indices : list nat)
    (active : Window) : Z :=
  match indices with
  | [] => -1
  | k :: rest =>
    if decide (id_at windows k = active) then Z.of_nat i
    else find_active_from (S i) windows rest active
  end.

(** The choice of [target_idx] in [main]. *)
Definition choose_target (windows : list WindowInfo) (matching_indices : list nat)
    (active : Window) : Z :=
  let match_count := length matching_indices in
  if decide (match_count = 1%nat) then Z.of_nat (default 0%nat (matching_indices !! 0%nat))
  else
    let active_idx := find_active_from 0 windows matching_indices active in
    if decide (active_idx >= 0) then
      let next_idx := Z.rem (active_idx + 1) (Z.of_nat match_count) in
      Z.of_nat (default 0%nat (matching_indices !! Z.to_nat next_idx))
    else Z.of_nat (default 0%nat (matching_indices !! 0%nat)).

Definition activate_window (windows : list WindowInfo) (desktop_of : Window → option Z)
    (idx : Z) : list Action :=
  if decide (idx < 0 ∨ idx >= Z.of_nat (length windows)) then []
  else
    match windows !! Z.to_nat idx with
    | None => []
    | Some w =>
      let win := id w in
      match desktop_of win with
      | Some desktop => [SwitchDesktop desktop; Usleep 50000]
      | None => []
      end ++ [SendActiveWindow win; XMapRaised win; XRaiseWindow win; XSetInputFocus win]
    end.

(** [main] from the search for the windows of the mark's class on;
    [active] is what [get_active_window] returns ([XNone] when the property
    cannot be read). *)
Definition dispatch (windows : list WindowInfo) (target_class : cstring)
    (active : Window) (desktop_of : Window → option Z) : Outcome * list Action :=
  let matching_indices := find_windows_by_class windows target_class MAX_WINDOWS in
  if decide (length matching_indices = 0%nat) then
    (Exited 1, [Stderr (NoWindowsFound target_class false); XCloseDisplay])
  else
    let target_idx := choose_target windows matching_indices active in
    (Exited 0,
     (if decide (target_idx >= 0) then activate_window windows desktop_of target_idx else [])
     ++ [XCloseDisplay]).

End AtswManual.

(** ** winleap.c: marks with explicit instance selection *)

Module Winleap.

Definition MAX_WINDOWS : nat := 256.
Definition MAX_CLASS_LEN : nat := 256.
Definition MAX_TITLE_LEN : nat := 512.
Definition MAX_LINE_LEN : nat := 512.
Definition MAX_MARKS : nat := 100.
Definition MAX_INSTANCE_KEYS : nat := 128.

Definition DEFAULT_INSTANCE_KEYS : cstring :=
  String.list_ascii_of_string "qwertyuiopasdfghjklzxcvbnm1234567890".

Record WindowInfo := {
  id : Window;
  wm_class : cstring;
  title : cstring;
  desktop : Z;
}.

Record MarkMapping := {
  number : Z;
  mark_class : cstring;
}.

(** [num_marks] is the length of [marks]. *)
Record Config := {
  marks : list MarkMapping;
  instance_keys : cstring;
  debug : bool;
}.

Definition num_marks (config : Config) : nat := length (marks config).

(** [trim]: leading white space is skipped; trailing white space is cut, the
    first byte kept in any case ([end > s]). *)
Fixpoint skip_leading (s : cstring) : cstring :=
  match s with
  | c :: rest => if isspace c then skip_leading rest else s
  | [] => []
  end.

Fixpoint cut_trailing (s : cstring) : cstring :=
  match s with
  | [] => []
  | c :: rest =>
    match cut_trailing rest with
    | [] => if isspace c then [] else [c]
    | rest' => c :: rest'
    end
  end.

Definition trim (s : cstring) : cstring :=
  match skip_leading s with
  | [] => []
  | c :: rest => c :: cut_trailing rest
  end.

Definition lit (s : string) : cstring := String.list_ascii_of_string s.

Definition parse_bool (value : cstring) : option bool :=
  if decide (strcasecmp value (lit "true") = 0 ∨ strcasecmp value (lit "yes") = 0
             ∨ strcmp value (lit "1") = 0) then Some true
  else if decide (strcasecmp value (lit "false") = 0 ∨ strcasecmp value (lit "no") = 0
                  ∨ strcmp value (lit "0") = 0) then Some false
  else None.

(** The loop of [parse_instance_keys]: [seen] flags the keys met, [out] holds
    the [j] keys stored. *)
Fixpoint parse_keys_loop (raw_value : cstring) (seen : ascii → bool) (out : cstring)
    (out_size : nat) : Message + cstring :=
  match raw_value with
  | [] => if decide (length out = 0%nat) then inl InstanceKeysEmpty else inr out
  | ch :: rest =>
    if isspace ch then parse_keys_loop rest seen out out_size
    else if negb (isprint ch) then parse_keys_loop rest seen out out_size
    else
      let normalized := tolower ch in
      if seen normalized then inl (DuplicateSelectorKey normalized)
      else if decide (out_size - 1 ≤ length out)%nat then inl InstanceKeysTooLong
      else
        parse_keys_loop rest
          (λ k, if decide (k = normalized) then true else seen k)
          (out ++ [normalized]) out_size
  end.

Definition parse_instance_keys (raw_value : cstring) (out_size : nat) : Message + cstring :=
  parse_keys_loop raw_value (λ _, false) [] out_size.

(** The buffers that successive calls of [fgets(line, MAX_LINE_LEN, f)]
    fill: each ends after a line feed, after [MAX_LINE_LEN - 1] bytes, or at
    the end of the file. [line] is the buffer being filled, [room] the bytes
    it can still take. *)
Fixpoint fgets_all (f : list ascii) (line : list ascii) (room : nat) : list (list ascii) :=
  match f with
  | [] => if decide (line = []) then [] else [line]
  | c :: rest =>
    if decide (code c = 10) then (line ++ [c]) :: fgets_all rest [] (MAX_LINE_LEN - 1)
    else if decide (room ≤ 1)%nat then (line ++ [c]) :: fgets_all rest [] (MAX_LINE_LEN - 1)
    else fgets_all rest (line ++ [c]) (room - 1)
  end.

(** What one turn of the reading loop does. *)
Inductive LineResult :=
| Next (config : Config)
| Abort (m : Message).

Definition equals_sign : ascii := ascii_of_nat 61.
Definition hash_sign : ascii := ascii_of_nat 35.

Definition set_instance_keys (keys : cstring) (config : Config) : Config :=
  {| marks := marks config; instance_keys := keys; debug := debug config |}.

Definition set_debug (d : bool) (config : Config) : Config :=
  {| marks := marks config; instance_keys := instance_keys config; debug := d |}.

Definition add_mark (num : Z) (value : cstring) (config : Config) : Config :=
  {| marks := marks config ++
              [ {| number := num; mark_class := strncpy_str value (MAX_CLASS_LEN - 1) |} ];
     instance_keys := instance_keys config;
     debug := debug config |}.

(** The default case of the loop body, [number=wmclass]: the two tests that
    end in [continue]. *)
Definition mark_line_ok (key value : cstring) : bool :=
  let '(num, consumed) := strtol key in
  if decide (consumed = 0%nat ∨ consumed ≠ strlen key ∨ num <= 0 ∨ num > INT_MAX) then false
  else if decide (value = []) then false
  else true.

Definition process_line (buf : list ascii) (config : Config) : LineResult :=
  let line := cstr buf in
  let line := take (strcspn_nl line) line in
  let p := trim line in
  match p with
  | [] => Next config
  | first :: _ =>
    if decide (first = hash_sign) then Next config
    else
      match strchr p equals_sign with
      | None => Next config
      | Some eq =>
        let key := trim (take eq p) in
        let value := trim (drop (S eq) p) in
        if decide (key = []) then Next config
        else if decide (strcasecmp key (lit "instance_keys") = 0) then
          match parse_instance_keys value MAX_INSTANCE_KEYS with
          | inl m => Abort m
          | inr keys => Next (set_instance_keys keys config)
          end
        else if decide (strcasecmp key (lit "debug") = 0) then
          match parse_bool value with
          | None => Abort (InvalidDebugValue value)
          | Some parsed_debug => Next (set_debug parsed_debug config)
          end
        else if mark_line_ok key value then Next (add_mark (fst (strtol key)) value config)
        else Next config
      end
  end.

(** The [while] loop over the buffers read. *)
Fixpoint read_lines (bufs : list (list ascii)) (config : Config) : LineResult :=
  match bufs with
  | [] => Next config
  | buf :: rest =>
    if decide (num_marks config < MAX_MARKS)%nat then
      match process_line buf config with
      | Next config' => read_lines rest config'
      | Abort m => Abort m
      end
    else Next config
  end.

Definition initial_config : Config :=
  {| marks := [];
     instance_keys := strncpy_str DEFAULT_INSTANCE_KEYS (MAX_INSTANCE_KEYS - 1);
     debug := false |}.

(** [read_config_file]: [file] is the content of the file, [None] when it
    cannot be opened. The configuration is [None] for the return value 0. *)
Definition read_config_file (file : option (list ascii)) : option Config * list Action :=
  match file with
  | None => (None, [Stderr FailedToOpenConfig])
  | Some f =>
    match read_lines (fgets_all f [] (MAX_LINE_LEN - 1)) initial_config with
    | Abort m => (None, [Stderr m])
    | Next config =>
      if decide (0 < num_marks config)%nat then (Some config, []) else (None, [])
    end
  end.

Fixpoint find_wmclass_for_mark (marks : list MarkMapping) (mark_num : Z) : option cstring :=
  match marks with
  | [] => None
  | m :: rest =>
    if decide (number m = mark_num) then Some (mark_class m)
    else find_wmclass_for_mark rest mark_num
  end.

Definition get_window_desktop (win : XClient) : Z :=
  match x_net_wm_desktop win with
  | Some d => d
  | None => -1
  end.

Fixpoint discover_loop (client_list : list XClient) (windows : list WindowInfo)
    : list WindowInfo :=
  match client_list with
  | [] => windows
  | win :: rest =>
    if decide (length windows < MAX_WINDOWS)%nat then
      match get_wm_class win MAX_CLASS_LEN with
      | None => discover_loop rest windows
      | Some cls =>
        discover_loop rest
          (windows ++ [ {| id := xid win;
                           wm_class := cls;
                           title := get_window_title win MAX_TITLE_LEN;
                           desktop := get_window_desktop win |} ])
      end
    else windows
  end.

(** [discover_windows]: the window table; the function returns its length
    [num_windows], and 0 when the client list cannot be read. *)
Definition discover_windows (client_list : option (list XClient)) : list WindowInfo :=
  match client_list with
  | None => []
  | Some l => discover_loop l []
  end.

Fixpoint find_windows_from (i : nat) (windows : list WindowInfo) (target_class : cstring)
    (current_workspace_only : bool) (current_desktop : Z) (max_indices : nat)
    (count : nat) : list nat :=
  match windows with
  | [] => []
  | w :: rest =>
    if decide (count < max_indices)%nat then
      if decide (strcasecmp (wm_class w) target_class ≠ 0) then
        find_windows_from (S i) rest target_class current_workspace_only
          current_desktop max_indices count
      else if current_workspace_only
              && (bool_decide (current_desktop < 0)
                  || bool_decide (desktop w ≠ current_desktop)) then
        find_windows_from (S i) rest target_class current_workspace_only
          current_desktop max_indices count
      else
        i :: find_windows_from (S i) rest target_class current_workspace_only
               current_desktop max_indices (S count)
    else []
  end.

Definition find_windows_by_class_and_scope (windows : list WindowInfo)
    (target_class : cstring) (current_workspace_only : bool) (current_desktop : Z)
    (max_indices : nat) : list nat :=
  find_windows_from 0 windows target_class current_workspace_only current_desktop
    max_indices 0.

Definition activate_window (windows : list WindowInfo) (idx : Z) : list Action :=
  if decide (idx < 0 ∨ idx >= Z.of_nat (length windows)) then []
  else
    match windows !! Z.to_nat idx with
    | None => []
    | Some w =>
      let win := id w in
      (if decide (desktop w >= 0) then [SwitchDesktop (desktop w); Usleep 50000] else [])
      ++ [SendActiveWindow win; XMapRaised win; XRaiseWindow win; XSetInputFocus win]
    end.

(** The search of the typed key among the first [match_count] selector keys,
    from position [i]: the window paired with it. *)
Fixpoint find_selector (typed : ascii) (keys : cstring) (matching_indices : list nat)
    : option nat :=
  match matching_indices, keys with
  | idx :: rest, k :: keys' =>
    if decide (typed = k) then Some idx else find_selector typed keys' rest
  | _, _ => None
  end.

(** The event loop of [select_instance_interactively]: the window chosen, -1
    on Escape; [None] when the events run out. *)
Fixpoint select_loop (config : Config) (matching_indices : list nat)
    (events : list XEvent) : option Z * list Action :=
  match events with
  | [] => (None, [])
  | OtherEvent :: rest => select_loop config matching_indices rest
  | KeyPress keysym text :: rest =>
    if decide (keysym = XK_Escape) then (Some (-1), [XUngrabKeyboard])
    else
      match text with
      | [] => select_loop config matching_indices rest
      | key0 :: _ =>
        let typed := tolower key0 in
        match find_selector typed (instance_keys config) matching_indices with
        | Some selected => (Some (Z.of_nat selected), [XUngrabKeyboard])
        | None => select_loop config matching_indices rest
        end
      end
  end.

Definition select_instance_interactively (config : Config) (matching_indices : list nat)
    (grab_answers : nat → GrabStatus) (events : list XEvent) : option Z * list Action :=
  let match_count := length matching_indices in
  if decide (match_count ≤ 0)%nat then (Some (-2), [])
  else
    let key_count := strlen (instance_keys config) in
    if decide (key_count < match_count)%nat then
      (Some (-2), [Stderr (TooManyWindows match_count key_count)])
    else
      let '(grabbed, acts) := Grab.grab_keyboard grab_answers in
      if negb grabbed then (Some (-2), acts ++ [Stderr FailedToGrabForSelection])
      else
        let '(r, acts') := select_loop config matching_indices events in
        (r, acts ++ acts').

(** The command line once parsed, for a run that is neither [--help] nor
    [--open-debug]. *)
Record Args := {
  current_workspace_only : bool;
  mark_arg : option cstring;
}.

Record Env := {
  config_file : option (list ascii);
  display : bool;
  client_list : option (list XClient);
  net_current_desktop : option Z;
  grab_answers : nat → GrabStatus;
  events : list XEvent;
}.

Definition get_current_desktop (env : Env) : Z :=
  match net_current_desktop env with
  | Some d => d
  | None => -1
  end.

(** [main] from the test of [mark_arg] on: the run of a command line that
    asks neither for help nor for the debug log, which [main] serves before
    it comes here. The debug log is left out. *)
Definition main (args : Args) (env : Env) : Outcome * list Action :=
  match mark_arg args with
  | None => (Exited 1, [])
  | Some arg =>
    let mark_num := atoi arg in
    if decide (mark_num <= 0) then (Exited 1, [Stderr (InvalidMarkNumber arg)])
    else
      match read_config_file (config_file env) with
      | (None, acts) => (Exited 1, acts ++ [Stderr FailedToReadConfig])
      | (Some config, acts) =>
        match find_wmclass_for_mark (marks config) mark_num with
        | None => (Exited 1, acts ++ [Stderr (NoMappingFound mark_num)])
        | Some target_class =>
          if negb (display env) then (Exited 2, acts ++ [Stderr CannotOpenDisplay])
          else
            let windows := discover_windows (client_list env) in
            if decide (length windows = 0%nat) then
              (Exited 2, acts ++ [Stderr FailedToDiscoverWindows; XCloseDisplay])
            else
              let current_desktop :=
                if current_workspace_only args then get_current_desktop env else -1 in
              let matching_indices :=
                find_windows_by_class_and_scope windows target_class
                  (current_workspace_only args) current_desktop MAX_WINDOWS in
              let match_count := length matching_indices in
              if decide (match_count = 0%nat) then
                (Exited 1,
                 acts ++ [Stderr (NoWindowsFound target_class (current_workspace_only args));
                          XCloseDisplay])
              else if decide (match_count = 1%nat) then
                (Exited 0,
                 acts ++ activate_window windows
                           (Z.of_nat (default 0%nat (matching_indices !! 0%nat)))
                      ++ [XCloseDisplay])
              else
                match select_instance_interactively config matching_indices
                        (grab_answers env) (events env) with
                | (None, acts') => (Waiting, acts ++ acts')
                | (Some target_idx, acts') =>
                  if decide (target_idx = -1) then (Exited 1, acts ++ acts' ++ [XCloseDisplay])
                  else if decide (target_idx < 0) then
                    (Exited 2, acts ++ acts' ++ [XCloseDisplay])
                  else
                    (Exited 0,
                     acts ++ acts' ++ activate_window windows target_idx ++ [XCloseDisplay])
                end
        end
      end
  end.

End Winleap.

(** ** winleap.c: the command line and the paths of the files *)

Module Cli.

Definition MAX_PATH_LEN : nat := 1024.

Definition lit := Winleap.lit.
Definition slash : ascii := ascii_of_nat 47.
Definition dash : ascii := ascii_of_nat 45.

(** [snprintf(out, out_size, "%s", s)] and the like: nothing is written for
    a size of 0, else [s] is cut to [out_size - 1] bytes. *)
Definition snprintf (out : cstring) (out_size : nat) (s : cstring) : cstring :=
  if decide (out_size = 0%nat) then out else take (out_size - 1) s.

(** [strrchr s c] for a byte [c] other than NUL: the offset of its last
    occurrence. *)
Fixpoint strrchr (s : cstring) (c : ascii) : option nat :=
  match s with
  | [] => None
  | x :: rest =>
    match strrchr rest c with
    | Some k => Some (S k)
    | None => if decide (x = c) then Some O else None
    end
  end.

(** What the process finds around it: two variables of the environment
    ([None] when unset) and the answer of [access(path, R_OK) == 0]. *)
Record Surroundings := {
  XDG_CONFIG_HOME : option cstring;
  HOME : option cstring;
  access_R_OK : cstring → bool;
}.

Definition file_exists_readable (sur : Surroundings) (path : cstring) : bool :=
  match path with
  | [] => false
  | _ => access_R_OK sur path
  end.

(** [path_join(out, out_size, a, b)]: the string left in [out]; [None] is a
    null pointer. *)
Definition path_join (out : cstring) (out_size : nat) (a b : option cstring) : cstring :=
  if decide (out_size = 0%nat) then out
  else
    match a with
    | None | Some [] => snprintf out out_size (default [] b)
    | Some a' =>
      match b with
      | None | Some [] => snprintf out out_size a'
      | Some b' =>
        if decide (last a' = Some slash) then snprintf out out_size (a' ++ b')
        else snprintf out out_size (a' ++ slash :: b')
      end
    end.

Definition build_path_near_executable (out : cstring) (out_size : nat)
    (argv0 filename : cstring) : cstring :=
  if decide (out_size = 0%nat) then out
  else
    match strrchr argv0 slash with
    | Some dir_len => snprintf out out_size (take dir_len argv0 ++ slash :: filename)
    | None => snprintf out out_size filename
    end.

(** A variable of the environment that is set and not empty. *)
Definition set_and_not_empty (v : option cstring) : bool :=
  match v with
  | Some (_ :: _) => true
  | _ => false
  end.

(** [resolve_config_path]: the string left in [out]. [candidate] is a local
    array of [MAX_PATH_LEN] bytes. *)
Definition resolve_config_path (sur : Surroundings) (out : cstring) (out_size : nat)
    (argv0 : cstring) (override_path : option cstring) : cstring :=
  if set_and_not_empty override_path then snprintf out out_size (default [] override_path)
  else
    let xdg_config_home := XDG_CONFIG_HOME sur in
    let home := HOME sur in
    let xdg_candidate :=
      path_join [] MAX_PATH_LEN xdg_config_home (Some (lit "winleap/winleap.conf")) in
    if set_and_not_empty xdg_config_home && file_exists_readable sur xdg_candidate
    then snprintf out out_size xdg_candidate
    else
      let home_candidate :=
        path_join [] MAX_PATH_LEN home (Some (lit ".config/winleap/winleap.conf")) in
      if set_and_not_empty home && file_exists_readable sur home_candidate
      then snprintf out out_size home_candidate
      else
        let candidate :=
          build_path_near_executable [] MAX_PATH_LEN argv0 (lit "winleap.conf") in
        if file_exists_readable sur candidate then snprintf out out_size candidate
        else if decide (0 < out_size)%nat then
          if set_and_not_empty xdg_config_home then
            path_join out out_size xdg_config_home (Some (lit "winleap/winleap.conf"))
          else if set_and_not_empty home then
            path_join out out_size home (Some (lit ".config/winleap/winleap.conf"))
          else build_path_near_executable out out_size argv0 (lit "winleap.conf")
        else out.

(** The variables that the loop of [main] over the arguments sets. *)
Record Options := {
  current_workspace_only : bool;
  cli_debug : bool;
  open_debug : bool;
  show_help : bool;
  config_override : option cstring;
  mark_arg : option cstring;
}.

Definition no_options : Options :=
  {| current_workspace_only := false; cli_debug := false; open_debug := false;
     show_help := false; config_override := None; mark_arg := None |}.

(** The three messages with which the loop ends the run, with code 1. *)
Inductive UsageError :=
| MissingConfigValue
| UnknownOption (arg : cstring)
| UnexpectedArgument (arg : cstring).

(** The loop over [argv[1]], ..., [argv[argc - 1]]. *)
Fixpoint parse_arguments (args : list cstring) (o : Options) : UsageError + Options :=
  match args with
  | [] => inr o
  | arg :: rest =>
    if decide (strcmp arg (lit "--current-workspace") = 0) then
      parse_arguments rest
        {| current_workspace_only := true; cli_debug := cli_debug o;
           open_debug := open_debug o; show_help := show_help o;
           config_override := config_override o; mark_arg := mark_arg o |}
    else if decide (strcmp arg (lit "--debug") = 0) then
      parse_arguments rest
        {| current_workspace_only := current_workspace_only o; cli_debug := true;
           open_debug := open_debug o; show_help := show_help o;
           config_override := config_override o; mark_arg := mark_arg o |}
    else if decide (strcmp arg (lit "--open-debug") = 0) then
      parse_arguments rest
        {| current_workspace_only := current_workspace_only o; cli_debug := cli_debug o;
           open_debug := true; show_help := show_help o;
           config_override := config_override o; mark_arg := mark_arg o |}
    else if decide (strcmp arg (lit "--help") = 0 ∨ strcmp arg (lit "-h") = 0) then
      parse_arguments rest
        {| current_workspace_only := current_workspace_only o; cli_debug := cli_debug o;
           open_debug := open_debug o; show_help := true;
           config_override := config_override o; mark_arg := mark_arg o |}
    else if decide (strcmp arg (lit "--config") = 0) then
      match rest with
      | [] => inl MissingConfigValue
      | value :: rest' =>
        parse_arguments rest'
          {| current_workspace_only := current_workspace_only o; cli_debug := cli_debug o;
             open_debug := open_debug o; show_help := show_help o;
             config_override := Some value; mark_arg := mark_arg o |}
      end
    else if decide (head arg = Some dash) then inl (UnknownOption arg)
    else
      match mark_arg o with
      | None =>
        parse_arguments rest
          {| current_workspace_only := current_workspace_only o; cli_debug := cli_debug o;
             open_debug := open_debug o; show_help := show_help o;
             config_override := config_override o; mark_arg := Some arg |}
      | Some _ => inl (UnexpectedArgument arg)
      end
  end.

(** What the dispatch of a mark reads of these variables. [main] reaches it,
    at the test of [mark_arg], when neither [show_help] nor [open_debug] is
    set: with [show_help] it prints the usage and returns 0, with
    [open_debug] it returns what [print_debug_log] returns. *)
Definition dispatch_args (o : Options) : Winleap.Args :=
  {| Winleap.current_workspace_only := current_workspace_only o;
     Winleap.mark_arg := mark_arg o |}.

End Cli.

(** ** Vocabulary of the statements *)

Module Spec.

(** Successive waits grow by the factor 1.5 exactly. *)
Definition exact_backoff (trace : list Action) : Prop :=
  ∀ k d d', sleeps trace !! k = Some d → sleeps trace !! S k = Some d' →
    2 * d' = 3 * d.

(** A line of the form [key=value] whose key is neither [instance_keys] nor
    [debug] and that does not give a mark: the key is not a positive decimal
    number that fits an [int], or the value is empty. *)
Definition malformed_mark_line (buf : list ascii) : bool :=
  let line := cstr buf in
  let line := take (strcspn_nl line) line in
  let p := Winleap.trim line in
  match p with
  | [] => false
  | first :: _ =>
    if decide (first = Winleap.hash_sign) then false
    else
      match strchr p Winleap.equals_sign with
      | None => false
      | Some eq =>
        let key := Winleap.trim (take eq p) in
        let value := Winleap.trim (drop (S eq) p) in
        if decide (key = []) then false
        else if decide (strcasecmp key (Winleap.lit "instance_keys") = 0) then false
        else if decide (strcasecmp key (Winleap.lit "debug") = 0) then false
        else negb (Winleap.mark_line_ok key value)
      end
  end.

(** What [discover_windows] of atsw.c guarantees of an entry of the table:
    the class is a non-empty C string shorter than its field, the lower-case
    copy is that class in lower case, and no prefix is assigned yet. *)
Definition wf_window (w : Atsw.WindowInfo) : Prop :=
  Atsw.wm_class w ≠ [] ∧
  (NUL ∉ Atsw.wm_class w) ∧
  (length (Atsw.wm_class w) < Atsw.MAX_CLASS_LEN)%nat ∧
  Atsw.wm_class_lower w = tolower <$> Atsw.wm_class w ∧
  Atsw.prefix w = [].

(** A C string in lower case. *)
Definition lowered (s : cstring) : Prop :=
  Forall (λ c, c ≠ NUL ∧ tolower c = c) s.

(** The sequence that [compute_prefixes] writes for the [k]-th window of the
    group [g], which is the group number [a] of [apps]. *)
Definition sequence_of (apps : list Atsw.AppGroup) (a : nat) (g : Atsw.AppGroup)
    (k : nat) : cstring :=
  let prefix_len := Atsw.find_prefix_len apps a (Atsw.class_lower g) in
  if decide (Atsw.count g = 1%nat) then strncpy_str (Atsw.class_lower g) prefix_len
  else Atsw.numbered_prefix (Atsw.class_lower g) prefix_len k.

(** The state of the grouping loop once the windows before [n] are grouped:
    a group holds windows of its class only, no two groups have the same
    class, and no group is empty or lists a window twice. *)
Record groups_inv (windows : list Atsw.WindowInfo) (n : nat)
    (apps : list Atsw.AppGroup) : Prop := {
  gi_class : ∀ a g idx, apps !! a = Some g → idx ∈ Atsw.window_indices g →
    (idx < n)%nat ∧
    ∃ w, windows !! idx = Some w ∧ Atsw.wm_class_lower w = Atsw.class_lower g;
  gi_distinct : ∀ a b ga gb, apps !! a = Some ga → apps !! b = Some gb →
    Atsw.class_lower ga = Atsw.class_lower gb → a = b;
  gi_nodup : ∀ a g, apps !! a = Some g → NoDup (Atsw.window_indices g);
  gi_nonempty : ∀ a g, apps !! a = Some g → Atsw.window_indices g ≠ [];
  gi_lowered : ∀ a g, apps !! a = Some g → lowered (Atsw.class_lower g);
}.

Definition wf_windows (windows : list Atsw.WindowInfo) : Prop :=
  Forall wf_window windows ∧ (length windows ≤ Atsw.MAX_WINDOWS)%nat.

Global Instance wf_window_dec w : Decision (wf_window w).
Proof. unfold wf_window. apply _. Defined.

Global Instance wf_windows_dec windows : Decision (wf_windows windows).
Proof. unfold wf_windows. apply _. Defined.


(** The group table of windows of distinct classes: one group per window. *)
Definition single_groups (windows : list Atsw.WindowInfo) : list Atsw.AppGroup :=
  imap (λ i w, {| Atsw.class_lower := Atsw.wm_class_lower w;
                  Atsw.window_indices := [i] |}) windows.


(** The selector keys that a value of [instance_keys] stands for: its
    printable bytes other than white space, in lower case. *)
Definition selectors (raw_value : cstring) : cstring :=
  tolower <$> filter (λ ch, isspace ch = false ∧ isprint ch = true) raw_value.

(** A byte that can be a selector key. *)
Definition selector_key (k : ascii) : Prop :=
  isspace k = false ∧ isprint k = true ∧ tolower k = k.

(** Every byte that can be a selector key. *)
Definition all_selector_keys : list ascii :=
  filter selector_key (ascii_of_nat <$> seq 0 256).

(** What [read_config_file] guarantees of a mark and of the selector keys. *)
Definition mark_ok (m : Winleap.MarkMapping) : Prop :=
  0 < Winleap.number m ≤ INT_MAX ∧
  Winleap.mark_class m ≠ [] ∧
  (length (Winleap.mark_class m) < Winleap.MAX_CLASS_LEN)%nat.

Definition keys_ok (keys : cstring) : Prop :=
  keys ≠ [] ∧ NoDup keys ∧ Forall selector_key keys ∧
  (length keys < Winleap.MAX_INSTANCE_KEYS)%nat.

Definition config_ok (config : Winleap.Config) : Prop :=
  Forall mark_ok (Winleap.marks config) ∧
  (Winleap.num_marks config ≤ Winleap.MAX_MARKS)%nat ∧
  keys_ok (Winleap.instance_keys config).

(** A buffer that [fgets] fills: not empty, shorter than the array, with no
    line feed before its last byte. *)
Definition fgets_buffer (b : list ascii) : Prop :=
  b ≠ [] ∧ (length b < Winleap.MAX_LINE_LEN)%nat ∧
  (∀ i c, b !! i = Some c → code c = 10 → S i = length b).

(** The entry of the table of winleap.c for a client, when it has a class. *)
Definition winleap_entry (win : XClient) : option Winleap.WindowInfo :=
  (λ cls, {| Winleap.id := xid win;
             Winleap.wm_class := cls;
             Winleap.title := get_window_title win Winleap.MAX_TITLE_LEN;
             Winleap.desktop := Winleap.get_window_desktop win |})
  <$> get_wm_class win Winleap.MAX_CLASS_LEN.

(** What [get_wm_class] answers for the string left in [buf]. *)
Definition if_not_empty (buf : cstring) : option cstring :=
  if decide (buf = []) then None else Some buf.

(** A window that the search of winleap.c accepts: of the class asked for, up
    to case, and, when only the current desktop counts, on that desktop, which
    must be known. *)
Definition in_scope (target_class : cstring) (current_workspace_only : bool)
    (current_desktop : Z) (w : Winleap.WindowInfo) : Prop :=
  strcasecmp (Winleap.wm_class w) target_class = 0 ∧
  (current_workspace_only = true →
   0 ≤ current_desktop ∧ Winleap.desktop w = current_desktop).

(** The requests that act on a window or on the desktops. *)
Definition window_request (a : Action) : bool :=
  match a with
  | SwitchDesktop _ | SendActiveWindow _ | XMapRaised _ | XRaiseWindow _
  | XSetInputFocus _ => true
  | _ => false
  end.

(** The requests that activate the window [win]; [desktop] is the desktop to
    switch to first, when there is one. *)
Definition activation (win : Window) (desktop : option Z) : list Action :=
  match desktop with
  | Some d => [SwitchDesktop d; Usleep 50000]
  | None => []
  end ++ [SendActiveWindow win; XMapRaised win; XRaiseWindow win; XSetInputFocus win].

(** The desktop recorded for a window of winleap.c, when it is known. *)
Definition known_desktop (w : Winleap.WindowInfo) : option Z :=
  if decide (Winleap.desktop w >= 0) then Some (Winleap.desktop w) else None.

(** An event that the selection loop of winleap.c passes over: not a key
    press, a key press without text, or a key that is not among the selector
    keys in use; Escape is not passed over. *)
Definition passed_over (config : Winleap.Config) (matching_indices : list nat)
    (event : XEvent) : Prop :=
  match event with
  | OtherEvent => True
  | KeyPress keysym text =>
    keysym ≠ XK_Escape ∧
    match text with
    | [] => True
    | key0 :: _ =>
      tolower key0 ∉ take (length matching_indices) (Winleap.instance_keys config)
    end
  end.

Global Instance passed_over_dec config matching_indices event :
  Decision (passed_over config matching_indices event).
Proof. destruct event as [keysym [|key0 text]|]; simpl; apply _. Defined.

(** The buffer of atsw.c after the events given, when none of them ends the
    run. *)
Fixpoint buffer_after (windows : list Atsw.WindowInfo) (desktop_of : Window → option Z)
    (buffer : list ascii) (events : list XEvent) : option (list ascii) :=
  match events with
  | [] => Some buffer
  | event :: rest =>
    match Atsw.step windows desktop_of buffer event with
    | Atsw.Continue buffer' => buffer_after windows desktop_of buffer' rest
    | Atsw.Exit _ _ => None
    end
  end.

(** A key that the loop of atsw.c does not take for a command. *)
Definition text_key (keysym : KeySym) : Prop :=
  keysym ≠ XK_Escape ∧ keysym ≠ XK_BackSpace ∧ keysym ≠ XK_Return ∧
  keysym ≠ XK_KP_Enter.

(** The options that the loop of [main] knows, by the tests it makes. *)
Definition known_option (arg : cstring) : Prop :=
  strcmp arg (Cli.lit "--current-workspace") = 0 ∨ strcmp arg (Cli.lit "--debug") = 0 ∨
  strcmp arg (Cli.lit "--open-debug") = 0 ∨ strcmp arg (Cli.lit "--help") = 0 ∨
  strcmp arg (Cli.lit "-h") = 0 ∨ strcmp arg (Cli.lit "--config") = 0.

(** The places where the configuration is looked for when no path is given,
    in order: under [$XDG_CONFIG_HOME], under [$HOME/.config], next to the
    executable. *)
Definition config_candidates (sur : Cli.Surroundings) (argv0 : cstring) : list cstring :=
  (if Cli.set_and_not_empty (Cli.XDG_CONFIG_HOME sur) then
     [Cli.path_join [] Cli.MAX_PATH_LEN (Cli.XDG_CONFIG_HOME sur)
        (Some (Cli.lit "winleap/winleap.conf"))]
   else []) ++
  (if Cli.set_and_not_empty (Cli.HOME sur) then
     [Cli.path_join [] Cli.MAX_PATH_LEN (Cli.HOME sur)
        (Some (Cli.lit ".config/winleap/winleap.conf"))]
   else []) ++
  [Cli.build_path_near_executable [] Cli.MAX_PATH_LEN argv0 (Cli.lit "winleap.conf")].

(** The first element that passes the test, or else the first element. *)
Definition first_or_head (test : cstring → bool) (l : list cstring) : cstring :=
  match filter (λ c, test c = true) l with
  | c :: _ => c
  | [] => default [] (head l)
  end.

(** The window that atsw_manual.c activates when [active] is the active
    window: the active window of the next run, if the window manager grants
    the activation. *)
Definition next_active (windows : list AtswManual.WindowInfo)
    (matching_indices : list nat) (active : Window) : Window :=
  AtswManual.id_at windows
    (Z.to_nat (AtswManual.choose_target windows matching_indices active)).

Definition line_feed : ascii := ascii_of_nat 10.

(** A place of the file where a line starts: the beginning of the file, or
    after a line feed. *)
Definition line_start (before : list ascii) : Prop :=
  before = [] ∨ last before = Some line_feed.

(** How a line of the file ends: with a line feed, or, for the last line,
    with the file. *)
Definition line_end (eol after : list ascii) : Prop :=
  eol = [line_feed] ∨ (eol = [] ∧ after = []).

(** The string that atsw.c looks up in the index when a key press arrives
    at the buffer [buffer]: the buffer as it is for Return and keypad Enter,
    the buffer with the text of the key appended for another key. *)
Definition looked_up (buffer : list ascii) (keysym : KeySym) (text : list ascii)
    : cstring :=
  if decide (keysym = XK_Return ∨ keysym = XK_KP_Enter) then cstr buffer
  else cstr (Atsw.append_keys buffer text).

(** The window of the table that a string resolves to: the string is not
    empty, the sequence of that window begins with it, up to case, and no
    other sequence of the table does. *)
Definition resolves_to (windows : list Atsw.WindowInfo) (typed : cstring) (idx : nat)
    : Prop :=
  typed ≠ [] ∧
  ∀ k wk, windows !! k = Some wk →
    strncasecmp (Atsw.prefix wk) typed (strlen typed) = 0 ↔ k = idx.

(** What an event that does not end the run of atsw.c leaves in the buffer
    of typed keys: BackSpace takes the last byte away, a key that gives text
    appends it in lower case while there is room, and any other event changes
    nothing. *)
Definition type_key (buffer : list ascii) (event : XEvent) : list ascii :=
  match event with
  | OtherEvent => buffer
  | KeyPress keysym text =>
    if decide (keysym = XK_BackSpace) then take (length buffer - 1) buffer
    else if decide (keysym = XK_Escape ∨ keysym = XK_Return ∨ keysym = XK_KP_Enter)
    then buffer
    else if decide (length buffer < Atsw.MAX_BUFFER_LEN - 1)%nat
    then Atsw.append_keys buffer text
    else buffer
  end.

End Spec.

(** ** Concrete inputs *)

Module Examples.

Definition lit := Winleap.lit.
Definition nl : ascii := ascii_of_nat 10.

(** A client whose [WM_CLASS] is [instance\0class\0]. *)
Definition client (xid : Window) (instance class : string) : XClient :=
  {| xid := xid;
     x_wm_class := Some (lit instance ++ [NUL] ++ lit class ++ [NUL]);
     x_net_wm_name := None;
     x_wm_name := None;
     x_net_wm_desktop := None |}.

(** A client without [WM_CLASS]. *)
Definition classless (xid : Window) : XClient :=
  {| xid := xid;
     x_wm_class := None;
     x_net_wm_name := None;
     x_wm_name := None;
     x_net_wm_desktop := None |}.

Definition winleap_args : Winleap.Args :=
  {| Winleap.current_workspace_only := false; Winleap.mark_arg := Some (lit "1") |}.

Definition winleap_env (config : list ascii) (clients : list XClient) : Winleap.Env :=
  {| Winleap.config_file := Some config;
     Winleap.display := true;
     Winleap.client_list := Some clients;
     Winleap.net_current_desktop := None;
     Winleap.grab_answers := λ _, GrabSuccess;
     Winleap.events := [] |}.

(** Mark 1 is zen, and there is a single selector key. *)
Definition one_key_file : list ascii :=
  lit "1=zen" ++ [nl] ++ lit "instance_keys=a" ++ [nl].

Definition one_key_config : Winleap.Config :=
  {| Winleap.marks := [ {| Winleap.number := 1; Winleap.mark_class := lit "zen" |} ];
     Winleap.instance_keys := lit "a";
     Winleap.debug := false |}.

Definition two_zen : list XClient :=
  [client 101 "Navigator" "zen"; client 102 "Navigator" "zen"].

(** Three lines that give no mark, then mark 1. *)
Definition sloppy_file : list ascii :=
  lit "abc=foo" ++ [nl] ++ lit "0=bar" ++ [nl] ++ lit "2=" ++ [nl] ++ lit "1=zen" ++ [nl].

Definition zen_config : Winleap.Config :=
  {| Winleap.marks := [ {| Winleap.number := 1; Winleap.mark_class := lit "zen" |} ];
     Winleap.instance_keys := Winleap.DEFAULT_INSTANCE_KEYS;
     Winleap.debug := false |}.

Definition zen_file : list ascii := lit "1=zen" ++ [nl].

(** Clients given by the bytes of their class. *)
Definition client_of (xid : Window) (class : cstring) : XClient :=
  {| xid := xid;
     x_wm_class := Some (lit "main" ++ [NUL] ++ class ++ [NUL]);
     x_net_wm_name := None;
     x_wm_name := None;
     x_net_wm_desktop := None |}.

Definition clients_of (classes : list string) : list XClient :=
  imap (λ i cls, client_of (100 + Z.of_nat i) (lit cls)) classes.

(** The table of atsw.c for these clients, before and after
    [compute_prefixes], and the prefixes alone. *)
Definition table_of (clients : list XClient) : list Atsw.WindowInfo :=
  Atsw.discover_windows (Some clients).

Definition index_of (clients : list XClient) : option (list Atsw.WindowInfo) :=
  Atsw.compute_prefixes (table_of clients).

Definition prefixes_of (clients : list XClient) : option (list string) :=
  match index_of clients with
  | Some windows' => Some (map (λ w, String.string_of_list_ascii (Atsw.prefix w)) windows')
  | None => None
  end.

Definition three_apps : list XClient := clients_of ["zen-browser"; "discord"; "obsidian"].

Definition three_apps_index : list Atsw.WindowInfo :=
  Eval vm_compute in default [] (index_of three_apps).

Definition with_dolphins : list XClient :=
  clients_of ["zen-browser"; "discord"; "obsidian"; "dolphin"; "Dolphin"].

Definition with_dolphins_index : list Atsw.WindowInfo :=
  Eval vm_compute in default [] (index_of with_dolphins).







(** Classes of 31 and of 32 bytes, the first beginning the second. *)
Definition a31 : cstring := replicate 31 (ascii_of_nat 97).
Definition a32 : cstring := replicate 32 (ascii_of_nat 97).


Definition long_singles : list XClient := [client_of 100 a31; client_of 101 a32].

Definition one_zen : list XClient := clients_of ["Zen"].

(** The entry that [discover_windows] makes for it. *)
Definition zen_window : Atsw.WindowInfo :=
  {| Atsw.id := 100;
     Atsw.wm_class := lit "Zen";
     Atsw.wm_class_lower := lit "zen";
     Atsw.title := untitled;
     Atsw.prefix := [] |}.

Definition one_zen_index : list Atsw.WindowInfo :=
  Eval vm_compute in default [] (index_of one_zen).

Definition XK_x : KeySym := 0x78.
Definition XK_z : KeySym := 0x7a.

Definition atsw_env (clients : list XClient) (events : list XEvent) : Atsw.Env :=
  {| Atsw.display := true;
     Atsw.grab_answers := λ _, GrabSuccess;
     Atsw.client_list := Some clients;
     Atsw.desktop_of := λ _, None;
     Atsw.events := events |}.

Definition manual_window (id : Window) (class : string) : AtswManual.WindowInfo :=
  {| AtswManual.id := id; AtswManual.wm_class := lit class; AtswManual.title := [] |}.

Definition manual_windows : list AtswManual.WindowInfo :=
  [manual_window 10 "discord"; manual_window 11 "zen"; manual_window 12 "Discord"].

(** A configuration with 99 marks, and with one more, which fills the
    table. *)
Definition almost_full_config : Winleap.Config :=
  {| Winleap.marks :=
       replicate 99 {| Winleap.number := 1; Winleap.mark_class := lit "zen" |};
     Winleap.instance_keys := Winleap.DEFAULT_INSTANCE_KEYS;
     Winleap.debug := false |}.

Definition full_config : Winleap.Config :=
  Winleap.add_mark 7 (lit "discord") almost_full_config.

(** A client whose [WM_CLASS] holds the instance alone. *)
Definition instance_only (xid : Window) (instance : string) : XClient :=
  {| xid := xid;
     x_wm_class := Some (lit instance ++ [NUL]);
     x_net_wm_name := None;
     x_wm_name := None;
     x_net_wm_desktop := None |}.

Definition leap_window (id : Window) (class : string) (desktop : Z) : Winleap.WindowInfo :=
  {| Winleap.id := id; Winleap.wm_class := lit class; Winleap.title := [];
     Winleap.desktop := desktop |}.

Definition leap_windows : list Winleap.WindowInfo :=
  [leap_window 10 "zen" 0; leap_window 11 "discord" 0; leap_window 12 "Zen" 1].

(** The command line that asks for mark 1 on the current desktop only. *)
Definition current_workspace_args : Winleap.Args :=
  {| Winleap.current_workspace_only := true; Winleap.mark_arg := Some (lit "1") |}.

(** The keys d, O and 2 in turn. *)
Definition keys_d_O_2 : list XEvent :=
  [KeyPress XK_z (lit "d"); KeyPress XK_z (lit "O"); KeyPress XK_z (lit "2")].



Definition dolphin_2 : Atsw.WindowInfo :=
  Eval vm_compute in default zen_window (with_dolphins_index !! 4%nat).

(** 130 clients of the classes app100, ..., app229, one window each. *)
Definition many_apps : list XClient :=
  (λ i, client_of (100 + Z.of_nat i) (lit "app" ++ decimal (100 + i))) <$> seq 0 130.

Definition many_apps_index : list Atsw.WindowInfo :=
  Eval vm_compute in default [] (index_of many_apps).

(** Lines of more than 511 bytes: a mark 0 whose class runs on for 509
    bytes, followed on the same line by the text of a mark line, or by the
    text of a [debug] line. *)
Definition long_mark_line : list ascii :=
  lit "0=" ++ replicate 509 (ascii_of_nat 120) ++ lit "1=zen" ++ [nl].

Definition long_debug_line : list ascii :=
  lit "0=" ++ replicate 509 (ascii_of_nat 120) ++ lit "debug=maybe" ++ [nl].

End Examples.

(** * Properties *)

(** ** The keyboard grab *)

Section grab.
Variable answers : nat → GrabStatus.

Lemma attempts_from_S k n :
  Grab.attempts_from k (S (S n)) =
  XGrabKeyboard :: Usleep (Grab.backoff k) :: Grab.attempts_from (S k) (S n).
Proof. reflexivity. Qed.

Lemma grab_loop_S remaining i d last :
  Grab.grab_loop answers (S remaining) i d last =
  if decide (answers i = GrabSuccess) then (answers i, true, [XGrabKeyboard])
  else if decide (answers i = AlreadyGrabbed ∧ (i < Grab.max_retries - 1)%nat) then
    let '(r, ok, acts) :=
      Grab.grab_loop answers remaining (S i) (Grab.next_delay d) (answers i) in
    (r, ok, XGrabKeyboard :: Usleep d :: acts)
  else (answers i, false, [XGrabKeyboard]).
Proof. reflexivity. Qed.

(** The loop entered at iteration [i] with the delay [backoff i] makes [m]
    attempts, all but the last answered [AlreadyGrabbed]. *)
Lemma grab_loop_attempts remaining :
  ∀ i last, (i + S remaining = Grab.max_retries)%nat →
  ∃ m, (m ≤ remaining)%nat ∧
    Grab.grab_loop answers (S remaining) i (Grab.backoff i) last =
      (answers (i + m)%nat, bool_decide (answers (i + m)%nat = GrabSuccess),
       Grab.attempts_from i (S m)) ∧
    (∀ k, (i ≤ k < i + m)%nat → answers k = AlreadyGrabbed) ∧
    (answers (i + m)%nat = AlreadyGrabbed → (i + S m = Grab.max_retries)%nat).
Proof.
  induction remaining as [|r IH]; intros i last Hi.
  - exists 0%nat. rewrite Nat.add_0_r, grab_loop_S.
    destruct (decide (answers i = GrabSuccess)) as [Hs|Hs].
    + rewrite Hs, bool_decide_eq_true_2 by done.
      split_and!; [lia | done | intros; lia | done].
    + rewrite bool_decide_eq_false_2 by done.
      destruct (decide _) as [[_ Hlt]|_]; [unfold Grab.max_retries in *; lia|].
      split_and!; [lia | done | intros; lia | intros; lia].
  - rewrite grab_loop_S.
    destruct (decide (answers i = GrabSuccess)) as [Hs|Hs].
    { exists 0%nat. rewrite Nat.add_0_r, Hs, bool_decide_eq_true_2 by done.
      split_and!; [lia | done | intros; lia | done]. }
    destruct (decide _) as [[Hg Hlt]|Hn].
    + destruct (IH (S i) (answers i)) as (m & Hm & Heq & Hall & Hlast); [lia|].
      exists (S m).
      replace (i + S m)%nat with (S i + m)%nat by lia.
      change (Grab.next_delay (Grab.backoff i)) with (Grab.backoff (S i)).
      rewrite Heq. split_and!; [lia | done | | intros Hl; specialize (Hlast Hl); lia].
      intros k Hk. destruct (decide (k = i)) as [->|]; [done|].
      apply Hall. lia.
    + exists 0%nat. rewrite Nat.add_0_r, bool_decide_eq_false_2 by done.
      split_and!; [lia | done | intros; lia |].
      intros Hg. destruct (decide (i < Grab.max_retries - 1)%nat); [tauto|].
      unfold Grab.max_retries in *. lia.
Qed.

Lemma grab_keys_loop_eq remaining i d last :
  GrabKeys.grab_loop answers remaining i d last =
  ((Grab.grab_loop answers remaining i d last).1.1,
   (Grab.grab_loop answers remaining i d last).2).
Proof.
  revert i d last. induction remaining as [|r IH]; intros i d last; [done|].
  cbn [GrabKeys.grab_loop Grab.grab_loop].
  destruct (decide (answers i = GrabSuccess)); [done|].
  destruct (decide _); [|done].
  rewrite IH. unfold GrabKeys.next_delay, Grab.next_delay.
  by destruct (Grab.grab_loop answers r (S i) _ (answers i)) as [[??]?].
Qed.

Lemma sleeps_attempts_from n : ∀ k j,
  sleeps (Grab.attempts_from k (S n)) !! j =
  if decide (j < n)%nat then Some (Grab.backoff (k + j)) else None.
Proof.
  induction n as [|n IH]; intros k j.
  - destruct (decide _); [lia|]. by destruct j.
  - rewrite attempts_from_S. cbn [sleeps omap list_omap].
    change (omap _ (Grab.attempts_from (S k) (S n)))
      with (sleeps (Grab.attempts_from (S k) (S n))).
    destruct j as [|j].
    + destruct (decide _); [|lia]. by rewrite Nat.add_0_r.
    + change ((?x :: ?l) !! S j) with (l !! j).
      rewrite IH. replace (S k + j)%nat with (k + S j)%nat by lia.
      destruct (decide _), (decide _); done || lia.
Qed.

(** C8, as amended: [grab_keyboard] (winleap.c and atsw.c) and the loop of
    grab_keys.c make [n] grab attempts, with [1 <= n <= 10]; every attempt
    before the last was answered [AlreadyGrabbed]; between two attempts the
    process sleeps, first 10000 microseconds and then each time the previous
    delay times 3 divided by 2 with the fraction dropped; the result is
    success exactly when the last attempt was answered [GrabSuccess], and a
    last answer of [AlreadyGrabbed] means that all 10 attempts were used,
    with no sleep after it. *)
Theorem grab_keyboard_retry_backoff :
  ∃ n, (1 ≤ n ≤ 10)%nat ∧
    Grab.grab_keyboard answers =
      (bool_decide (answers (n - 1)%nat = GrabSuccess), Grab.attempts_from 0 n) ∧
    GrabKeys.grab_loop answers Grab.max_retries 0 10000 GrabSuccess =
      (answers (n - 1)%nat, Grab.attempts_from 0 n) ∧
    grab_attempts (Grab.attempts_from 0 n) = n ∧
    (∀ k, (k < n - 1)%nat → answers k = AlreadyGrabbed) ∧
    (answers (n - 1)%nat = AlreadyGrabbed → n = 10%nat) ∧
    (∀ k, (S k < n)%nat → sleeps (Grab.attempts_from 0 n) !! k = Some (Grab.backoff k)) ∧
    length (sleeps (Grab.attempts_from 0 n)) = (n - 1)%nat ∧
    Grab.backoff 0 = 10000 ∧
    (∀ k, Grab.backoff (S k) = Z.quot (Grab.backoff k * 3) 2).
Proof.
  destruct (grab_loop_attempts 9 0%nat GrabSuccess eq_refl)
    as (m & Hm & Heq & Hall & Hlast).
  change (Grab.backoff 0) with Grab.initial_delay_us in Heq.
  exists (S m). replace (S m - 1)%nat with m by lia.
  change (0 + m)%nat with m in *.
  split; [lia|]. split.
  { unfold Grab.grab_keyboard. change Grab.max_retries with 10%nat. by rewrite Heq. }
  split.
  { rewrite grab_keys_loop_eq. change Grab.max_retries with 10%nat.
    change 10000 with Grab.initial_delay_us. by rewrite Heq. }
  split.
  { clear. generalize 0%nat. induction m as [|m IH]; intros k; [done|].
    rewrite attempts_from_S. unfold grab_attempts in *.
    rewrite filter_cons_True by done. rewrite filter_cons_False by done.
    cbn [length]. by rewrite IH. }
  split; [intros k Hk; apply Hall; lia|].
  split; [intros Hg; specialize (Hlast Hg); unfold Grab.max_retries in *; lia|].
  split.
  { intros k Hk. rewrite sleeps_attempts_from. by destruct (decide _); [|lia]. }
  split; [|done].
  replace (S m - 1)%nat with m by lia.
  clear. generalize 0%nat. induction m as [|m IH]; intros k; [done|].
  rewrite attempts_from_S. cbn [sleeps omap list_omap length].
  f_equal. apply IH.
Qed.
End grab.

(** C8, as stated, fails: when every attempt is answered [AlreadyGrabbed]
    the fifth wait lasts 50625 microseconds and the sixth 75937, which is not
    1.5 times as long. *)
Lemma grab_backoff_not_exact :
  sleeps (Grab.grab_keyboard (λ _, AlreadyGrabbed)).2 !! 4%nat = Some 50625 ∧
  sleeps (Grab.grab_keyboard (λ _, AlreadyGrabbed)).2 !! 5%nat = Some 75937 ∧
  ¬ Spec.exact_backoff (Grab.grab_keyboard (λ _, AlreadyGrabbed)).2.
Proof.
  split; [done|]. split; [done|].
  intros H. specialize (H 4%nat 50625 75937 eq_refl eq_refl). lia.
Qed.

(** ** Cycling to the next instance (atsw_manual.c) *)

Section cycle_next.
Import AtswManual.
Variable windows : list WindowInfo.
Variable active : Window.

(** The search returns the first position whose window is the active one. *)
Lemma find_active_from_first indices : ∀ s i k,
  indices !! i = Some k →
  id_at windows k = active →
  (∀ j k', (j < i)%nat → indices !! j = Some k' → id_at windows k' ≠ active) →
  find_active_from s windows indices active = Z.of_nat (s + i).
Proof.
  induction indices as [|k0 rest IH]; intros s i k Hi Hk Hfirst; [done|].
  cbn [find_active_from]. destruct i as [|i].
  - injection Hi as ->. rewrite decide_True by done. f_equal. lia.
  - rewrite decide_False by (apply (Hfirst 0%nat); [lia|done]).
    rewrite (IH (S s) i k); [f_equal; lia|done|done|].
    intros j k' Hj Hk'. apply (Hfirst (S j)); [lia|done].
Qed.

Lemma find_active_from_none indices : ∀ s,
  (∀ k, k ∈ indices → id_at windows k ≠ active) →
  find_active_from s windows indices active = -1.
Proof.
  induction indices as [|k0 rest IH]; intros s Hnone; [done|].
  cbn [find_active_from].
  rewrite decide_False by (apply Hnone; left).
  apply IH. intros k Hk. apply Hnone. by right.
Qed.

(** C9: for a non-empty list of candidates in discovery order, if the
    active window is the candidate at position [i], the target is the
    candidate at position [(i + 1) mod n], the next one, the first after the
    last; if no candidate is the active window, the target is the first
    candidate. The position of the active window is the first with its
    identifier, which is the position of any candidate with that identifier
    when the identifiers of the candidates are distinct. *)
Theorem cycle_next_resolution (matching_indices : list nat) :
  matching_indices ≠ [] →
  (∀ i k,
     matching_indices !! i = Some k →
     id_at windows k = active →
     (∀ j k', (j < i)%nat → matching_indices !! j = Some k' →
              id_at windows k' ≠ active) →
     ∃ next, matching_indices !! ((i + 1) mod length matching_indices)%nat = Some next ∧
             choose_target windows matching_indices active = Z.of_nat next) ∧
  ((∀ k, k ∈ matching_indices → id_at windows k ≠ active) →
     ∃ first, matching_indices !! 0%nat = Some first ∧
              choose_target windows matching_indices active = Z.of_nat first) ∧
  (NoDup (id_at windows <$> matching_indices) →
   ∀ i k,
     matching_indices !! i = Some k →
     id_at windows k = active →
     ∃ next, matching_indices !! ((i + 1) mod length matching_indices)%nat = Some next ∧
             choose_target windows matching_indices active = Z.of_nat next).
Proof.
  intros Hne.
  cut ((∀ i k,
          matching_indices !! i = Some k →
          id_at windows k = active →
          (∀ j k', (j < i)%nat → matching_indices !! j = Some k' →
                   id_at windows k' ≠ active) →
          ∃ next, matching_indices !! ((i + 1) mod length matching_indices)%nat
                  = Some next ∧
                  choose_target windows matching_indices active = Z.of_nat next) ∧
       ((∀ k, k ∈ matching_indices → id_at windows k ≠ active) →
          ∃ first, matching_indices !! 0%nat = Some first ∧
                   choose_target windows matching_indices active = Z.of_nat first)).
  { intros [Hfirst Hnone]. split_and!; [done|done|].
    intros Hnd i k Hi Hk. apply (Hfirst i k Hi Hk).
    intros j k' Hj Hk' Hid.
    assert (j = i); [|lia].
    eapply (NoDup_lookup _ _ _ _ Hnd); rewrite list_lookup_fmap.
    - by rewrite Hk'.
    - rewrite Hi. simpl. congruence. }
  destruct matching_indices as [|k0 rest] eqn:Hm; [done|]. rewrite <-Hm in *.
  assert (0 < length matching_indices)%nat as Hlen by (rewrite Hm; simpl; lia).
  assert (matching_indices !! 0%nat = Some k0) as H0 by (by rewrite Hm).
  split.
  - intros i k Hi Hk Hfirst.
    assert (i < length matching_indices)%nat as Hilt by (by eapply lookup_lt_Some).
    destruct (lookup_lt_is_Some_2 matching_indices
                ((i + 1) mod length matching_indices)%nat) as [next Hnext].
    { apply Nat.mod_upper_bound. lia. }
    exists next. split; [done|]. unfold choose_target.
    destruct (decide (length matching_indices = 1%nat)) as [H1|H1].
    + assert (i = 0%nat) as -> by lia. rewrite H1 in Hnext. simpl in Hnext.
      by rewrite Hnext.
    + rewrite (find_active_from_first _ 0%nat i k) by done.
      rewrite decide_True by lia.
      rewrite Z.rem_mod_nonneg by lia.
      replace (Z.of_nat (0 + i) + 1) with (Z.of_nat (i + 1)) by lia.
      rewrite <-Nat2Z.inj_mod, Nat2Z.id. by rewrite Hnext.
  - intros Hnone. exists k0. split; [done|]. unfold choose_target.
    destruct (decide (length matching_indices = 1%nat)); [by rewrite H0|].
    rewrite find_active_from_none by done.
    rewrite decide_False by lia. by rewrite H0.
Qed.

(** The windows found for the class are activated through that choice. *)
Lemma dispatch_activates_choice target_class desktop_of :
  find_windows_by_class windows target_class MAX_WINDOWS ≠ [] →
  dispatch windows target_class active desktop_of =
    (Exited 0,
     (if decide (choose_target windows
                   (find_windows_by_class windows target_class MAX_WINDOWS) active >= 0)
      then activate_window windows desktop_of
             (choose_target windows
                (find_windows_by_class windows target_class MAX_WINDOWS) active)
      else []) ++ [XCloseDisplay]).
Proof.
  intros Hne. unfold dispatch.
  destruct (decide _) as [Hz|]; [|done].
  by apply length_zero_iff_nil in Hz.
Qed.
End cycle_next.

(** ** winleap.c: loading the configuration and dispatching a mark *)

Section winleap.
Import Winleap.

Lemma parse_keys_loop_nonempty raw_value : ∀ seen out out_size keys,
  parse_keys_loop raw_value seen out out_size = inr keys → keys ≠ [].
Proof.
  induction raw_value as [|ch rest IH]; intros seen out out_size keys; simpl.
  - destruct (decide _) as [|Hne]; [done|]. intros [= <-] ->. by apply Hne.
  - destruct (isspace ch); [apply IH|].
    destruct (negb (isprint ch)); [apply IH|].
    destruct (seen (tolower ch)); [done|].
    destruct (decide _); [done|]. apply IH.
Qed.

Lemma process_line_keys buf config config' :
  process_line buf config = Next config' →
  instance_keys config ≠ [] → instance_keys config' ≠ [].
Proof.
  unfold process_line. intros Hp Hk.
  repeat (case_match; simplify_eq/=; try done).
  by eapply parse_keys_loop_nonempty.
Qed.

Lemma read_lines_keys bufs : ∀ config config',
  read_lines bufs config = Next config' →
  instance_keys config ≠ [] → instance_keys config' ≠ [].
Proof.
  induction bufs as [|buf rest IH]; intros config config'; simpl.
  - by intros [= <-].
  - destruct (decide _); [|by intros [= <-]].
    destruct (process_line buf config) as [c1|] eqn:Hp; [|done].
    intros Hr Hk. eapply IH; [done|]. by eapply process_line_keys.
Qed.

(** A configuration that loads has at least one selector key and one mark,
    and loading it prints nothing. *)
Lemma read_config_file_ok file config acts :
  read_config_file file = (Some config, acts) →
  instance_keys config ≠ [] ∧ (0 < num_marks config)%nat ∧ acts = [].
Proof.
  unfold read_config_file. destruct file as [f|]; [|done].
  destruct (read_lines _ _) as [c|] eqn:Hr; [|done].
  destruct (decide _); [|done]. intros [= <- <-].
  split_and!; [|done|done].
  eapply read_lines_keys; [done|]. by vm_compute.
Qed.

Lemma find_windows_from_nil i target_class cwo current_desktop max_indices count :
  find_windows_from i [] target_class cwo current_desktop max_indices count = [].
Proof. done. Qed.

Lemma discover_loop_filtered client_list : ∀ windows,
  (∀ c, c ∈ client_list → get_wm_class c MAX_CLASS_LEN = None) →
  discover_loop client_list windows = windows.
Proof.
  induction client_list as [|c rest IH]; intros windows Hall; [done|].
  simpl. destruct (decide _); [|done].
  rewrite (Hall c) by left. apply IH. intros c' Hc'. apply Hall. by right.
Qed.

Variable args : Args.
Variable env : Env.

(** The desktop the search is restricted to. *)
Let current_desktop : Z :=
  if current_workspace_only args then get_current_desktop env else -1.

(** C1, as amended: when the windows found for the mark outnumber the
    selector keys, the run prints the count mismatch with both numbers,
    neither grabs the keyboard nor selects or activates a window, closes the
    display and exits with code 2. *)
Theorem selector_exhausted_exit_2 arg config acts target_class :
  mark_arg args = Some arg →
  0 < atoi arg →
  read_config_file (config_file env) = (Some config, acts) →
  find_wmclass_for_mark (marks config) (atoi arg) = Some target_class →
  display env = true →
  (strlen (instance_keys config) <
   length (find_windows_by_class_and_scope (discover_windows (client_list env))
             target_class (current_workspace_only args) current_desktop
             MAX_WINDOWS))%nat →
  main args env =
    (Exited 2,
     [Stderr (TooManyWindows
                (length (find_windows_by_class_and_scope
                           (discover_windows (client_list env)) target_class
                           (current_workspace_only args) current_desktop MAX_WINDOWS))
                (strlen (instance_keys config)));
      XCloseDisplay]).
Proof.
  intros Harg Hpos Hcfg Hmark Hdisp Hmany.
  destruct (read_config_file_ok _ _ _ Hcfg) as (Hkeys & _ & ->).
  assert (0 < strlen (instance_keys config))%nat as Hk.
  { unfold strlen. destruct (instance_keys config); [done|simpl; lia]. }
  unfold main. rewrite Harg. rewrite decide_False by lia.
  rewrite Hcfg, Hmark, Hdisp. cbn [negb].
  fold current_desktop.
  set (windows := discover_windows (client_list env)) in *.
  set (matching := find_windows_by_class_and_scope _ _ _ _ _) in *.
  destruct (decide (length windows = 0%nat)) as [Hz|_].
  { apply length_zero_iff_nil in Hz. subst matching. rewrite Hz in Hmany.
    unfold find_windows_by_class_and_scope in Hmany.
    rewrite find_windows_from_nil in Hmany. simpl in Hmany. lia. }
  rewrite decide_False by lia. rewrite decide_False by lia.
  unfold select_instance_interactively.
  rewrite decide_False by lia. rewrite decide_True by done.
  rewrite decide_False by done. by rewrite decide_True by done.
Qed.

(** C7, as amended: when the display opens and the client list is read but
    no client has a usable class, the window table is empty, which [main]
    takes for a failed discovery: it reports it, closes the display and
    exits with code 2. *)
Theorem all_windows_filtered_exit_2 arg config acts target_class clients :
  mark_arg args = Some arg →
  0 < atoi arg →
  read_config_file (config_file env) = (Some config, acts) →
  find_wmclass_for_mark (marks config) (atoi arg) = Some target_class →
  display env = true →
  client_list env = Some clients →
  (∀ c, c ∈ clients → get_wm_class c MAX_CLASS_LEN = None) →
  discover_windows (client_list env) = [] ∧
  main args env = (Exited 2, [Stderr FailedToDiscoverWindows; XCloseDisplay]).
Proof.
  intros Harg Hpos Hcfg Hmark Hdisp Hcl Hall.
  destruct (read_config_file_ok _ _ _ Hcfg) as (_ & _ & ->).
  assert (discover_windows (client_list env) = []) as Hd.
  { rewrite Hcl. simpl. by apply discover_loop_filtered. }
  split; [done|].
  unfold main. rewrite Harg. rewrite decide_False by lia.
  by rewrite Hcfg, Hmark, Hdisp, Hd.
Qed.

(** A configuration that does not load ends the run with code 1. *)
Lemma config_failure_exit_1 arg acts :
  mark_arg args = Some arg →
  0 < atoi arg →
  read_config_file (config_file env) = (None, acts) →
  main args env = (Exited 1, acts ++ [Stderr FailedToReadConfig]).
Proof.
  intros Harg Hpos Hcfg. unfold main.
  rewrite Harg. rewrite decide_False by lia. by rewrite Hcfg.
Qed.
End winleap.

Section config_lines.
Import Winleap.

Lemma malformed_line_skipped buf config :
  Spec.malformed_mark_line buf = true → process_line buf config = Next config.
Proof.
  unfold Spec.malformed_mark_line, process_line.
  repeat (case_match; simplify_eq/=; try done).
Qed.

(** The loop goes on after a buffer that holds a malformed mark line as it
    does without that buffer. *)
Lemma read_lines_skip bufs1 buf bufs2 config :
  Spec.malformed_mark_line buf = true →
  read_lines (bufs1 ++ buf :: bufs2) config = read_lines (bufs1 ++ bufs2) config.
Proof.
  intros Hbad.
  revert config. induction bufs1 as [|b rest IH]; intros config; simpl.
  - rewrite malformed_line_skipped by done.
    destruct (decide _) as [|Hfull]; [done|].
    destruct bufs2; [done|]. simpl. by rewrite decide_False.
  - destruct (decide _); [|done].
    destruct (process_line b config); [apply IH|done].
Qed.

(** After a line feed [fgets] starts on a new buffer. *)
Lemma fgets_all_after_line_feed f rest : ∀ line room,
  fgets_all (f ++ Spec.line_feed :: rest) line room =
  fgets_all (f ++ [Spec.line_feed]) line room ++ fgets_all rest [] (MAX_LINE_LEN - 1).
Proof.
  induction f as [|c f IH]; intros line room; [done|].
  cbn [app fgets_all].
  destruct (decide (code c = 10)); [by rewrite IH|].
  destruct (decide (room ≤ 1)%nat); [by rewrite IH|]. apply IH.
Qed.

Lemma fgets_all_line_start before rest :
  Spec.line_start before →
  fgets_all (before ++ rest) [] (MAX_LINE_LEN - 1) =
  fgets_all before [] (MAX_LINE_LEN - 1) ++ fgets_all rest [] (MAX_LINE_LEN - 1).
Proof.
  intros [->|Hlast]; [done|].
  apply last_Some in Hlast as [p ->].
  rewrite <-app_assoc. apply fgets_all_after_line_feed.
Qed.

(** A line that has room in the buffer is read whole, with its line
    feed. *)
Lemma fgets_all_whole_line line rest : ∀ acc room,
  Forall (λ c, code c ≠ 10) line →
  (length line < room)%nat →
  fgets_all (line ++ Spec.line_feed :: rest) acc room =
  (acc ++ line ++ [Spec.line_feed]) :: fgets_all rest [] (MAX_LINE_LEN - 1).
Proof.
  induction line as [|c line IH]; intros acc room Hnl Hroom;
    cbn [app fgets_all length] in *.
  - by rewrite decide_True by done.
  - apply Forall_cons in Hnl as [Hc Hnl].
    rewrite decide_False by done. rewrite decide_False by lia.
    rewrite IH by (done || lia). by rewrite <-app_assoc.
Qed.

(** The same for the last line of a file that does not end in a line
    feed. *)
Lemma fgets_all_last_line line : ∀ acc room,
  Forall (λ c, code c ≠ 10) line →
  (length line < room)%nat →
  acc ++ line ≠ [] →
  fgets_all line acc room = [acc ++ line].
Proof.
  induction line as [|c line IH]; intros acc room Hnl Hroom Hne;
    cbn [fgets_all length] in *.
  - rewrite app_nil_r in *. by rewrite decide_False.
  - apply Forall_cons in Hnl as [Hc Hnl].
    rewrite decide_False by done. rewrite decide_False by lia.
    rewrite IH; [by rewrite <-app_assoc|done|lia|].
    by rewrite <-app_assoc.
Qed.

(** A line of the file of at most 510 bytes fills one buffer, whatever
    comes before and after it. *)
Lemma fgets_all_line before line eol after :
  Spec.line_start before →
  Forall (λ c, code c ≠ 10) line →
  (length line < MAX_LINE_LEN - 1)%nat →
  Spec.line_end eol after →
  line ++ eol ≠ [] →
  fgets_all (before ++ line ++ eol ++ after) [] (MAX_LINE_LEN - 1) =
  fgets_all before [] (MAX_LINE_LEN - 1) ++
  (line ++ eol) :: fgets_all after [] (MAX_LINE_LEN - 1).
Proof.
  intros Hstart Hnl Hlen Hend Hne.
  rewrite fgets_all_line_start by done. f_equal.
  destruct Hend as [->|[-> ->]].
  - by rewrite (fgets_all_whole_line line after []).
  - rewrite !app_nil_r in *. by rewrite (fgets_all_last_line line []).
Qed.

(** C6, as amended: a malformed mark line is not an error. Take a file and
    in it a line of at most 510 bytes, so that [fgets] reads it whole: the
    bytes [line] between a line start and the line feed (or the end of the
    file) that ends it. When that line is a malformed mark line, it fills one
    buffer of the reading loop, the loop body leaves the configuration as it
    is and goes on, and loading the file gives what loading the file without
    that line gives. *)
Theorem malformed_mark_line_is_skipped before line eol after :
  Spec.line_start before →
  Forall (λ c, code c ≠ 10) line →
  (length line < MAX_LINE_LEN - 1)%nat →
  Spec.line_end eol after →
  Spec.malformed_mark_line (line ++ eol) = true →
  fgets_all (before ++ line ++ eol ++ after) [] (MAX_LINE_LEN - 1) =
    fgets_all before [] (MAX_LINE_LEN - 1) ++
    (line ++ eol) :: fgets_all after [] (MAX_LINE_LEN - 1) ∧
  (∀ config, process_line (line ++ eol) config = Next config) ∧
  read_config_file (Some (before ++ line ++ eol ++ after)) =
    read_config_file (Some (before ++ after)).
Proof.
  intros Hstart Hnl Hlen Hend Hbad.
  assert (line ++ eol ≠ []) as Hne by (by intros Heq; rewrite Heq in Hbad).
  pose proof (fgets_all_line _ _ _ _ Hstart Hnl Hlen Hend Hne) as Hread.
  split_and!; [done|by intros; apply malformed_line_skipped|].
  unfold read_config_file. rewrite Hread, read_lines_skip by done.
  by rewrite <-fgets_all_line_start.
Qed.
End config_lines.

(** ** winleap.c at concrete inputs *)

(** C1, as stated, fails: with one selector key and two windows of the
    mark's class the run reports the mismatch and exits with code 2, not 1. *)
Lemma selector_exhausted_not_exit_1 :
  Winleap.read_config_file (Some Examples.one_key_file) = (Some Examples.one_key_config, []) ∧
  length (Winleap.find_windows_by_class_and_scope
            (Winleap.discover_windows (Some Examples.two_zen))
            (Examples.lit "zen") false (-1) Winleap.MAX_WINDOWS) = 2%nat ∧
  Winleap.main Examples.winleap_args
    (Examples.winleap_env Examples.one_key_file Examples.two_zen) =
    (Exited 2, [Stderr (TooManyWindows 2 1); XCloseDisplay]) ∧
  (Winleap.main Examples.winleap_args
     (Examples.winleap_env Examples.one_key_file Examples.two_zen)).1 ≠ Exited 1.
Proof. split_and!; [by vm_compute ..|]. by vm_compute. Qed.

(** C7, as stated, fails: one client without a class leaves the table empty,
    and the run exits with code 2. *)
Lemma all_windows_filtered_not_exit_1 :
  Winleap.discover_windows (Some [Examples.classless 101]) = [] ∧
  Winleap.main Examples.winleap_args
    (Examples.winleap_env Examples.zen_file [Examples.classless 101]) =
    (Exited 2, [Stderr FailedToDiscoverWindows; XCloseDisplay]) ∧
  (Winleap.main Examples.winleap_args
     (Examples.winleap_env Examples.zen_file [Examples.classless 101])).1 ≠ Exited 1.
Proof. split_and!; [by vm_compute ..|]. by vm_compute. Qed.

(** C6, as stated, fails: a file with a non-numeric mark, a mark 0 and an
    empty class loads, with the one good mark, and the run activates the
    window of that mark and exits with code 0. *)
Lemma malformed_mark_line_not_fatal :
  Spec.malformed_mark_line (Examples.lit "abc=foo" ++ [Examples.nl]) = true ∧
  Spec.malformed_mark_line (Examples.lit "0=bar" ++ [Examples.nl]) = true ∧
  Spec.malformed_mark_line (Examples.lit "2=" ++ [Examples.nl]) = true ∧
  Winleap.fgets_all Examples.sloppy_file [] 511 =
    [Examples.lit "abc=foo" ++ [Examples.nl]; Examples.lit "0=bar" ++ [Examples.nl];
     Examples.lit "2=" ++ [Examples.nl]; Examples.lit "1=zen" ++ [Examples.nl]] ∧
  Winleap.read_config_file (Some Examples.sloppy_file) = (Some Examples.zen_config, []) ∧
  Winleap.main Examples.winleap_args
    (Examples.winleap_env Examples.sloppy_file [Examples.client 101 "Navigator" "zen"]) =
    (Exited 0,
     [SendActiveWindow 101; XMapRaised 101; XRaiseWindow 101; XSetInputFocus 101;
      XCloseDisplay]).
Proof. split_and!; by vm_compute. Qed.

(** A line of more than 510 bytes is read in pieces, and each piece is
    taken for a line. The first 511 bytes of these two lines are a malformed
    mark line; the rest of the first one gives mark 1, and the rest of the
    second one ends the loading of a file that loads without that line. *)
Example long_line_read_in_pieces :
  length Examples.long_mark_line = 517%nat ∧
  Spec.malformed_mark_line (take 511 Examples.long_mark_line) = true ∧
  Winleap.fgets_all Examples.long_mark_line [] 511 =
    [take 511 Examples.long_mark_line; Examples.lit "1=zen" ++ [Examples.nl]] ∧
  Winleap.read_config_file (Some Examples.long_mark_line) = (Some Examples.zen_config, []) ∧
  Winleap.read_config_file (Some []) = (None, []) ∧
  Spec.malformed_mark_line (take 511 Examples.long_debug_line) = true ∧
  Winleap.read_config_file (Some (Examples.zen_file ++ Examples.long_debug_line)) =
    (None, [Stderr (InvalidDebugValue (Examples.lit "maybe"))]) ∧
  Winleap.read_config_file (Some Examples.zen_file) = (Some Examples.zen_config, []).
Proof. split_and!; by vm_compute. Qed.

(** ** Bytes and C strings *)

Section cstrings.
Lemma tolower_idemp c : tolower (tolower c) = tolower c.
Proof. by destruct c as [[] [] [] [] [] [] [] []]. Qed.

Lemma tolower_NUL c : tolower c = NUL → c = NUL.
Proof. by destruct c as [[] [] [] [] [] [] [] []]. Qed.

Lemma code_NUL c : code c = 0 → c = NUL.
Proof. by destruct c as [[] [] [] [] [] [] [] []]. Qed.

Lemma cstr_no_NUL buf : NUL ∉ cstr buf.
Proof.
  induction buf as [|c rest IH]; simpl; [by apply not_elem_of_nil|].
  destruct (decide (c = NUL)); [by apply not_elem_of_nil|].
  by apply not_elem_of_cons.
Qed.

Lemma cstr_id s : NUL ∉ s → cstr s = s.
Proof.
  induction s as [|c rest IH]; [done|]. intros [Hc Hrest]%not_elem_of_cons.
  simpl. rewrite decide_False by done. by rewrite IH.
Qed.

(** Appending to a buffer extends the C string in it, or leaves it as it
    is. *)
Lemma cstr_app_prefix buf more : cstr buf `prefix_of` cstr (buf ++ more).
Proof.
  induction buf as [|c rest IH]; simpl; [apply prefix_nil|].
  destruct (decide (c = NUL)); [apply prefix_nil|]. by apply prefix_cons.
Qed.

(** A prefix that agrees with a string agrees with its beginning. *)
Lemma strncasecmp_shorter s : ∀ p more,
  strncasecmp p (s ++ more) (length (s ++ more)) = 0 →
  strncasecmp p s (length s) = 0.
Proof.
  induction s as [|c rest IH]; intros p more; [done|].
  simpl. destruct p as [|c1 p]; [done|].
  destruct (decide (tolower c1 = tolower c)); [apply IH|done].
Qed.

Lemma string_prefix_app (b c k : string) :
  String.prefix (b +:+ c) k = true → String.prefix b k = true.
Proof.
  revert k. induction b as [|x b IH]; intros k; [by destruct k|].
  destruct k as [|y k]; [done|]. simpl.
  destruct (Ascii.ascii_dec x y); [apply IH|done].
Qed.
End cstrings.

(** ** The candidates of a buffer *)

Section candidates.
Import Atsw.
Variable windows : list WindowInfo.

Lemma scan_matches_range ws : ∀ i b n x,
  x ∈ scan_matches i ws b n → (i ≤ x < i + length ws)%nat.
Proof.
  induction ws as [|w rest IH]; intros i b n x; simpl; [by intros ?%elem_of_nil|].
  destruct (decide _).
  - intros [->|Hx%IH]%elem_of_cons; lia.
  - intros Hx%IH. lia.
Qed.

Lemma scan_matches_shorter ws : ∀ i b more,
  scan_matches i ws (b ++ more) (length (b ++ more)) ⊆ scan_matches i ws b (length b).
Proof.
  induction ws as [|w rest IH]; intros i b more x; simpl; [done|].
  destruct (decide (strncasecmp (prefix w) (b ++ more) _ = 0)) as [Hz|_].
  - apply strncasecmp_shorter in Hz. rewrite decide_True by done.
    intros [->|Hx]%elem_of_cons; [left|right]. by eapply IH.
  - intros Hx. destruct (decide _); [right|]; by eapply IH.
Qed.

(** The longer the C string in the buffer, the fewer the candidates. *)
Lemma candidates_prefix_mono b1 b2 :
  cstr b1 `prefix_of` cstr b2 → candidates windows b2 ⊆ candidates windows b1.
Proof.
  intros [more Hb]. unfold candidates. rewrite Hb.
  destruct (cstr b1) as [|c1 s1] eqn:H1.
  - intros x Hx. apply elem_of_seq.
    destruct ([] ++ more) eqn:Hm; [by apply elem_of_seq in Hx|].
    apply scan_matches_range in Hx. lia.
  - simpl app. apply (scan_matches_shorter windows 0 (c1 :: s1) more).
Qed.

(** [match_count] is the number of candidates, and a window is returned
    when it is the only one. *)
Lemma find_match_candidates buffer :
  (find_match windows buffer).2 = length (candidates windows buffer) ∧
  (∀ m, candidates windows buffer = [m] → cstr buffer ≠ [] →
        (find_match windows buffer).1 = Z.of_nat m).
Proof.
  unfold find_match, candidates. destruct (cstr buffer) as [|c s].
  - split; [by rewrite length_seq|done].
  - destruct (scan_matches _ _ _ _) as [|m1 [|m2 l]]; split; try done.
    by intros m [= ->].
Qed.

(** C5: the candidates after a byte is appended to the buffer are among
    the candidates before, both for [find_match] and for the matcher of the
    shell script; and the candidates do not shrink when the last byte of
    the buffer is removed. *)
Theorem candidates_monotone (buffer : list ascii) (c : ascii)
    (table : AtswMode.PrefixTable) (sh_buffer sh_key : string) :
  candidates windows (buffer ++ [c]) ⊆ candidates windows buffer ∧
  candidates windows buffer ⊆ candidates windows (take (length buffer - 1) buffer) ∧
  AtswMode.candidates table (sh_buffer +:+ sh_key) ⊆ AtswMode.candidates table sh_buffer.
Proof.
  split_and!.
  - apply candidates_prefix_mono, cstr_app_prefix.
  - apply candidates_prefix_mono.
    pose proof (cstr_app_prefix (take (length buffer - 1) buffer)
                  (drop (length buffer - 1) buffer)) as H.
    by rewrite take_drop in H.
  - unfold AtswMode.candidates.
    destruct (decide (sh_buffer = EmptyString)) as [->|Hb].
    + destruct (decide _); [done|]. apply subseteq_dom, map_filter_subseteq.
    + rewrite decide_False by (by destruct sh_buffer).
      intros k [v Hk]%elem_of_dom. apply elem_of_dom. exists v.
      apply map_lookup_filter_Some in Hk as [Hk Hp].
      apply map_lookup_filter_Some. split; [done|].
      by eapply string_prefix_app.
Qed.
End candidates.

(** ** Comparison of lower-case C strings *)

Section lowered.
Import Spec.

Lemma code_inj c1 c2 : code c1 = code c2 → c1 = c2.
Proof.
  unfold code. intros H%(inj Z.of_N).
  by rewrite <-(ascii_N_embedding c1), <-(ascii_N_embedding c2), H.
Qed.

Lemma lowered_cons c s : lowered (c :: s) ↔ (c ≠ NUL ∧ tolower c = c) ∧ lowered s.
Proof. unfold lowered. by rewrite Forall_cons. Qed.

Lemma lowered_take n s : lowered s → lowered (take n s).
Proof. apply Forall_take. Qed.

Lemma lowered_fmap_tolower s : NUL ∉ s → lowered (tolower <$> s).
Proof.
  intros Hs. apply Forall_fmap, Forall_forall. intros c Hc. simpl. split.
  - intros ->%tolower_NUL. done.
  - apply tolower_idemp.
Qed.

(** On lower-case strings [strncasecmp] tells whether the first [n] bytes
    are the same. *)
Lemma strncasecmp_zero_iff n : ∀ s1 s2, lowered s1 → lowered s2 →
  strncasecmp s1 s2 n = 0 ↔ take n s1 = take n s2.
Proof.
  induction n as [|n IH]; intros s1 s2 H1 H2; [done|].
  destruct s1 as [|c1 t1], s2 as [|c2 t2]; simpl; [done| | |].
  - apply lowered_cons in H2 as [[Hn Hl] _]. split; [|done].
    intros Hc. destruct Hn. apply tolower_NUL, code_NUL. lia.
  - apply lowered_cons in H1 as [[Hn Hl] _]. split; [|done].
    intros Hc. destruct Hn. by apply tolower_NUL, code_NUL.
  - apply lowered_cons in H1 as [[Hn1 Hl1] H1].
    apply lowered_cons in H2 as [[Hn2 Hl2] H2].
    rewrite Hl1, Hl2. destruct (decide (c1 = c2)) as [->|Hne].
    + rewrite IH by done. split; [by intros ->|by intros [= ->]].
    + split; [|by intros [= ? _]].
      intros Hc. destruct Hne. apply code_inj. lia.
Qed.

Lemma strcmp_zero_iff : ∀ s1 s2, lowered s1 → lowered s2 →
  strcmp s1 s2 = 0 ↔ s1 = s2.
Proof.
  induction s1 as [|c1 t1 IH]; intros [|c2 t2] H1 H2; simpl; [done| | |].
  - apply lowered_cons in H2 as [[Hn Hl] _]. split; [|done].
    intros Hc. destruct Hn. apply code_NUL. lia.
  - apply lowered_cons in H1 as [[Hn Hl] _]. split; [|done].
    intros Hc. destruct Hn. by apply code_NUL.
  - apply lowered_cons in H1 as [_ H1]. apply lowered_cons in H2 as [_ H2].
    destruct (decide (c1 = c2)) as [->|Hne].
    + rewrite IH by done. split; [by intros ->|by intros [= ->]].
    + split; [|by intros [= ? _]].
      intros Hc. destruct Hne. apply code_inj. lia.
Qed.
End lowered.

(** ** The grouping loop of [compute_prefixes] *)

Section grouping.
Import Atsw Spec.
Variable windows : list WindowInfo.
Hypothesis windows_lowered :
  ∀ w, w ∈ windows →
    lowered (wm_class_lower w) ∧ (length (wm_class_lower w) ≤ MAX_CLASS_LEN)%nat.

Lemma find_app_Some apps cls found :
  find_app apps cls = Some found →
  ∃ g, apps !! found = Some g ∧ strcmp (class_lower g) cls = 0.
Proof.
  unfold find_app. destruct (list_find _ apps) as [[j g]|] eqn:Hf; [|done].
  intros [= <-]. apply list_find_Some in Hf as (Hj & Hc & _). eauto.
Qed.

Lemma find_app_None apps cls :
  find_app apps cls = None → ∀ g, g ∈ apps → strcmp (class_lower g) cls ≠ 0.
Proof.
  unfold find_app. destruct (list_find _ apps) as [[j g]|] eqn:Hf; [done|].
  intros _ g Hg. apply list_find_None in Hf.
  by eapply (proj1 (Forall_forall _ _) Hf).
Qed.

Lemma groups_inv_nil : groups_inv windows 0 [].
Proof. split; intros; simplify_list_eq. Qed.

Lemma group_window_inv apps i w :
  windows !! i = Some w →
  groups_inv windows i apps →
  groups_inv windows (S i) (group_window apps i w).
Proof.
  intros Hw [Hclass Hdistinct Hnodup Hnonempty Hlowered].
  destruct (windows_lowered w) as [Hwl Hwlen]; [by eapply list_elem_of_lookup_2|].
  unfold group_window. destruct (find_app apps (wm_class_lower w)) as [found|] eqn:Hf.
  - apply find_app_Some in Hf as (g0 & Hg0 & Hcmp).
    apply strcmp_zero_iff in Hcmp; [|by eauto|done].
    assert (∀ a g, alter (add_window i) found apps !! a = Some g →
              ∃ g', apps !! a = Some g' ∧ class_lower g = class_lower g' ∧
                (window_indices g = window_indices g' ∨
                 (a = found ∧ window_indices g = window_indices g' ++ [i]))) as Halter.
    { intros a g. destruct (decide (a = found)) as [->|Hne].
      - rewrite list_lookup_alter_eq, Hg0. simpl. intros [= Hg]. subst g.
        exists g0. simpl. auto.
      - rewrite list_lookup_alter_ne by done. intros Hg. exists g. auto. }
    split.
    + intros a g idx (g' & Hg' & Hcl & Hidx)%Halter Hin.
      rewrite Hcl. destruct Hidx as [Hidx|[-> Hidx]]; rewrite Hidx in Hin.
      * destruct (Hclass a g' idx Hg' Hin) as [? ?]. split; [lia|done].
      * apply elem_of_app in Hin as [Hin|Hin].
        -- destruct (Hclass found g' idx Hg' Hin) as [? ?]. split; [lia|done].
        -- apply list_elem_of_singleton in Hin as ->.
           split; [lia|]. exists w. split; [done|]. congruence.
    + intros a b ga gb (ga' & Ha & Hca & _)%Halter (gb' & Hb & Hcb & _)%Halter Heq.
      eapply Hdistinct; [done..|congruence].
    + intros a g (g' & Hg' & _ & Hidx)%Halter.
      destruct Hidx as [Hidx|[-> Hidx]]; rewrite Hidx; [by eauto|].
      apply NoDup_app. split_and!; [by eauto| |apply NoDup_singleton].
      intros idx Hin Hi. apply list_elem_of_singleton in Hi as ->.
      destruct (Hclass found g' i Hg' Hin). lia.
    + intros a g (g' & Hg' & _ & Hidx)%Halter.
      destruct Hidx as [Hidx|[-> Hidx]]; rewrite Hidx; [by eauto|].
      by destruct (window_indices g').
    + intros a g (g' & Hg' & Hcl & _)%Halter. rewrite Hcl. by eauto.
  - pose proof (find_app_None _ _ Hf) as Hnone.
    destruct (decide (length apps < MAX_APPS)%nat) as [_|_].
    + assert (strncpy_str (wm_class_lower w) MAX_CLASS_LEN = wm_class_lower w) as Hcopy
        by (by apply take_ge).
      assert (∀ a g, (apps ++ [ {| class_lower := strncpy_str (wm_class_lower w) MAX_CLASS_LEN;
                                window_indices := [i] |} ]) !! a = Some g →
                apps !! a = Some g ∨
                (a = length apps ∧ class_lower g = wm_class_lower w
                 ∧ window_indices g = [i])) as Happ.
      { intros a g [Hg|[Ha Hg]]%lookup_app_Some; [by left|right].
        apply list_lookup_singleton_Some in Hg as [Hz <-]. simpl.
        split_and!; [lia|done|done]. }
      split.
      * intros a g idx [Hg|(-> & Hcl & Hidx)]%Happ Hin.
        -- destruct (Hclass a g idx Hg Hin) as [? ?]. split; [lia|done].
        -- rewrite Hidx in Hin. apply list_elem_of_singleton in Hin as ->.
           split; [lia|]. exists w. by rewrite Hcl.
      * intros a b ga gb [Ha|(-> & Hca & _)]%Happ [Hb|(-> & Hcb & _)]%Happ Heq.
        -- by eapply Hdistinct.
        -- destruct (Hnone ga); [by eapply list_elem_of_lookup_2|].
           apply strcmp_zero_iff; [by eauto|done|congruence].
        -- destruct (Hnone gb); [by eapply list_elem_of_lookup_2|].
           apply strcmp_zero_iff; [by eauto|done|congruence].
        -- done.
      * intros a g [Hg|(-> & _ & Hidx)]%Happ; [by eauto|].
        rewrite Hidx. apply NoDup_singleton.
      * intros a g [Hg|(-> & _ & Hidx)]%Happ; [by eauto|]. by rewrite Hidx.
      * intros a g [Hg|(-> & Hcl & _)]%Happ; [by eauto|]. by rewrite Hcl.
    + split; [|done..].
      intros a g idx Hg Hin. destruct (Hclass a g idx Hg Hin) as [? ?].
      split; [lia|done].
Qed.

Lemma group_windows_from_inv rest : ∀ pre apps,
  windows = pre ++ rest →
  groups_inv windows (length pre) apps →
  groups_inv windows (length windows) (group_windows_from (length pre) rest apps).
Proof.
  induction rest as [|w rest IH]; intros pre apps Hw Hinv; simpl.
  - assert (length windows = length pre) as -> by (by rewrite Hw, app_nil_r).
    done.
  - specialize (IH (pre ++ [w]) (group_window apps (length pre) w)).
    rewrite length_app, Nat.add_1_r in IH. apply IH.
    + by rewrite <-app_assoc.
    + apply group_window_inv; [|done].
      rewrite Hw. by rewrite list_lookup_middle.
Qed.

(** The groups that [compute_prefixes] works with. *)
Lemma group_windows_inv : groups_inv windows (length windows) (group_windows windows).
Proof. apply (group_windows_from_inv windows []); [done|apply groups_inv_nil]. Qed.

(** A window is in one group at most. *)
Lemma groups_disjoint n apps a b ga gb idx :
  groups_inv windows n apps →
  apps !! a = Some ga → apps !! b = Some gb →
  idx ∈ window_indices ga → idx ∈ window_indices gb → a = b.
Proof.
  intros Hinv Ha Hb Hia Hib.
  destruct (gi_class _ _ _ Hinv a ga idx Ha Hia) as (_ & w & Hw & Hca).
  destruct (gi_class _ _ _ Hinv b gb idx Hb Hib) as (_ & w' & Hw' & Hcb).
  eapply (gi_distinct _ _ _ Hinv); [done..|]. congruence.
Qed.
End grouping.

(** ** The assignment loop of [compute_prefixes] *)

Section assignment.
Import Atsw Spec.

Lemma assign_numbered_spec app_class prefix_len indices : ∀ w0 ws,
  NoDup indices →
  length (assign_numbered app_class prefix_len w0 indices ws) = length ws ∧
  (∀ k idx, indices !! k = Some idx →
     assign_numbered app_class prefix_len w0 indices ws !! idx =
     set_prefix (numbered_prefix app_class prefix_len (w0 + k)) <$> ws !! idx) ∧
  (∀ j, j ∉ indices →
     assign_numbered app_class prefix_len w0 indices ws !! j = ws !! j).
Proof.
  induction indices as [|idx0 rest IH]; intros w0 ws Hnd; simpl.
  - split_and!; [done| |done]. intros k idx Hk. by rewrite lookup_nil in Hk.
  - apply NoDup_cons in Hnd as [Hfresh Hnd].
    destruct (IH (S w0)
                (alter (set_prefix (numbered_prefix app_class prefix_len w0)) idx0 ws) Hnd)
      as (Hlen & Hin & Hout).
    split_and!.
    + by rewrite Hlen, length_alter.
    + intros [|k] idx Hk; simpl in Hk.
      * injection Hk as <-. rewrite Hout by done.
        by rewrite list_lookup_alter_eq, Nat.add_0_r.
      * rewrite (Hin k idx Hk).
        rewrite list_lookup_alter_ne.
        -- by replace (S w0 + k)%nat with (w0 + S k)%nat by lia.
        -- intros ->. apply Hfresh. by eapply list_elem_of_lookup_2.
    + intros j [Hj0 Hj]%not_elem_of_cons.
      rewrite Hout by done. by rewrite list_lookup_alter_ne.
Qed.

(** What the body of the loop does for one group. *)
Lemma assign_group_spec apps a g ws ws' :
  assign_group apps a g ws = Some ws' →
  NoDup (window_indices g) →
  length ws' = length ws ∧
  (∀ k idx, window_indices g !! k = Some idx →
     ws' !! idx = set_prefix (sequence_of apps a g k) <$> ws !! idx) ∧
  (∀ j, j ∉ window_indices g → ws' !! j = ws !! j) ∧
  (count g = 1%nat →
   (find_prefix_len apps a (class_lower g) < MAX_PREFIX_LEN)%nat).
Proof.
  unfold assign_group, sequence_of, count. intros Hassign Hnd.
  destruct (decide (length (window_indices g) = 1%nat)) as [H1|H1].
  - destruct (window_indices g) as [|idx [|? ?]] eqn:Hidx; [done| |done].
    destruct (decide _) as [Hfit|]; [|done]. injection Hassign as <-.
    split_and!; [by rewrite length_alter| | |done].
    + intros [|k] idx' Hk; [|done]. injection Hk as <-.
      by rewrite list_lookup_alter_eq.
    + intros j [Hj _]%not_elem_of_cons. by rewrite list_lookup_alter_ne by auto.
  - injection Hassign as <-.
    destruct (assign_numbered_spec (class_lower g)
                (find_prefix_len apps a (class_lower g)) (window_indices g) 0%nat ws Hnd)
      as (Hlen & Hin & Hout).
    split_and!; [done|done|done|]. intros. lia.
Qed.

(** What the loop does from group [a0] on, when no window is in two of the
    groups. *)
Lemma assign_from_spec apps todo : ∀ a0 ws ws',
  assign_from apps a0 todo ws = Some ws' →
  (∀ t g, todo !! t = Some g → NoDup (window_indices g)) →
  (∀ t1 t2 g1 g2 idx, todo !! t1 = Some g1 → todo !! t2 = Some g2 →
     idx ∈ window_indices g1 → idx ∈ window_indices g2 → t1 = t2) →
  length ws' = length ws ∧
  (∀ t g k idx, todo !! t = Some g → window_indices g !! k = Some idx →
     ws' !! idx = set_prefix (sequence_of apps (a0 + t) g k) <$> ws !! idx) ∧
  (∀ j, (∀ g, g ∈ todo → j ∉ window_indices g) → ws' !! j = ws !! j) ∧
  (∀ t g, todo !! t = Some g → count g = 1%nat →
     (find_prefix_len apps (a0 + t) (class_lower g) < MAX_PREFIX_LEN)%nat).
Proof.
  induction todo as [|g0 rest IH]; intros a0 ws ws' Hassign Hnd Hdisj; simpl in Hassign.
  - injection Hassign as <-. split_and!; [done| |done|]; intros; simplify_list_eq.
  - destruct (assign_group apps a0 g0 ws) as [ws1|] eqn:Hg0; [|done].
    destruct (assign_group_spec _ _ _ _ _ Hg0 (Hnd 0%nat g0 eq_refl))
      as (Hlen0 & Hin0 & Hout0 & Hfit0).
    destruct (IH (S a0) ws1 ws' Hassign) as (Hlen & Hin & Hout & Hfit).
    { intros t g Ht. by apply (Hnd (S t)). }
    { intros t1 t2 g1 g2 idx Ht1 Ht2 H1 H2.
      by injection (Hdisj (S t1) (S t2) g1 g2 idx Ht1 Ht2 H1 H2). }
    split_and!.
    + by rewrite Hlen.
    + intros [|t] g k idx Ht Hk; simpl in Ht.
      * injection Ht as <-. rewrite Nat.add_0_r. rewrite Hout; [by apply Hin0|].
        intros g [t Ht]%list_elem_of_lookup_1 Hidx.
        by specialize (Hdisj 0%nat (S t) g0 g idx eq_refl Ht
                         (list_elem_of_lookup_2 _ _ _ Hk) Hidx).
      * replace (a0 + S t)%nat with (S a0 + t)%nat by lia.
        rewrite (Hin t g k idx Ht Hk). rewrite Hout0; [done|].
        intros Hidx.
        by specialize (Hdisj 0%nat (S t) g0 g idx eq_refl Ht Hidx
                         (list_elem_of_lookup_2 _ _ _ Hk)).
    + intros j Hj. rewrite Hout.
      * apply Hout0, Hj. left.
      * intros g Hg. apply Hj. by right.
    + intros [|t] g Ht Hc; simpl in Ht.
      * injection Ht as <-. rewrite Nat.add_0_r. by apply Hfit0.
      * replace (a0 + S t)%nat with (S a0 + t)%nat by lia. by eapply Hfit.
Qed.

Variable windows : list WindowInfo.
Hypothesis windows_lowered :
  ∀ w, w ∈ windows →
    lowered (wm_class_lower w) ∧ (length (wm_class_lower w) ≤ MAX_CLASS_LEN)%nat.

(** The sequences in the computed table: the [k]-th window of group [a]
    holds [sequence_of] that place, and is otherwise as it was. *)
Lemma compute_prefixes_lookup windows' a g k idx :
  compute_prefixes windows = Some windows' →
  group_windows windows !! a = Some g →
  window_indices g !! k = Some idx →
  ∃ w, windows !! idx = Some w ∧
       wm_class_lower w = class_lower g ∧
       windows' !! idx = Some (set_prefix (sequence_of (group_windows windows) a g k) w) ∧
       (count g = 1%nat →
        (find_prefix_len (group_windows windows) a (class_lower g) < MAX_PREFIX_LEN)%nat).
Proof.
  intros Hc Hg Hk. unfold compute_prefixes in Hc.
  pose proof (group_windows_inv windows windows_lowered) as Hinv.
  destruct (assign_from_spec _ _ _ _ _ Hc) as (Hlen & Hin & Hout & Hfit).
  { intros t g' Ht. by eapply (gi_nodup _ _ _ Hinv). }
  { intros t1 t2 g1 g2 idx'. by eapply groups_disjoint. }
  destruct (gi_class _ _ _ Hinv a g idx Hg (list_elem_of_lookup_2 _ _ _ Hk))
    as (_ & w & Hw & Hcl).
  exists w. split_and!; [done|done| |by apply (Hfit a g)].
  by rewrite (Hin a g k idx Hg Hk), Hw.
Qed.
End assignment.

(** ** The search for the shortest unique prefix *)

Section prefix_search.
Import Atsw Spec.
Variable apps : list AppGroup.
Variable a : nat.
Variable app_class : cstring.

Lemma is_unique_from_true others : ∀ other prefix_len,
  is_unique_from other others a app_class prefix_len = true ↔
  ∀ t g, others !! t = Some g → (other + t)%nat ≠ a →
    strncasecmp app_class (class_lower g) prefix_len ≠ 0.
Proof.
  induction others as [|g0 rest IH]; intros other prefix_len; simpl.
  - split; [|done]. intros _ t g Ht. by rewrite lookup_nil in Ht.
  - destruct (decide (other = a)) as [->|Hne].
    + rewrite IH. split.
      * intros H [|t] g Ht Hta; simpl in Ht; [lia|].
        apply (H t g Ht). lia.
      * intros H t g Ht Hta. apply (H (S t) g Ht). lia.
    + destruct (decide _) as [Hz|Hnz].
      * split; [done|]. intros H. destruct (H 0%nat g0 eq_refl); [lia|done].
      * rewrite IH. split.
        -- intros H [|t] g Ht Hta; simpl in Ht; [by injection Ht as <-|].
           apply (H t g Ht). lia.
        -- intros H t g Ht Hta. apply (H (S t) g Ht). lia.
Qed.



Lemma is_unique_true prefix_len :
  is_unique apps a app_class prefix_len = true ↔
  ∀ b g, apps !! b = Some g → b ≠ a →
    strncasecmp app_class (class_lower g) prefix_len ≠ 0.
Proof. unfold is_unique. by rewrite is_unique_from_true. Qed.

Lemma search_prefix_len_spec remaining : ∀ start,
  (start ≤ search_prefix_len apps a app_class remaining start ≤ start + remaining)%nat ∧
  ((search_prefix_len apps a app_class remaining start < start + remaining)%nat →
   is_unique apps a app_class (search_prefix_len apps a app_class remaining start) = true) ∧
  (∀ m, (start ≤ m < search_prefix_len apps a app_class remaining start)%nat →
   is_unique apps a app_class m = false).
Proof.
  induction remaining as [|r IH]; intros start; simpl.
  - split_and!; [lia|lia|lia|intros; lia].
  - destruct (is_unique apps a app_class start) eqn:Hu.
    + split_and!; [lia|lia|done|intros; lia].
    + destruct (IH (S start)) as (Hrange & Hfound & Hbefore).
      split_and!; [lia|lia|intros; apply Hfound; lia|].
      intros m Hm. destruct (decide (m = start)) as [->|]; [done|].
      apply Hbefore. lia.
Qed.

(** The value of [prefix_len] after the loop: the least length from 1 to
    the length of the class that no other group shares, and one more than
    the length of the class when there is none. *)
Lemma find_prefix_len_spec :
  (1 ≤ find_prefix_len apps a app_class ≤ S (strlen app_class))%nat ∧
  ((find_prefix_len apps a app_class ≤ strlen app_class)%nat →
   is_unique apps a app_class (find_prefix_len apps a app_class) = true) ∧
  (∀ m, (1 ≤ m < find_prefix_len apps a app_class)%nat →
   is_unique apps a app_class m = false).
Proof.
  unfold find_prefix_len.
  destruct (search_prefix_len_spec (strlen app_class) 1) as (Hrange & Hfound & Hbefore).
  split_and!; [lia|lia|intros; apply Hfound; lia|done].
Qed.
End prefix_search.

Section prefixes_of_lists.
Context {A : Type}.
Implicit Types s p : list A.


Lemma take_eq_take n1 n2 s1 s2 :
  (n1 ≤ length s1)%nat → take n1 s1 = take n2 s2 → take n1 s2 = take n1 s1.
Proof.
  intros Hn Heq.
  assert (n1 ≤ n2)%nat as Hle.
  { apply (f_equal length) in Heq. rewrite !length_take in Heq. lia. }
  rewrite <-(Nat.min_l n1 n2 Hle) at 1.
  rewrite <-take_take, <-Heq, take_take. f_equal. lia.
Qed.

End prefixes_of_lists.

(** ** The window table of atsw.c *)

Section discovery.
Import Atsw Spec.

Lemma get_wm_class_ok win cls :
  get_wm_class win MAX_CLASS_LEN = Some cls →
  cls ≠ [] ∧ (NUL ∉ cls) ∧ (length cls < MAX_CLASS_LEN)%nat.
Proof.
  unfold get_wm_class. destruct (x_wm_class win) as [prop|]; [|done].
  cbv zeta.
  set (buf := if decide (_ < length prop)%nat then _ else _).
  assert ((NUL ∉ buf) ∧ (length buf < MAX_CLASS_LEN)%nat) as [Hn Hl].
  { subst buf. unfold strncpy_str, MAX_CLASS_LEN.
    destruct (decide _); (split; [|rewrite length_take; lia]);
      intros Hin%subseteq_take; by apply cstr_no_NUL in Hin. }
  clearbody buf.
  destruct (decide (0 < strlen buf)%nat) as [Hpos|]; [|done]. intros [= <-].
  split_and!; [|done|done]. intros Hb. rewrite Hb in Hpos. simpl in Hpos. lia.
Qed.

Lemma discover_loop_wf client_list : ∀ windows,
  wf_windows windows → wf_windows (discover_loop client_list windows).
Proof.
  induction client_list as [|win rest IH]; intros windows [Hall Hlen];
    cbn [discover_loop]; [done|].
  destruct (decide _) as [Hroom|]; [|done].
  destruct (get_wm_class win MAX_CLASS_LEN) as [cls|] eqn:Hcls; [|by apply IH].
  apply get_wm_class_ok in Hcls as (Hne & Hnul & Hl).
  apply IH. split.
  - apply Forall_app. split; [done|]. apply Forall_singleton.
    unfold wf_window. cbn [wm_class wm_class_lower prefix].
    split_and!; [done|done|done| |done].
    unfold strncpy_str. rewrite take_ge; [done|lia].
  - rewrite length_app. simpl. lia.
Qed.

(** Every entry of the table that [discover_windows] builds is well
    formed, and there are at most [MAX_WINDOWS] of them. *)
Lemma discover_windows_wf client_list : wf_windows (discover_windows client_list).
Proof.
  assert (wf_windows []) as Hnil by (split; [done|simpl; lia]).
  destruct client_list as [l|]; simpl; [|done].
  by apply discover_loop_wf.
Qed.

Lemma wf_windows_lowered windows :
  wf_windows windows →
  ∀ w, w ∈ windows →
    lowered (wm_class_lower w) ∧ (length (wm_class_lower w) ≤ MAX_CLASS_LEN)%nat.
Proof.
  intros [Hall _] w Hw.
  destruct (proj1 (Forall_forall _ _) Hall w Hw) as (_ & Hnul & Hlen & Hlow & _).
  rewrite Hlow. split; [by apply lowered_fmap_tolower|].
  rewrite length_fmap. lia.
Qed.
End discovery.

(** ** The prefix index *)

Section index.
Import Atsw Spec.
Variable windows : list WindowInfo.
Hypothesis windows_wf : wf_windows windows.

Let apps := group_windows windows.

Lemma apps_inv : groups_inv windows (length windows) apps.
Proof using windows_wf. by apply group_windows_inv, wf_windows_lowered. Qed.

Lemma group_class_nonempty a g : apps !! a = Some g → class_lower g ≠ [].
Proof using windows_wf.
  intros Hg. pose proof apps_inv as Hinv.
  destruct (window_indices g) as [|idx rest] eqn:Hidx;
    [by destruct (gi_nonempty _ _ _ Hinv a g Hg)|].
  destruct (gi_class _ _ _ Hinv a g idx Hg) as (_ & w & Hw & Hcl);
    [rewrite Hidx; left|].
  destruct windows_wf as [Hall _].
  destruct (proj1 (Forall_forall _ _) Hall w (list_elem_of_lookup_2 _ _ _ Hw))
    as (Hne & _ & _ & Hlow & _).
  rewrite <-Hcl, Hlow. by destruct (wm_class w).
Qed.

(** A prefix length is unique for a group when no other group has the same
    first bytes. *)
Lemma is_unique_take a ga prefix_len :
  apps !! a = Some ga →
  is_unique apps a (class_lower ga) prefix_len = true ↔
  ∀ b gb, apps !! b = Some gb → b ≠ a →
    take prefix_len (class_lower ga) ≠ take prefix_len (class_lower gb).
Proof using windows_wf.
  intros Ha. pose proof apps_inv as Hinv. rewrite is_unique_true.
  split; intros H b gb Hb Hne; specialize (H b gb Hb Hne);
    by rewrite strncasecmp_zero_iff in * by (by eapply (gi_lowered _ _ _ Hinv)).
Qed.


(** The shortest unique prefixes of two groups differ, and so do the whole
    classes of two groups that have none. *)
Lemma group_prefixes_differ a b ga gb :
  apps !! a = Some ga →
  apps !! b = Some gb →
  a ≠ b →
  take (find_prefix_len apps a (class_lower ga)) (class_lower ga) ≠
  take (find_prefix_len apps b (class_lower gb)) (class_lower gb).
Proof using windows_wf.
  intros Ha Hb Hab. pose proof apps_inv as Hinv.
  assert (class_lower ga ≠ class_lower gb) as Hcl.
  { intros Heq. apply Hab. by eapply (gi_distinct _ _ _ Hinv). }
  destruct (find_prefix_len_spec apps a (class_lower ga)) as (Hra & Hfa & _).
  destruct (find_prefix_len_spec apps b (class_lower gb)) as (Hrb & Hfb & _).
  set (La := find_prefix_len apps a (class_lower ga)) in *.
  set (Lb := find_prefix_len apps b (class_lower gb)) in *.
  intros Heq.
  destruct (decide (La ≤ strlen (class_lower ga))%nat) as [Hla|Hla].
  { specialize (Hfa Hla). rewrite (is_unique_take a ga) in Hfa by done.
    apply (Hfa b gb Hb); [done|]. symmetry. by eapply take_eq_take. }
  destruct (decide (Lb ≤ strlen (class_lower gb))%nat) as [Hlb|Hlb].
  { specialize (Hfb Hlb). rewrite (is_unique_take b gb) in Hfb by done.
    apply (Hfb a ga Ha); [done|]. symmetry. by eapply take_eq_take. }
  apply Hcl. unfold strlen in *. by rewrite !take_ge in Heq by lia.
Qed.

(** C3, as amended: the assignment is injective across the groups of a
    single window that the group table holds, and the table holds 128 groups
    at most. In a table computed without writing outside a prefix field, two
    groups of a single window each, which have, being two groups, distinct
    lower-case class names, hold different prefixes. *)
Theorem minimal_prefix_injective windows' a b ga gb i j :
  compute_prefixes windows = Some windows' →
  group_windows windows !! a = Some ga →
  group_windows windows !! b = Some gb →
  a ≠ b →
  window_indices ga = [i] →
  window_indices gb = [j] →
  ∃ wi wj, windows' !! i = Some wi ∧ windows' !! j = Some wj ∧
           wm_class_lower wi ≠ wm_class_lower wj ∧
           prefix wi ≠ prefix wj.
Proof using windows_wf.
  intros Hc Ha Hb Hab Hi Hj. pose proof apps_inv as Hinv.
  pose proof (wf_windows_lowered _ windows_wf) as Hlow.
  destruct (compute_prefixes_lookup windows Hlow windows' a ga 0%nat i Hc Ha)
    as (wi & Hwi & Hcli & Hwi' & _); [by rewrite Hi|].
  destruct (compute_prefixes_lookup windows Hlow windows' b gb 0%nat j Hc Hb)
    as (wj & Hwj & Hclj & Hwj' & _); [by rewrite Hj|].
  assert (class_lower ga ≠ class_lower gb) as Hcl.
  { intros Heq. apply Hab. by eapply (gi_distinct _ _ _ Hinv). }
  eexists _, _. split_and!; [done|done|simpl; congruence|]. simpl.
  unfold sequence_of, count. rewrite Hi, Hj. simpl.
  by apply group_prefixes_differ.
Qed.
End index.

Section index_sequences.
Import Atsw Spec.
Variable windows : list WindowInfo.
Hypothesis windows_wf : wf_windows windows.


End index_sequences.

(** ** The matcher on an index of one entry *)

Section single_entry.
Import Atsw Spec.

Lemma compute_prefixes_single w :
  wf_window w →
  ∃ x, head (wm_class w) = Some x ∧
       compute_prefixes [w] = Some [set_prefix [tolower x] w].
Proof.
  intros (Hne & Hnul & Hlen & Hlow & _).
  destruct (wm_class w) as [|x rest] eqn:Hcls; [done|]. exists x. split; [done|].
  unfold compute_prefixes, group_windows. cbn [group_windows_from].
  assert (group_window [] 0 w =
          [ {| class_lower := strncpy_str (wm_class_lower w) MAX_CLASS_LEN;
               window_indices := [0%nat] |} ]) as -> by reflexivity.
  cbn [assign_from]. unfold assign_group.
  cbn [count window_indices class_lower length].
  rewrite decide_True by done.
  assert (strncpy_str (wm_class_lower w) MAX_CLASS_LEN = tolower x :: (tolower <$> rest))
    as ->.
  { unfold strncpy_str. rewrite take_ge, Hlow; [done|].
    rewrite Hlow, length_fmap. simpl in *. lia. }
  assert (find_prefix_len
            [ {| class_lower := tolower x :: (tolower <$> rest); window_indices := [0%nat] |} ]
            0 (tolower x :: (tolower <$> rest)) = 1%nat) as ->.
  { unfold find_prefix_len. cbn [strlen length search_prefix_len].
    unfold is_unique. cbn [is_unique_from]. by rewrite decide_True. }
  by rewrite decide_True by (unfold MAX_PREFIX_LEN; lia).
Qed.

(** C4, as amended: in an index of one entry the prefix is the first byte
    of the class in lower case. From the empty buffer, a key press that gives
    one byte of text ends the run with code 1 and no activation when the key
    is Escape, and changes nothing when the key is BackSpace, Return or
    keypad Enter. For any other key it resolves to the entry, activates its
    window and exits with code 0 exactly when the byte is that first byte up
    to case; any other byte is stored in the buffer, nothing is activated
    and the loop goes on. *)
Theorem single_entry_key_resolution w desktop_of keysym c :
  wf_window w →
  ∃ x, head (wm_class w) = Some x ∧
    compute_prefixes [w] = Some [set_prefix [tolower x] w] ∧
    step [set_prefix [tolower x] w] desktop_of [] (KeyPress keysym [c]) =
      if decide (keysym = XK_Escape) then Exit 1 [XUngrabKeyboard; XCloseDisplay]
      else if decide (keysym = XK_BackSpace ∨ keysym = XK_Return ∨ keysym = XK_KP_Enter)
      then Continue []
      else if decide (tolower c = tolower x) then
        Exit 0
          (match desktop_of (id w) with
           | Some desktop => [SwitchDesktop desktop; Usleep 50000]
           | None => []
           end ++
           [SendActiveWindow (id w); XMapRaised (id w); XRaiseWindow (id w);
            XSetInputFocus (id w)] ++
           [XUngrabKeyboard; XCloseDisplay])
      else Continue [tolower c].
Proof.
  intros Hwf.
  destruct (compute_prefixes_single w Hwf) as (x & Hx & Hc).
  exists x. split_and!; [done|done|].
  assert (x ≠ NUL) as Hxn.
  { destruct Hwf as (_ & Hnul & _). intros ->. apply Hnul.
    destruct (wm_class w); simplify_eq/=. left. }
  unfold step.
  destruct (decide (keysym = XK_Escape)) as [|Hesc]; [done|].
  destruct (decide (keysym = XK_BackSpace)) as [|Hbs].
  { by rewrite (decide_True (P := keysym = XK_BackSpace ∨ _)) by (by left). }
  destruct (decide (keysym = XK_Return ∨ keysym = XK_KP_Enter)) as [Hret|Hret].
  { rewrite (decide_True (P := keysym = XK_BackSpace ∨ _)) by tauto.
    by rewrite decide_False by (simpl; lia). }
  rewrite (decide_False (P := keysym = XK_BackSpace ∨ _)) by tauto.
  rewrite decide_True by (unfold MAX_BUFFER_LEN; simpl; lia).
  unfold append_keys, find_match. cbn [length app take fmap list_fmap cstr].
  unfold MAX_BUFFER_LEN. cbn [Nat.sub take].
  assert (cstr [tolower c] = if decide (tolower c = NUL) then [] else [tolower c])
    as -> by reflexivity.
  destruct (decide (tolower c = NUL)) as [Hcn|Hcn].
  { rewrite decide_False by lia. rewrite decide_False; [done|].
    rewrite Hcn. intros Heq. symmetry in Heq. by apply tolower_NUL in Heq. }
  cbn [scan_matches strlen length strncasecmp prefix set_prefix].
  rewrite !tolower_idemp.
  destruct (decide (tolower x = tolower c)) as [Heq|Hneq].
  - rewrite (decide_True (P := tolower c = tolower x)) by done.
    repeat (rewrite decide_True by (done || (simpl; lia))).
    unfold activate_window. rewrite decide_False by (simpl; lia).
    change ([set_prefix [tolower x] w] !! Z.to_nat (Z.of_nat 0))
      with (Some (set_prefix [tolower x] w)).
    cbn [id set_prefix]. by destruct (desktop_of (id w)).
  - rewrite (decide_False (P := tolower c = tolower x)) by done.
    rewrite decide_False.
    + by rewrite decide_False by lia.
    + intros Hz. apply Hneq. apply code_inj. lia.
Qed.
End single_entry.

(** ** When the computation of the index stays inside the prefix fields *)

Section definedness.
Import Atsw Spec.

Lemma assign_from_defined apps todo : ∀ a0 ws,
  (∀ t g, todo !! t = Some g → count g = 1%nat →
     (find_prefix_len apps (a0 + t) (class_lower g) < MAX_PREFIX_LEN)%nat) →
  is_Some (assign_from apps a0 todo ws).
Proof.
  induction todo as [|g rest IH]; intros a0 ws Hfit; simpl; [by eauto|].
  assert (is_Some (assign_group apps a0 g ws)) as [ws1 ->].
  { unfold assign_group. destruct (decide _) as [H1|]; [|by eauto].
    destruct (window_indices g); [by eauto|].
    rewrite decide_True; [by eauto|].
    specialize (Hfit 0%nat g eq_refl H1). by rewrite Nat.add_0_r in Hfit. }
  apply IH. intros t g' Ht H1.
  replace (S a0 + t)%nat with (a0 + S t)%nat by lia. by apply Hfit.
Qed.

(** With classes of at most 30 bytes every prefix fits its field. *)
Lemma compute_prefixes_defined windows :
  wf_windows windows →
  (∀ w, w ∈ windows → (length (wm_class w) < MAX_PREFIX_LEN - 1)%nat) →
  is_Some (compute_prefixes windows).
Proof.
  intros Hwf Hshort. unfold compute_prefixes.
  pose proof (apps_inv windows Hwf) as Hinv.
  apply assign_from_defined. intros t g Hg _. simpl.
  destruct (find_prefix_len_spec (group_windows windows) t (class_lower g))
    as ([_ Hle] & _).
  destruct (window_indices g) as [|idx rest] eqn:Hidx;
    [by destruct (gi_nonempty _ _ _ Hinv t g Hg)|].
  destruct (gi_class _ _ _ Hinv t g idx Hg) as (_ & w & Hw & Hcl);
    [rewrite Hidx; left|].
  apply list_elem_of_lookup_2 in Hw.
  specialize (Hshort w Hw).
  destruct Hwf as [Hall _].
  destruct (proj1 (Forall_forall _ _) Hall w Hw) as (_ & _ & _ & Hlow & _).
  unfold strlen in Hle. rewrite <-Hcl, Hlow, length_fmap in Hle.
  unfold MAX_PREFIX_LEN in *. rewrite <-Hcl, Hlow. lia.
Qed.
End definedness.

(** ** The index and the matcher at concrete inputs *)

Section scenarios.
Import Atsw Examples.

Example prefixes_three_apps :
  index_of three_apps = Some three_apps_index ∧
  prefixes_of three_apps = Some ["z"; "d"; "o"]%string.
Proof. by vm_compute. Qed.

Example prefixes_with_dolphins :
  index_of with_dolphins = Some with_dolphins_index ∧
  prefixes_of with_dolphins = Some ["z"; "di"; "o"; "do1"; "do2"]%string.
Proof. by vm_compute. Qed.

(** Typing d leaves two candidates, o keeps them, 2 resolves to the second
    dolphin window. *)
Example typing_do2 :
  candidates with_dolphins_index (lit "d") = [1; 3; 4]%nat ∧
  candidates with_dolphins_index (lit "do") = [3; 4]%nat ∧
  find_match with_dolphins_index (lit "do") = (-2, 2%nat) ∧
  find_match with_dolphins_index (lit "do2") = (4, 1%nat) ∧
  main (atsw_env with_dolphins
          [KeyPress XK_z (lit "d"); KeyPress XK_z (lit "o"); KeyPress XK_z (lit "2")]) =
    (Exited 0,
     [XGrabKeyboard; SendActiveWindow 104; XMapRaised 104; XRaiseWindow 104;
      XSetInputFocus 104; XUngrabKeyboard; XCloseDisplay]).
Proof. by vm_compute. Qed.
End scenarios.



(** The assignment for a single window has no such bound: with one window
    of each of these classes, the prefix of the first is written past the
    end of its field. *)
Example long_single_class_out_of_bounds :
  Atsw.group_windows (Examples.table_of Examples.long_singles) =
    [ {| Atsw.class_lower := Examples.a31; Atsw.window_indices := [0%nat] |};
      {| Atsw.class_lower := Examples.a32; Atsw.window_indices := [1%nat] |} ] ∧
  Examples.index_of Examples.long_singles = None ∧
  (Atsw.main (Examples.atsw_env Examples.long_singles [])).1 = OutOfBounds.
Proof. split_and!; by vm_compute. Qed.

(** C3, as stated, fails past the 128 groups of the table. Of 130 windows
    of 130 distinct classes, the first 128 are one group each; the last two
    are in no group, and both keep the empty prefix. *)
Lemma applications_past_group_table_share_prefix :
  Spec.wf_windows (Examples.table_of Examples.many_apps) ∧
  length (Examples.table_of Examples.many_apps) = 130%nat ∧
  NoDup (Atsw.wm_class_lower <$> Examples.table_of Examples.many_apps) ∧
  length (Atsw.group_windows (Examples.table_of Examples.many_apps)) = 128%nat ∧
  Forall (λ g, Atsw.count g = 1%nat)
    (Atsw.group_windows (Examples.table_of Examples.many_apps)) ∧
  Examples.index_of Examples.many_apps = Some Examples.many_apps_index ∧
  (Atsw.wm_class_lower <$> Examples.many_apps_index !! 128%nat) =
    Some (Examples.lit "app228") ∧
  (Atsw.wm_class_lower <$> Examples.many_apps_index !! 129%nat) =
    Some (Examples.lit "app229") ∧
  (Atsw.prefix <$> Examples.many_apps_index !! 128%nat) = Some [] ∧
  (Atsw.prefix <$> Examples.many_apps_index !! 129%nat) = Some [].
Proof.
  split_and!; try (apply (bool_decide_unpack _); by vm_compute); by vm_compute.
Qed.

(** C4, as stated, fails: with the single window of class Zen the prefix is
    z, and the key x from the empty buffer is stored and resolves nothing:
    the run activates no window and waits for the next event. Nor do the
    keys that the loop takes for commands resolve to the window: Escape ends
    the run with code 1, and BackSpace, Return and keypad Enter leave the
    empty buffer as it is. *)
Lemma single_entry_other_key_unresolved :
  Examples.index_of Examples.one_zen = Some Examples.one_zen_index ∧
  Examples.prefixes_of Examples.one_zen = Some ["z"]%string ∧
  Atsw.step Examples.one_zen_index (λ _, None) []
    (KeyPress Examples.XK_x (Examples.lit "x")) = Atsw.Continue (Examples.lit "x") ∧
  Atsw.find_match Examples.one_zen_index (Examples.lit "x") = (-1, 0%nat) ∧
  Atsw.main (Examples.atsw_env Examples.one_zen
               [KeyPress Examples.XK_x (Examples.lit "x")]) = (Waiting, [XGrabKeyboard]) ∧
  Atsw.step Examples.one_zen_index (λ _, None) [] (KeyPress XK_Escape [ascii_of_nat 27]) =
    Atsw.Exit 1 [XUngrabKeyboard; XCloseDisplay] ∧
  Atsw.step Examples.one_zen_index (λ _, None) [] (KeyPress XK_BackSpace [ascii_of_nat 8]) =
    Atsw.Continue [] ∧
  Atsw.step Examples.one_zen_index (λ _, None) [] (KeyPress XK_Return [ascii_of_nat 13]) =
    Atsw.Continue [] ∧
  Atsw.step Examples.one_zen_index (λ _, None) [] (KeyPress XK_KP_Enter [ascii_of_nat 13]) =
    Atsw.Continue [].
Proof. split_and!; by vm_compute. Qed.

(** ** Windows of distinct classes *)

Section distinct_classes.
Import Atsw Spec.
Variable windows : list WindowInfo.
Hypothesis windows_wf : wf_windows windows.
Hypothesis classes_distinct : NoDup (wm_class_lower <$> windows).
Hypothesis classes_fit : (length windows ≤ MAX_APPS)%nat.

Lemma group_windows_from_distinct rest : ∀ pre,
  windows = pre ++ rest →
  group_windows_from (length pre) rest (single_groups pre) = single_groups windows.
Proof using windows_wf classes_distinct classes_fit.
  induction rest as [|w rest IH]; intros pre Hw; simpl.
  - by rewrite Hw, app_nil_r.
  - destruct (wf_windows_lowered _ windows_wf w) as [Hwl Hwlen].
    { rewrite Hw. apply elem_of_app. right. left. }
    assert (group_window (single_groups pre) (length pre) w = single_groups (pre ++ [w]))
      as ->.
    { unfold group_window.
      assert (find_app (single_groups pre) (wm_class_lower w) = None) as ->.
      { unfold find_app.
        destruct (list_find _ _) as [[t g]|] eqn:Hf; [|done].
        apply list_find_Some in Hf as (Ht & Hcmp & _).
        unfold single_groups in Ht. rewrite list_lookup_imap in Ht.
        destruct (pre !! t) as [w'|] eqn:Hw'; [|done]. injection Ht as <-. simpl in Hcmp.
        destruct (wf_windows_lowered _ windows_wf w') as [Hwl' _].
        { rewrite Hw. apply elem_of_app. left. by eapply list_elem_of_lookup_2. }
        apply strcmp_zero_iff in Hcmp; [|done..].
        rewrite Hw, fmap_app, fmap_cons in classes_distinct.
        apply NoDup_app in classes_distinct as (_ & Hdisj & _).
        destruct (Hdisj (wm_class_lower w')).
        - apply list_elem_of_fmap. exists w'. split; [done|].
          by eapply list_elem_of_lookup_2.
        - rewrite Hcmp. left. }
      rewrite decide_True.
      - unfold strncpy_str. rewrite take_ge by done.
        unfold single_groups. rewrite imap_app. simpl.
        by rewrite Nat.add_0_r.
      - unfold single_groups. rewrite length_imap.
        rewrite Hw, length_app in classes_fit. simpl in classes_fit. lia. }
    specialize (IH (pre ++ [w])). rewrite length_app, Nat.add_1_r in IH.
    apply IH. by rewrite <-app_assoc.
Qed.

(** Windows of distinct classes, no more than the group table holds, are
    one group each. *)
Lemma group_windows_distinct : group_windows windows = single_groups windows.
Proof using windows_wf classes_distinct classes_fit.
  by apply (group_windows_from_distinct windows []).
Qed.

Lemma compute_prefixes_length windows' :
  compute_prefixes windows = Some windows' → length windows' = length windows.
Proof using windows_wf.
  intros Hc. unfold compute_prefixes in Hc.
  pose proof (apps_inv windows windows_wf) as Hinv.
  destruct (assign_from_spec _ _ _ _ _ Hc) as (Hlen & _); [| |done].
  - intros t g' Ht. by eapply (gi_nodup _ _ _ Hinv).
  - intros t1 t2 g1 g2 idx'. by eapply groups_disjoint.
Qed.

(** For distinct lower-case class names, at most 128 of them, the prefixes
    of the computed table are distinct. *)
Lemma distinct_classes_distinct_prefixes windows' i j wi wj :
  compute_prefixes windows = Some windows' →
  i ≠ j →
  windows' !! i = Some wi →
  windows' !! j = Some wj →
  prefix wi ≠ prefix wj.
Proof using windows_wf classes_distinct classes_fit.
  intros Hc Hij Hi Hj.
  pose proof (compute_prefixes_length windows' Hc) as Hlen.
  pose proof (wf_windows_lowered _ windows_wf) as Hlow.
  destruct (lookup_lt_is_Some_2 windows i) as [w0i Hw0i];
    [rewrite <-Hlen; by eapply lookup_lt_Some|].
  destruct (lookup_lt_is_Some_2 windows j) as [w0j Hw0j];
    [rewrite <-Hlen; by eapply lookup_lt_Some|].
  assert (group_windows windows !! i =
          Some {| class_lower := wm_class_lower w0i; window_indices := [i] |}) as Hgi.
  { rewrite group_windows_distinct. unfold single_groups.
    by rewrite list_lookup_imap, Hw0i. }
  assert (group_windows windows !! j =
          Some {| class_lower := wm_class_lower w0j; window_indices := [j] |}) as Hgj.
  { rewrite group_windows_distinct. unfold single_groups.
    by rewrite list_lookup_imap, Hw0j. }
  destruct (compute_prefixes_lookup windows Hlow windows' i _ 0%nat i Hc Hgi eq_refl)
    as (? & _ & _ & Hi' & _).
  destruct (compute_prefixes_lookup windows Hlow windows' j _ 0%nat j Hc Hgj eq_refl)
    as (? & _ & _ & Hj' & _).
  rewrite Hi in Hi'. rewrite Hj in Hj'.
  injection Hi' as ->. injection Hj' as ->. simpl.
  unfold sequence_of, count. simpl.
  by apply (group_prefixes_differ windows windows_wf i j _ _ Hgi Hgj).
Qed.
End distinct_classes.

(** ** The theorems at concrete inputs *)

Lemma selector_exhausted_exit_2_witness :
  Winleap.main Examples.winleap_args
    (Examples.winleap_env Examples.one_key_file Examples.two_zen) =
  (Exited 2, [Stderr (TooManyWindows 2 1); XCloseDisplay]).
Proof.
  apply (selector_exhausted_exit_2 Examples.winleap_args
           (Examples.winleap_env Examples.one_key_file Examples.two_zen)
           (Examples.lit "1") Examples.one_key_config [] (Examples.lit "zen"));
    [reflexivity | reflexivity | vm_compute; reflexivity | reflexivity | reflexivity
    | vm_compute; lia].
Defined.

Lemma all_windows_filtered_exit_2_witness :
  Winleap.discover_windows (Some [Examples.classless 101]) = [] ∧
  Winleap.main Examples.winleap_args
    (Examples.winleap_env Examples.zen_file [Examples.classless 101]) =
  (Exited 2, [Stderr FailedToDiscoverWindows; XCloseDisplay]).
Proof.
  apply (all_windows_filtered_exit_2 Examples.winleap_args
           (Examples.winleap_env Examples.zen_file [Examples.classless 101])
           (Examples.lit "1") Examples.zen_config [] (Examples.lit "zen")
           [Examples.classless 101]);
    [reflexivity | reflexivity | vm_compute; reflexivity | reflexivity | reflexivity
    | reflexivity |].
  intros c Hc. apply list_elem_of_singleton in Hc. rewrite Hc. reflexivity.
Defined.

(** The line abc=foo between the lines of the marks 1 and 2. *)
Lemma malformed_mark_line_is_skipped_witness :
  Winleap.fgets_all
    (Examples.zen_file ++ Examples.lit "abc=foo" ++ [Spec.line_feed] ++
     Examples.lit "2=discord" ++ [Examples.nl]) [] (Winleap.MAX_LINE_LEN - 1) =
    Winleap.fgets_all Examples.zen_file [] (Winleap.MAX_LINE_LEN - 1) ++
    (Examples.lit "abc=foo" ++ [Spec.line_feed]) ::
    Winleap.fgets_all (Examples.lit "2=discord" ++ [Examples.nl]) []
      (Winleap.MAX_LINE_LEN - 1) ∧
  (∀ config, Winleap.process_line (Examples.lit "abc=foo" ++ [Spec.line_feed]) config =
             Winleap.Next config) ∧
  Winleap.read_config_file
    (Some (Examples.zen_file ++ Examples.lit "abc=foo" ++ [Spec.line_feed] ++
           Examples.lit "2=discord" ++ [Examples.nl])) =
  Winleap.read_config_file
    (Some (Examples.zen_file ++ Examples.lit "2=discord" ++ [Examples.nl])).
Proof.
  apply (malformed_mark_line_is_skipped Examples.zen_file (Examples.lit "abc=foo")
           [Spec.line_feed] (Examples.lit "2=discord" ++ [Examples.nl])).
  - right. reflexivity.
  - apply (bool_decide_unpack _). by vm_compute.
  - vm_compute. lia.
  - left. reflexivity.
  - reflexivity.
Defined.

(** Two discord windows, the first of them active: the target is the second;
    the spec scenario of the cycle. *)
Lemma cycle_next_resolution_witness :
  AtswManual.find_windows_by_class Examples.manual_windows (Examples.lit "discord")
    AtswManual.MAX_WINDOWS = [0; 2]%nat ∧
  ∃ next, [0; 2]%nat !! ((0 + 1) mod length [0; 2]%nat)%nat = Some next ∧
          AtswManual.choose_target Examples.manual_windows [0; 2]%nat 10 = Z.of_nat next.
Proof.
  split; [vm_compute; reflexivity|].
  apply (proj1 (cycle_next_resolution Examples.manual_windows 10 [0; 2]%nat
                  ltac:(discriminate)) 0%nat 0%nat);
    [reflexivity | reflexivity | intros; lia].
Defined.

Lemma minimal_prefix_injective_witness :
  ∃ wi wj, Examples.three_apps_index !! 0%nat = Some wi ∧
           Examples.three_apps_index !! 1%nat = Some wj ∧
           Atsw.wm_class_lower wi ≠ Atsw.wm_class_lower wj ∧
           Atsw.prefix wi ≠ Atsw.prefix wj.
Proof.
  assert (Spec.wf_windows (Examples.table_of Examples.three_apps)) as Hwf
    by (apply (bool_decide_unpack _); vm_compute; exact I).
  eapply (minimal_prefix_injective (Examples.table_of Examples.three_apps) Hwf
            Examples.three_apps_index 0%nat 1%nat _ _ 0%nat 1%nat);
    [vm_compute; reflexivity | vm_compute; reflexivity | vm_compute; reflexivity
    | lia | reflexivity | reflexivity].
Defined.


(** The single window of class Zen has the prefix z, and typing Z resolves
    to it. *)
Lemma single_entry_key_resolution_witness :
  Examples.table_of Examples.one_zen = [Examples.zen_window] ∧
  ∃ x, head (Examples.lit "Zen") = Some x ∧
    Atsw.compute_prefixes [Examples.zen_window] =
      Some [Atsw.set_prefix [tolower x] Examples.zen_window] ∧
    Atsw.step [Atsw.set_prefix [tolower x] Examples.zen_window] (λ _, None) []
      (KeyPress Examples.XK_z [ascii_of_nat 90]) =
    Atsw.Exit 0
      [SendActiveWindow 100; XMapRaised 100; XRaiseWindow 100; XSetInputFocus 100;
       XUngrabKeyboard; XCloseDisplay].
Proof.
  split; [vm_compute; reflexivity|].
  assert (Spec.wf_window Examples.zen_window) as Hwf
    by (apply (bool_decide_unpack _); vm_compute; exact I).
  destruct (single_entry_key_resolution Examples.zen_window
              (λ _, None) Examples.XK_z (ascii_of_nat 90) Hwf) as (x & Hx & Hc & Hs).
  exists x. split; [exact Hx|]. split; [exact Hc|].
  vm_compute in Hx. injection Hx as <-. exact Hs.
Defined.


(** * Further properties of the code *)

(** ** winleap.c: [trim] *)

Section trimming.
Import Winleap.

Lemma skip_leading_spec s :
  ∃ l, s = l ++ skip_leading s ∧ Forall (λ c, isspace c = true) l ∧
       (∀ c, head (skip_leading s) = Some c → isspace c = false).
Proof.
  induction s as [|c rest (l & Hl & Hsp & Hhd)]; simpl.
  - exists []. by split_and!.
  - destruct (isspace c) eqn:Hc.
    + exists (c :: l). split_and!; [by rewrite Hl at 1|by constructor|done].
    + exists []. split_and!; [done|done|]. by intros ? [= <-].
Qed.

Lemma cut_trailing_spec s :
  ∃ r, s = cut_trailing s ++ r ∧ Forall (λ c, isspace c = true) r ∧
       (∀ c, last (cut_trailing s) = Some c → isspace c = false).
Proof.
  induction s as [|c rest (r & Hr & Hsp & Hlast)]; simpl.
  - exists []. by split_and!.
  - destruct (cut_trailing rest) as [|c' rest'] eqn:Hcut.
    + destruct (isspace c) eqn:Hc.
      * exists (c :: r). simpl in Hr. subst r. split_and!; [done|by constructor|done].
      * exists r. simpl in Hr. subst r. split_and!; [done|done|]. by intros ? [= <-].
    + exists r. split_and!; [by rewrite Hr at 1|done|].
      intros x Hx. apply Hlast. by rewrite last_cons_cons in Hx.
Qed.

Lemma cut_trailing_id s :
  (∀ c, last s = Some c → isspace c = false) → cut_trailing s = s.
Proof.
  induction s as [|c rest IH]; [done|]. intros Hlast. simpl.
  destruct rest as [|c' rest'].
  - simpl. by rewrite (Hlast c).
  - rewrite IH; [done|]. intros x Hx. apply Hlast. by rewrite last_cons_cons.
Qed.

(** X1: [trim] returns the part of its argument between the leading and the
    trailing white space: the argument is white space, then the result, then
    white space; the result neither begins nor ends with white space; and
    trimming a second time changes nothing. *)
Theorem trim_spec s :
  (∃ l r, s = l ++ trim s ++ r ∧
          Forall (λ c, isspace c = true) l ∧ Forall (λ c, isspace c = true) r) ∧
  (∀ c, head (trim s) = Some c → isspace c = false) ∧
  (∀ c, last (trim s) = Some c → isspace c = false) ∧
  trim (trim s) = trim s.
Proof.
  destruct (skip_leading_spec s) as (l & Hl & Hsp & Hhd).
  unfold trim at 1 2 3 5 6.
  destruct (skip_leading s) as [|c rest] eqn:Hskip.
  - split_and!; [|done..]. exists l, []. by rewrite app_nil_r in *.
  - destruct (cut_trailing_spec rest) as (r & Hr & Hspr & Hlast).
    assert (isspace c = false) as Hc by by apply Hhd.
    assert (∀ x, last (c :: cut_trailing rest) = Some x → isspace x = false) as Hl'.
    { intros x. destruct (cut_trailing rest) as [|c' rest'] eqn:Hcut.
      - by intros [= <-].
      - rewrite last_cons_cons. apply Hlast. }
    split_and!; [|by intros ? [= <-]|done|].
    + exists l, r. split_and!; [|done..]. rewrite Hl. f_equal. simpl. by rewrite <-Hr.
    + unfold trim. simpl. rewrite Hc. f_equal. apply cut_trailing_id.
      intros x Hx. by apply Hlast.
Qed.
End trimming.

(** ** winleap.c: the selector keys of the configuration *)

Section selector_keys.
Import Winleap Spec.

Lemma selector_key_tolower ch :
  isspace ch = false → isprint ch = true → selector_key (tolower ch).
Proof. destruct ch as [[] [] [] [] [] [] [] []]; by vm_compute. Qed.

Lemma selectors_keys raw : Forall selector_key (selectors raw).
Proof.
  unfold selectors. apply Forall_fmap, Forall_forall.
  intros ch [[Hs Hp] _]%list_elem_of_filter. by apply selector_key_tolower.
Qed.

Lemma selectors_cons ch rest :
  selectors (ch :: rest) =
  if isspace ch then selectors rest
  else if negb (isprint ch) then selectors rest
  else tolower ch :: selectors rest.
Proof.
  unfold selectors. cbn [filter list_filter].
  destruct (decide _) as [[Hs Hp]|Hn].
  - by rewrite Hs, Hp.
  - destruct (isspace ch); [done|]. destruct (isprint ch); [|done].
    by destruct Hn.
Qed.

Lemma seen_insert (seen : ascii → bool) out k0 :
  (∀ k, seen k = true ↔ k ∈ out) →
  ∀ k, (if decide (k = k0) then true else seen k) = true ↔ k ∈ out ++ [k0].
Proof.
  intros Hseen k. rewrite elem_of_app, list_elem_of_singleton.
  destruct (decide (k = k0)) as [->|Hk].
  - split; [by right|done].
  - rewrite Hseen. split; [by left|]. by intros [?|?].
Qed.

Lemma parse_keys_loop_spec raw : ∀ seen out out_size keys,
  (∀ k, seen k = true ↔ k ∈ out) →
  NoDup out →
  parse_keys_loop raw seen out out_size = inr keys ↔
  keys = out ++ selectors raw ∧ NoDup keys ∧ keys ≠ [] ∧
  (selectors raw ≠ [] → (length keys ≤ out_size - 1)%nat).
Proof.
  induction raw as [|ch rest IH]; intros seen out out_size keys Hseen Hnd.
  - cbn [parse_keys_loop]. change (selectors []) with (@nil ascii). rewrite app_nil_r.
    destruct (decide (length out = 0%nat)) as [Hz|Hz].
    + apply length_zero_iff_nil in Hz. subst out. split; [done|]. by intros (-> & _ & ? & _).
    + split.
      * intros [= <-]. split_and!; [done|done| |done]. by intros ->.
      * by intros (-> & _).
  - cbn [parse_keys_loop]. rewrite selectors_cons.
    destruct (isspace ch); [by apply IH|].
    destruct (negb (isprint ch)); [by apply IH|].
    destruct (seen (tolower ch)) eqn:Hs.
    { split; [done|]. intros (-> & Hnd' & _). exfalso.
      apply Hseen in Hs. apply NoDup_app in Hnd' as (_ & Hdis & _).
      apply (Hdis _ Hs). left. }
    assert (tolower ch ∉ out) as Hnew.
    { intros Hin%Hseen. congruence. }
    destruct (decide (out_size - 1 ≤ length out)%nat) as [Hfull|Hroom].
    { split; [done|]. intros (-> & _ & _ & Hlen). exfalso.
      specialize (Hlen ltac:(done)). rewrite length_app in Hlen. simpl in Hlen. lia. }
    rewrite IH.
    + rewrite <-app_assoc. simpl. split.
      * intros (-> & ? & ? & Hlen). split_and!; [done..|]. intros _.
        destruct (selectors rest) as [|k ks] eqn:Hrest; [|by apply Hlen].
        rewrite length_app. simpl. lia.
      * intros (-> & ? & ? & Hlen). split_and!; [done..|]. intros _. by apply Hlen.
    + by apply seen_insert.
    + apply NoDup_app. split_and!; [done| |apply NoDup_singleton].
      intros k Hk ->%list_elem_of_singleton. done.
Qed.

Lemma parse_instance_keys_inr raw_value out_size keys :
  parse_instance_keys raw_value out_size = inr keys →
  keys = selectors raw_value ∧ NoDup keys ∧ keys ≠ [] ∧ (length keys < out_size)%nat.
Proof.
  unfold parse_instance_keys. rewrite parse_keys_loop_spec.
  - simpl. intros (-> & ? & Hne & Hlen). split_and!; [done..|].
    specialize (Hlen Hne). destruct (selectors raw_value); [done|]. simpl in *. lia.
  - intros k. split; [done|]. by intros ?%elem_of_nil.
  - apply NoDup_nil_2.
Qed.

(** X2: [parse_instance_keys] succeeds exactly when the printable bytes of
    the value other than white space, put in lower case, are distinct, at
    least one and fewer than [out_size]; the keys it stores are these bytes,
    in their order. Two bytes that differ only in case make it fail. *)
Theorem parse_instance_keys_spec raw_value out_size keys :
  parse_instance_keys raw_value out_size = inr keys ↔
  keys = selectors raw_value ∧ NoDup keys ∧ keys ≠ [] ∧ (length keys < out_size)%nat.
Proof.
  split; [apply parse_instance_keys_inr|].
  intros (-> & ? & Hne & Hlen). unfold parse_instance_keys. rewrite parse_keys_loop_spec.
  - simpl. split_and!; [done..|]. lia.
  - intros k. split; [done|]. by intros ?%elem_of_nil.
  - apply NoDup_nil_2.
Qed.

Lemma all_selector_keys_complete k : selector_key k → k ∈ all_selector_keys.
Proof.
  intros Hk. apply list_elem_of_filter. split; [done|].
  apply list_elem_of_fmap. exists (nat_of_ascii k). split; [by rewrite ascii_nat_embedding|].
  apply elem_of_seq. pose proof (nat_ascii_bounded k). lia.
Qed.

Lemma selector_keys_count keys :
  NoDup keys → Forall selector_key keys → (length keys ≤ 68)%nat.
Proof.
  intros Hnd Hall.
  change 68%nat with (length all_selector_keys).
  apply submseteq_length, NoDup_submseteq; [done|].
  intros k Hk. apply all_selector_keys_complete.
  by eapply Forall_forall in Hall.
Qed.

Lemma parse_keys_loop_too_long raw : ∀ seen out out_size,
  (∀ k, seen k = true ↔ k ∈ out) →
  NoDup out → Forall selector_key out →
  parse_keys_loop raw seen out out_size = inl InstanceKeysTooLong →
  (out_size - 1 < 68)%nat.
Proof.
  induction raw as [|ch rest IH]; intros seen out out_size Hseen Hnd Hall.
  - cbn [parse_keys_loop]. by destruct (decide _).
  - cbn [parse_keys_loop].
    destruct (isspace ch) eqn:Hsp; [by apply IH|].
    destruct (isprint ch) eqn:Hpr; cbn [negb]; [|by apply IH].
    destruct (seen (tolower ch)) eqn:Hs; [done|].
    assert (tolower ch ∉ out) as Hnew.
    { intros Hin%Hseen. congruence. }
    assert (NoDup (out ++ [tolower ch])) as Hnd'.
    { apply NoDup_app. split_and!; [done| |apply NoDup_singleton].
      intros k Hk ->%list_elem_of_singleton. done. }
    assert (Forall selector_key (out ++ [tolower ch])) as Hall'.
    { apply Forall_app. split; [done|]. apply Forall_singleton.
      by apply selector_key_tolower. }
    destruct (decide (out_size - 1 ≤ length out)%nat) as [Hfull|Hroom].
    + intros _. pose proof (selector_keys_count _ Hnd' Hall') as Hc.
      rewrite length_app in Hc. simpl in Hc. lia.
    + apply IH; [by apply seen_insert|done|done].
Qed.

(** X3: into the 128 bytes of [instance_keys], [parse_instance_keys] never
    reports a value that is too long: the keys it accepts are distinct
    printable bytes in lower case other than white space, and there are 68
    such bytes. *)
Theorem instance_keys_never_too_long raw_value :
  parse_instance_keys raw_value MAX_INSTANCE_KEYS ≠ inl InstanceKeysTooLong ∧
  (∀ keys, parse_instance_keys raw_value MAX_INSTANCE_KEYS = inr keys →
           (length keys ≤ 68)%nat ∧ Forall selector_key keys).
Proof.
  split.
  - intros Hlong. apply parse_keys_loop_too_long in Hlong.
    + unfold MAX_INSTANCE_KEYS in Hlong. lia.
    + intros k. split; [done|]. by intros ?%elem_of_nil.
    + apply NoDup_nil_2.
    + done.
  - intros keys Hkeys.
    apply parse_instance_keys_inr in Hkeys as (-> & Hnd & _).
    split; [|apply selectors_keys].
    apply selector_keys_count; [done|apply selectors_keys].
Qed.
End selector_keys.

(** ** winleap.c: reading the configuration file *)

Section fgets.
Import Winleap Spec.

Lemma fgets_all_spec f : ∀ line room,
  (∀ c, c ∈ line → code c ≠ 10) →
  (length line + room = MAX_LINE_LEN - 1)%nat →
  (1 ≤ room)%nat →
  concat (fgets_all f line room) = line ++ f ∧
  Forall fgets_buffer (fgets_all f line room).
Proof.
  assert (∀ line c, (∀ x, x ∈ line → code x ≠ 10) → (length line < MAX_LINE_LEN - 1)%nat →
            fgets_buffer (line ++ [c])) as Hbuf.
  { intros line c Hnl Hlen. split_and!.
    - by destruct line.
    - rewrite length_app. simpl. lia.
    - intros i x Hi Hx. rewrite length_app. simpl.
      destruct (decide (i < length line)%nat) as [Hlt|Hge].
      + rewrite lookup_app_l in Hi by done.
        exfalso. eapply Hnl; [|done]. by eapply list_elem_of_lookup_2.
      + apply lookup_lt_Some in Hi. rewrite length_app in Hi. simpl in Hi. lia. }
  induction f as [|c rest IH]; intros line room Hnl Hlen Hroom.
  - cbn [fgets_all]. destruct (decide (line = [])) as [->|Hne]; [done|].
    simpl. rewrite !app_nil_r. split; [done|]. apply Forall_singleton.
    split_and!; [done|lia|]. intros i x Hi Hx. exfalso.
    eapply Hnl; [|done]. by eapply list_elem_of_lookup_2.
  - cbn [fgets_all].
    destruct (decide (code c = 10)) as [Hc|Hc]; [|destruct (decide (room ≤ 1)%nat)].
    + destruct (IH [] (MAX_LINE_LEN - 1)%nat) as [Hcat Hall];
        [by intros ? ?%elem_of_nil|done|unfold MAX_LINE_LEN; lia|].
      split.
      * rewrite concat_cons, Hcat. by rewrite <-app_assoc.
      * constructor; [|done]. apply Hbuf; [done|unfold MAX_LINE_LEN in *; lia].
    + destruct (IH [] (MAX_LINE_LEN - 1)%nat) as [Hcat Hall];
        [by intros ? ?%elem_of_nil|done|unfold MAX_LINE_LEN; lia|].
      split.
      * rewrite concat_cons, Hcat. by rewrite <-app_assoc.
      * constructor; [|done]. apply Hbuf; [done|unfold MAX_LINE_LEN in *; lia].
    + destruct (IH (line ++ [c]) (room - 1)%nat) as [Hcat Hall].
      * intros x [Hx| ->%list_elem_of_singleton]%elem_of_app; [by apply Hnl|done].
      * rewrite length_app. unfold MAX_LINE_LEN in *. simpl. lia.
      * lia.
      * split; [|done]. rewrite Hcat. by rewrite <-app_assoc.
Qed.

(** X4: the buffers that the successive calls of [fgets] fill, put end to
    end, are the file; each holds at least one byte and at most 511, and a
    line feed only as its last byte. A line of more than 511 bytes is read in
    pieces. *)
Theorem fgets_all_partition f :
  concat (fgets_all f [] (MAX_LINE_LEN - 1)) = f ∧
  Forall fgets_buffer (fgets_all f [] (MAX_LINE_LEN - 1)).
Proof.
  apply (fgets_all_spec f [] (MAX_LINE_LEN - 1)%nat); [by intros ? ?%elem_of_nil|done|].
  unfold MAX_LINE_LEN. lia.
Qed.
End fgets.

Section config_invariants.
Import Winleap Spec.

Lemma mark_line_ok_bounds key value :
  mark_line_ok key value = true →
  0 < fst (strtol key) ≤ INT_MAX ∧ value ≠ [].
Proof.
  unfold mark_line_ok. destruct (strtol key) as [num consumed]. simpl.
  destruct (decide _) as [|Hn]; [done|].
  destruct (decide (value = [])); [done|]. intros _.
  split; [|done]. lia.
Qed.

(** The five ways in which the loop body ends. *)
Lemma process_line_cases buf config :
  process_line buf config = Next config ∨
  (∃ value keys, parse_instance_keys value MAX_INSTANCE_KEYS = inr keys ∧
     process_line buf config = Next (set_instance_keys keys config)) ∨
  (∃ d, process_line buf config = Next (set_debug d config)) ∨
  (∃ key value, mark_line_ok key value = true ∧
     process_line buf config = Next (add_mark (fst (strtol key)) value config)) ∨
  (∃ m, process_line buf config = Abort m).
Proof.
  unfold process_line.
  destruct (trim _) as [|first p]; [by left|].
  destruct (decide (first = hash_sign)); [by left|].
  destruct (strchr _ _) as [eq|]; [|by left].
  destruct (decide (trim _ = [])); [by left|].
  destruct (decide (strcasecmp _ (lit "instance_keys") = 0)).
  { destruct (parse_instance_keys _ _) as [m|keys] eqn:Hk.
    - do 4 right. by exists m.
    - right. left. by eexists _, keys. }
  destruct (decide (strcasecmp _ (lit "debug") = 0)).
  { destruct (parse_bool _) as [d|].
    - do 2 right. left. by exists d.
    - do 4 right. by eexists. }
  destruct (mark_line_ok _ _) eqn:Hok; [|by left].
  do 3 right. left. by eexists _, _.
Qed.

Lemma process_line_marks buf config config' :
  process_line buf config = Next config' →
  marks config' = marks config ∨
  ∃ m, marks config' = marks config ++ [m] ∧ mark_ok m.
Proof.
  intros Hp.
  destruct (process_line_cases buf config)
    as [H|[(v & keys & _ & H)|[(d & H)|[(key & value & Hok & H)|(m & H)]]]];
    rewrite H in Hp; simplify_eq; try (by left).
  right. eexists. split; [done|].
  apply mark_line_ok_bounds in Hok as [Hnum Hval].
  split_and!; cbn [number mark_class]; [lia|lia| |].
  - unfold strncpy_str. by destruct value.
  - unfold strncpy_str. rewrite length_take. unfold MAX_CLASS_LEN. lia.
Qed.

Lemma process_line_keys_ok buf config config' :
  process_line buf config = Next config' →
  keys_ok (instance_keys config) → keys_ok (instance_keys config').
Proof.
  intros Hp Hk.
  destruct (process_line_cases buf config)
    as [H|[(v & keys & Hkeys & H)|[(d & H)|[(key & value & Hok & H)|(m & H)]]]];
    rewrite H in Hp; simplify_eq; try done.
  cbn [set_instance_keys instance_keys].
  pose proof (selectors_keys v).
  apply parse_instance_keys_inr in Hkeys as (-> & ? & ? & ?).
  by split_and!.
Qed.

Lemma read_lines_ok bufs : ∀ config config',
  read_lines bufs config = Next config' →
  config_ok config → config_ok config'.
Proof.
  induction bufs as [|buf rest IH]; intros config config'; cbn [read_lines].
  - by intros [= <-].
  - destruct (decide _) as [Hroom|]; [|by intros [= <-]].
    destruct (process_line buf config) as [c1|] eqn:Hp; [|done].
    intros Hr (Hmarks & Hnum & Hkeys). eapply IH; [done|].
    split_and!; [| |by eapply process_line_keys_ok].
    + destruct (process_line_marks _ _ _ Hp) as [->|(m & -> & Hm)]; [done|].
      apply Forall_app. split; [done|]. by apply Forall_singleton.
    + unfold num_marks in *.
      destruct (process_line_marks _ _ _ Hp) as [->|(m & -> & Hm)]; [done|].
      rewrite length_app. simpl. lia.
Qed.

Lemma initial_config_ok : config_ok initial_config.
Proof.
  split_and!; [done|unfold num_marks, MAX_MARKS; simpl; lia|].
  unfold keys_ok, selector_key. apply (bool_decide_unpack _). by vm_compute.
Qed.

(** X5: a configuration that [read_config_file] accepts has between 1 and
    100 marks, each with a number between 1 and [INT_MAX] and a class of 1 to
    255 bytes; its selector keys are at least one and at most 127, distinct,
    printable, not white space and in lower case; and nothing was printed. *)
Theorem read_config_file_invariants file config acts :
  read_config_file file = (Some config, acts) →
  (0 < num_marks config ≤ MAX_MARKS)%nat ∧
  Forall mark_ok (marks config) ∧
  keys_ok (instance_keys config) ∧
  acts = [].
Proof.
  unfold read_config_file. destruct file as [f|]; [|done].
  destruct (read_lines _ _) as [c|] eqn:Hr; [|done].
  destruct (decide _); [|done]. intros [= <- <-].
  apply read_lines_ok in Hr as (? & ? & ?); [|apply initial_config_ok].
  by split_and!.
Qed.
End config_invariants.

Section mark_table.
Import Winleap Spec.

Lemma find_wmclass_for_mark_app marks1 marks2 n :
  find_wmclass_for_mark (marks1 ++ marks2) n =
  match find_wmclass_for_mark marks1 n with
  | Some cls => Some cls
  | None => find_wmclass_for_mark marks2 n
  end.
Proof.
  induction marks1 as [|m rest IH]; [done|]. simpl.
  by destruct (decide (number m = n)).
Qed.

Lemma read_lines_marks bufs : ∀ config config',
  read_lines bufs config = Next config' →
  ∃ more, marks config' = marks config ++ more.
Proof.
  induction bufs as [|buf rest IH]; intros config config'; cbn [read_lines].
  - intros [= <-]. exists []. by rewrite app_nil_r.
  - destruct (decide _); [|intros [= <-]; exists []; by rewrite app_nil_r].
    destruct (process_line buf config) as [c1|] eqn:Hp; [|done].
    intros (more & ->)%IH.
    destruct (process_line_marks _ _ _ Hp) as [->|(m & -> & _)]; [by exists more|].
    exists (m :: more). by rewrite <-app_assoc.
Qed.

(** X6: when several lines give the same mark number the first one counts:
    the class that [find_wmclass_for_mark] answers for a number once some
    lines are read is the one it answers after any further lines. *)
Theorem first_mark_line_wins bufs config config' mark_num cls :
  read_lines bufs config = Next config' →
  find_wmclass_for_mark (marks config) mark_num = Some cls →
  find_wmclass_for_mark (marks config') mark_num = Some cls.
Proof.
  intros (more & ->)%read_lines_marks Hfind.
  by rewrite find_wmclass_for_mark_app, Hfind.
Qed.

Lemma read_lines_app bufs1 bufs2 : ∀ config,
  read_lines (bufs1 ++ bufs2) config =
  match read_lines bufs1 config with
  | Next config1 => read_lines bufs2 config1
  | Abort m => Abort m
  end.
Proof.
  induction bufs1 as [|buf rest IH]; intros config; [done|].
  cbn [read_lines app]. fold (rest ++ bufs2).
  destruct (decide _) as [|Hfull].
  - destruct (process_line buf config); [apply IH|done].
  - destruct bufs2; [done|]. cbn [read_lines]. by rewrite decide_False.
Qed.

(** X7: once 100 marks are stored the loop of [read_config_file] ends:
    what follows in the file is not read, so that a later line cannot change
    the configuration nor make the loading fail. *)
Theorem lines_after_last_mark_ignored bufs1 bufs2 config config1 :
  read_lines bufs1 config = Next config1 →
  num_marks config1 = MAX_MARKS →
  read_lines (bufs1 ++ bufs2) config = Next config1.
Proof.
  intros H1 Hfull. rewrite read_lines_app, H1.
  destruct bufs2; [done|]. cbn [read_lines].
  rewrite decide_False; [done|]. rewrite Hfull. lia.
Qed.
End mark_table.

(** ** winleap.c: the window table and the search by class and scope *)

Section winleap_discovery.
Import Winleap Spec.

Lemma winleap_discover_loop_spec client_list : ∀ windows,
  (length windows ≤ MAX_WINDOWS)%nat →
  discover_loop client_list windows =
  take MAX_WINDOWS (windows ++ omap winleap_entry client_list).
Proof.
  induction client_list as [|win rest IH]; intros windows Hlen.
  - cbn [discover_loop omap list_omap]. rewrite app_nil_r. by rewrite take_ge.
  - cbn [discover_loop omap list_omap]. unfold winleap_entry at 1.
    destruct (decide (length windows < MAX_WINDOWS)%nat) as [Hroom|Hfull].
    + destruct (get_wm_class win MAX_CLASS_LEN) as [cls|]; cbn [fmap option_fmap option_map].
      * rewrite IH by (rewrite length_app; simpl; lia). by rewrite <-app_assoc.
      * by apply IH.
    + rewrite take_app_le by lia. by rewrite take_ge by lia.
Qed.

(** X8: the table that [discover_windows] of winleap.c fills holds, in the
    order of the client list, the entries of the clients for which
    [get_wm_class] answers, and only the first 256 of them. *)
Theorem discover_windows_table client_list :
  discover_windows (Some client_list) = take MAX_WINDOWS (omap winleap_entry client_list).
Proof.
  unfold discover_windows. rewrite winleap_discover_loop_spec; [done|].
  simpl. lia.
Qed.

Lemma cstr_app_NUL s rest : NUL ∉ s → cstr (s ++ NUL :: rest) = s.
Proof.
  induction s as [|c s IH]; simpl.
  - done.
  - intros [Hc Hs]%not_elem_of_cons. rewrite decide_False by done. by rewrite IH.
Qed.

(** X9: on property data of the form instance, NUL, class, NUL,
    [get_wm_class] gives the class, cut to [bufsize - 1] bytes, and answers 0
    when the class is empty, whatever the instance is; on data that holds the
    instance alone it gives the instance. *)
Theorem get_wm_class_parts win instance class rest bufsize :
  NUL ∉ instance → NUL ∉ class →
  (x_wm_class win = Some (instance ++ NUL :: class ++ NUL :: rest) →
   get_wm_class win bufsize = if_not_empty (take (bufsize - 1) class)) ∧
  (x_wm_class win = Some (instance ++ [NUL]) →
   get_wm_class win bufsize = if_not_empty (take (bufsize - 1) instance)).
Proof.
  intros Hi Hc. unfold get_wm_class, if_not_empty, strncpy_str, strlen. split; intros ->.
  - rewrite cstr_app_NUL by done.
    assert (length instance + 1 < length (instance ++ NUL :: class ++ NUL :: rest))%nat as Hlt.
    { rewrite length_app. simpl. rewrite length_app. simpl. lia. }
    rewrite (decide_True _ _ Hlt).
    replace (length instance + 1)%nat with (length (instance ++ [NUL]))
      by (rewrite length_app; simpl; lia).
    replace (instance ++ NUL :: class ++ NUL :: rest)
      with ((instance ++ [NUL]) ++ class ++ NUL :: rest) by (by rewrite <-app_assoc).
    rewrite drop_app_length.
    rewrite cstr_app_NUL by done.
    destruct (take (bufsize - 1) class); [done|].
    repeat destruct (decide _); try done; simpl in *; lia.
  - rewrite cstr_app_NUL by done.
    assert (¬ (length instance + 1 < length (instance ++ [NUL]))%nat) as Hlt.
    { rewrite length_app. simpl. lia. }
    rewrite (decide_False _ _ Hlt).
    destruct (take (bufsize - 1) instance); [done|].
    repeat destruct (decide _); try done; simpl in *; lia.
Qed.
End winleap_discovery.

Section winleap_search.
Import Winleap Spec.
Variable target_class : cstring.
Variable current_workspace_only : bool.
Variable current_desktop : Z.

Lemma in_scope_test w :
  in_scope target_class current_workspace_only current_desktop w ↔
  strcasecmp (wm_class w) target_class = 0 ∧
  current_workspace_only
  && (bool_decide (current_desktop < 0) || bool_decide (desktop w ≠ current_desktop))
  = false.
Proof.
  unfold in_scope. destruct current_workspace_only; simpl.
  - rewrite orb_false_iff, !bool_decide_eq_false. split.
    + intros [? [? ?]]; [done|]. split_and!; [done|lia|]. by intros ?.
    + intros [? [? Hd]]. split; [done|]. intros _. split; [lia|].
      by destruct (decide (desktop w = current_desktop)).
  - split; [by intros [? _]|]. intros [? _]. by split.
Qed.

Lemma find_windows_from_sound ws : ∀ i max_indices count idx,
  idx ∈ find_windows_from i ws target_class current_workspace_only current_desktop
          max_indices count →
  ∃ k w, idx = (i + k)%nat ∧ ws !! k = Some w ∧
         in_scope target_class current_workspace_only current_desktop w.
Proof.
  induction ws as [|w rest IH]; intros i max_indices count idx;
    cbn [find_windows_from]; [by intros ?%elem_of_nil|].
  assert (∀ c, idx ∈ find_windows_from (S i) rest target_class current_workspace_only
                       current_desktop max_indices c →
               ∃ k w0, idx = (i + k)%nat ∧ (w :: rest) !! k = Some w0 ∧
                 in_scope target_class current_workspace_only current_desktop w0) as Hrest.
  { intros c (k & w0 & -> & Hk & Hs)%IH. exists (S k), w0. split_and!; [lia|done|done]. }
  destruct (decide (count < max_indices)%nat); [|by intros ?%elem_of_nil].
  destruct (decide (strcasecmp (wm_class w) target_class ≠ 0)) as [|Hcls]; [apply Hrest|].
  destruct (current_workspace_only && _) eqn:Hscope; [apply Hrest|].
  intros [->|Hin]%elem_of_cons; [|by eapply Hrest].
  exists 0%nat, w. split_and!; [lia|done|]. apply in_scope_test. split; [|done].
  by destruct (decide (strcasecmp (wm_class w) target_class = 0)).
Qed.

Lemma find_windows_from_complete ws : ∀ i max_indices count k w,
  (length ws + count ≤ max_indices)%nat →
  ws !! k = Some w →
  in_scope target_class current_workspace_only current_desktop w →
  (i + k)%nat ∈ find_windows_from i ws target_class current_workspace_only
                  current_desktop max_indices count.
Proof.
  induction ws as [|w0 rest IH]; intros i max_indices count k w Hlen Hk Hs; [done|].
  cbn [find_windows_from]. cbn [length] in Hlen.
  rewrite decide_True by lia.
  destruct k as [|k].
  - injection Hk as ->. apply in_scope_test in Hs as [Hcls Hscope].
    rewrite decide_False by (by intros ?). rewrite Hscope.
    rewrite Nat.add_0_r. left.
  - replace (i + S k)%nat with (S i + k)%nat by lia.
    destruct (decide _); [apply (IH _ _ _ _ w); [lia|done|done]|].
    destruct (_ && _); [apply (IH _ _ _ _ w); [lia|done|done]|].
    right. apply (IH _ _ _ _ w); [lia|done|done].
Qed.

Lemma find_windows_from_sorted ws : ∀ i max_indices count p q x y,
  (p < q)%nat →
  find_windows_from i ws target_class current_workspace_only current_desktop
    max_indices count !! p = Some x →
  find_windows_from i ws target_class current_workspace_only current_desktop
    max_indices count !! q = Some y →
  (x < y)%nat.
Proof.
  induction ws as [|w rest IH]; intros i max_indices count p q x y Hpq;
    cbn [find_windows_from]; [done|].
  destruct (decide (count < max_indices)%nat); [|done].
  destruct (decide _); [by apply IH|].
  destruct (_ && _); [by apply IH|].
  destruct q as [|q]; [lia|]. destruct p as [|p].
  - intros [= <-] Hy. change ((?a :: ?l) !! S q) with (l !! q) in Hy.
    apply list_elem_of_lookup_2 in Hy.
    apply find_windows_from_sound in Hy as (k & w0 & -> & _). lia.
  - change ((?a :: ?l) !! S p) with (l !! p). change ((?a :: ?l) !! S q) with (l !! q).
    apply IH. lia.
Qed.

(** X10: when the table has no more entries than the array of indices,
    [find_windows_by_class_and_scope] stores the indices of the windows of
    the class asked for, up to case, that are in scope (any window, or with
    [current_workspace_only] the windows of the current desktop when that is
    known), all of them and no other, in increasing order. *)
Theorem find_windows_by_class_and_scope_spec windows max_indices :
  (length windows ≤ max_indices)%nat →
  (∀ p q x y,
     (p < q)%nat →
     find_windows_by_class_and_scope windows target_class current_workspace_only
       current_desktop max_indices !! p = Some x →
     find_windows_by_class_and_scope windows target_class current_workspace_only
       current_desktop max_indices !! q = Some y →
     (x < y)%nat) ∧
  ∀ idx,
    idx ∈ find_windows_by_class_and_scope windows target_class current_workspace_only
            current_desktop max_indices ↔
    ∃ w, windows !! idx = Some w ∧
         in_scope target_class current_workspace_only current_desktop w.
Proof.
  intros Hlen. unfold find_windows_by_class_and_scope.
  split; [apply find_windows_from_sorted|].
  intros idx. split.
  - intros (k & w & -> & Hk & Hs)%find_windows_from_sound. by exists w.
  - intros (w & Hk & Hs).
    apply (find_windows_from_complete windows 0 max_indices 0 idx w); [lia|done|done].
Qed.
End winleap_search.

(** ** winleap.c: the selection among several windows, and the whole run *)

Section selection.
Import Winleap Spec.

Lemma find_selector_lookup keys : ∀ matching i k idx,
  NoDup keys →
  keys !! i = Some k → matching !! i = Some idx →
  find_selector k keys matching = Some idx.
Proof.
  induction keys as [|k0 keys IH]; intros matching i k idx Hnd Hk Hm; [done|].
  destruct matching as [|idx0 matching]; [done|].
  apply NoDup_cons in Hnd as [Hk0 Hnd].
  cbn [find_selector]. destruct i as [|i].
  - injection Hk as ->. injection Hm as ->. by rewrite decide_True.
  - rewrite decide_False; [by eapply IH|].
    intros ->. apply Hk0. by eapply list_elem_of_lookup_2.
Qed.

Lemma find_selector_Some typed keys : ∀ matching idx,
  find_selector typed keys matching = Some idx →
  ∃ i, keys !! i = Some typed ∧ matching !! i = Some idx.
Proof.
  induction keys as [|k0 keys IH]; intros matching idx.
  - by destruct matching.
  - destruct matching as [|idx0 matching]; [done|]. cbn [find_selector].
    destruct (decide (typed = k0)) as [->|].
    + intros [= ->]. by exists 0%nat.
    + intros (i & ? & ?)%IH. by exists (S i).
Qed.

Lemma find_selector_None typed keys : ∀ matching,
  typed ∉ take (length matching) keys →
  find_selector typed keys matching = None.
Proof.
  induction keys as [|k0 keys IH]; intros matching.
  - by destruct matching.
  - destruct matching as [|idx0 matching]; [done|]. cbn [find_selector length take].
    intros [? ?]%not_elem_of_cons. rewrite decide_False by done. by apply IH.
Qed.

(** X11: when the selector keys are distinct, as [read_config_file] leaves
    them, a key press other than Escape whose first byte of text is, up to
    case, the [i]-th selector key selects the [i]-th window found, provided
    there are that many, and releases the keyboard. *)
Theorem selector_key_selects config matching_indices keysym key0 text rest i idx :
  NoDup (instance_keys config) →
  keysym ≠ XK_Escape →
  instance_keys config !! i = Some (tolower key0) →
  matching_indices !! i = Some idx →
  select_loop config matching_indices (KeyPress keysym (key0 :: text) :: rest) =
    (Some (Z.of_nat idx), [XUngrabKeyboard]).
Proof.
  intros Hnd Hesc Hk Hm. cbn [select_loop].
  rewrite decide_False by done.
  by rewrite (find_selector_lookup _ _ i _ idx Hnd Hk Hm).
Qed.

(** X12: the selection loop passes over events that are not key presses,
    key presses without text, and keys that are not among the selector keys
    in use (one per window found): after any number of them it is where it
    was. *)
Theorem passed_over_events_ignored config matching_indices evs rest :
  Forall (passed_over config matching_indices) evs →
  select_loop config matching_indices (evs ++ rest) =
  select_loop config matching_indices rest.
Proof.
  induction 1 as [|e evs He _ IH]; [done|].
  destruct e as [keysym text|]; cbn [app select_loop]; [|done].
  destruct He as [Hesc Htext]. rewrite decide_False by done.
  destruct text as [|key0 text]; [done|].
  by rewrite find_selector_None.
Qed.

Lemma select_loop_result config matching : ∀ evs r acts,
  select_loop config matching evs = (Some r, acts) →
  acts = [XUngrabKeyboard] ∧
  (r = -1 ∨
   ∃ i idx, matching !! i = Some idx ∧ is_Some (instance_keys config !! i) ∧
            r = Z.of_nat idx).
Proof.
  induction evs as [|e evs IH]; intros r acts; [done|].
  destruct e as [keysym text|]; cbn [select_loop]; [|apply IH].
  destruct (decide (keysym = XK_Escape)).
  { intros [= <- <-]. split; [done|]. by left. }
  destruct text as [|key0 text]; [apply IH|].
  destruct (find_selector _ _ _) as [selected|] eqn:Hsel; [|apply IH].
  intros [= <- <-]. split; [done|]. right.
  apply find_selector_Some in Hsel as (i & ? & ?). by exists i, selected.
Qed.

Lemma grab_loop_acts answers remaining : ∀ i d last,
  Forall (λ a, a = XGrabKeyboard ∨ ∃ us, a = Usleep us)
    (Grab.grab_loop answers remaining i d last).2 ∧
  (remaining ≠ 0%nat → XGrabKeyboard ∈ (Grab.grab_loop answers remaining i d last).2).
Proof.
  induction remaining as [|r IH]; intros i d last; [done|].
  cbn [Grab.grab_loop].
  destruct (decide (answers i = GrabSuccess)).
  { simpl. split; [|intros _; left]. apply Forall_singleton. by left. }
  destruct (decide _).
  - destruct (IH (S i) (Grab.next_delay d) (answers i)) as [Hall _].
    destruct (Grab.grab_loop answers r (S i) _ (answers i)) as [[r0 ok] acts].
    simpl in *. split; [|intros _; left].
    constructor; [by left|]. constructor; [right; by eexists|done].
  - simpl. split; [|intros _; left]. apply Forall_singleton. by left.
Qed.

Lemma grab_keyboard_acts answers :
  Forall (λ a, a = XGrabKeyboard ∨ ∃ us, a = Usleep us) (Grab.grab_keyboard answers).2 ∧
  XGrabKeyboard ∈ (Grab.grab_keyboard answers).2.
Proof.
  unfold Grab.grab_keyboard.
  destruct (grab_loop_acts answers Grab.max_retries 0 Grab.initial_delay_us GrabSuccess)
    as [Hall Hin].
  destruct (Grab.grab_loop _ _ _ _ _) as [[r ok] acts]. simpl in *.
  split; [done|]. by apply Hin.
Qed.

(** X13: [select_instance_interactively], when it returns, returns -2
    without holding or having released the keyboard (no window found, more
    windows than selector keys, or the grab failed), or else has grabbed the
    keyboard and then released it, and returns -1 or the index of one of the
    windows found. *)
Theorem select_instance_result config matching_indices answers evs r acts :
  select_instance_interactively config matching_indices answers evs
    = (Some r, acts) →
  (r = -2 ∧ (XUngrabKeyboard ∉ acts) ∧
   (matching_indices = [] ∨
    (strlen (instance_keys config) < length matching_indices)%nat ∨
    (Grab.grab_keyboard answers).1 = false)) ∨
  ((Grab.grab_keyboard answers).1 = true ∧
   acts = (Grab.grab_keyboard answers).2 ++ [XUngrabKeyboard] ∧
   (r = -1 ∨
    ∃ i idx, matching_indices !! i = Some idx ∧ is_Some (instance_keys config !! i) ∧
             r = Z.of_nat idx)).
Proof.
  unfold select_instance_interactively.
  destruct (decide (length matching_indices ≤ 0)%nat) as [Hz|_].
  { intros [= <- <-]. left. split_and!; [done|by intros ?%elem_of_nil|].
    left. apply length_zero_iff_nil. lia. }
  destruct (decide _) as [Hfew|_].
  { intros [= <- <-]. left. split_and!; [done| |by right; left].
    by intros [=]%list_elem_of_singleton. }
  destruct (grab_keyboard_acts answers) as [Hall _].
  destruct (Grab.grab_keyboard answers) as [grabbed gacts]. simpl in *.
  destruct grabbed; cbn [negb].
  - destruct (select_loop _ _ _) as [r' acts'] eqn:Hloop.
    intros [= -> <-]. apply select_loop_result in Hloop as [-> Hr].
    right. by split_and!.
  - intros [= <- <-]. left. split_and!; [done| |by right; right].
    intros [Hin|[=]%list_elem_of_singleton]%elem_of_app.
    eapply Forall_forall in Hall; [|done]. by destruct Hall as [|[? ?]].
Qed.
End selection.

Section winleap_main.
Import Winleap Spec.

Lemma winleap_activate_window windows idx w :
  windows !! idx = Some w →
  activate_window windows (Z.of_nat idx) = activation (id w) (known_desktop w).
Proof.
  intros Hw. unfold activate_window, activation, known_desktop.
  rewrite decide_False by (apply lookup_lt_Some in Hw; lia).
  rewrite Nat2Z.id, Hw. by destruct (decide _).
Qed.

Lemma no_request_app l1 l2 :
  Forall (λ a, window_request a = false) l1 →
  Forall (λ a, window_request a = false) l2 →
  Forall (λ a, window_request a = false) (l1 ++ l2).
Proof. intros. by apply Forall_app. Qed.

Lemma grab_no_request answers :
  Forall (λ a, window_request a = false) (Grab.grab_keyboard answers).2.
Proof.
  destruct (grab_keyboard_acts answers) as [Hall _].
  eapply Forall_impl; [done|]. by intros a [->|[us ->]].
Qed.

Lemma select_no_request config matching answers evs r acts :
  select_instance_interactively config matching answers evs = (r, acts) →
  Forall (λ a, window_request a = false) acts.
Proof.
  unfold select_instance_interactively.
  destruct (decide _); [by intros [= <- <-]|].
  destruct (decide _); [intros [= <- <-]; by repeat constructor|].
  pose proof (grab_no_request answers) as Hg.
  destruct (Grab.grab_keyboard answers) as [grabbed gacts]. simpl in Hg.
  destruct grabbed; cbn [negb].
  - destruct (select_loop _ _ _) as [r' acts'] eqn:Hloop. intros [= <- <-].
    apply no_request_app; [done|].
    destruct r' as [r'|].
    + apply select_loop_result in Hloop as [-> _]. by repeat constructor.
    + clear Hg. revert acts' Hloop. induction evs as [|e evs IH]; intros acts'.
      * by intros [= <-].
      * destruct e as [keysym text|]; cbn [select_loop]; [|apply IH].
        destruct (decide _); [done|]. destruct text; [apply IH|].
        destruct (find_selector _ _ _); [done|apply IH].
  - intros [= <- <-]. apply no_request_app; [done|]. by repeat constructor.
Qed.

Lemma select_instance_nonneg config matching answers evs r acts :
  select_instance_interactively config matching answers evs = (Some r, acts) →
  0 ≤ r →
  ∃ i idx, matching !! i = Some idx ∧ r = Z.of_nat idx.
Proof.
  unfold select_instance_interactively.
  destruct (decide _); [intros [= <- <-]; lia|].
  destruct (decide _); [intros [= <- <-]; lia|].
  destruct (Grab.grab_keyboard answers) as [grabbed gacts].
  destruct grabbed; cbn [negb]; [|intros [= <- <-]; lia].
  destruct (select_loop _ _ _) as [r' acts'] eqn:Hloop. intros [= -> <-] Hr.
  apply select_loop_result in Hloop as [_ [->|(i & idx & ? & _ & ->)]]; [lia|].
  by exists i, idx.
Qed.

(** The run of [main] from the command line to its end: either it ends
    without any request on a window, and not with the exit code 0, or it
    exits with 0 after the activation of one window in scope. *)
Lemma main_shape args env o trace :
  main args env = (o, trace) →
  (o ≠ Exited 0 ∧ Forall (λ a, window_request a = false) trace) ∨
  (o = Exited 0 ∧
   ∃ arg config target_class idx w pre,
     mark_arg args = Some arg ∧
     read_config_file (config_file env) = (Some config, []) ∧
     find_wmclass_for_mark (marks config) (atoi arg) = Some target_class ∧
     discover_windows (client_list env) !! idx = Some w ∧
     in_scope target_class (current_workspace_only args) (get_current_desktop env) w ∧
     Forall (λ a, window_request a = false) pre ∧
     trace = pre ++ activation (id w) (known_desktop w) ++ [XCloseDisplay]).
Proof.
  unfold main.
  destruct (mark_arg args) as [arg|] eqn:Harg; [|intros [= <- <-]; by left].
  destruct (decide (atoi arg <= 0)); [intros [= <- <-]; left; by repeat constructor|].
  destruct (read_config_file (config_file env)) as [[config|] acts] eqn:Hcfg.
  2:{ intros [= <- <-]. left. split; [done|].
      apply no_request_app; [|by repeat constructor].
      unfold read_config_file in Hcfg.
      destruct (config_file env); [|simplify_eq; by repeat constructor].
      destruct (read_lines _ _); [|simplify_eq; by repeat constructor].
      destruct (decide _); simplify_eq; by repeat constructor. }
  destruct (read_config_file_ok _ _ _ Hcfg) as (_ & _ & ->). cbn [app].
  destruct (find_wmclass_for_mark _ _) as [target_class|] eqn:Hmark;
    [|intros [= <- <-]; left; by repeat constructor].
  destruct (display env); cbn [negb]; [|intros [= <- <-]; left; by repeat constructor].
  set (windows := discover_windows (client_list env)).
  destruct (decide (length windows = 0%nat));
    [intros [= <- <-]; left; by repeat constructor|].
  set (cur := if current_workspace_only args then get_current_desktop env else -1).
  set (matching := find_windows_by_class_and_scope _ _ _ _ _).
  assert (∀ idx, idx ∈ matching →
            ∃ w, windows !! idx = Some w ∧
                 in_scope target_class (current_workspace_only args)
                   (get_current_desktop env) w) as Hsound.
  { intros idx (k & w & -> & Hk & Hcls & Hscope)%find_windows_from_sound.
    exists w. split; [done|]. split; [done|]. intros Hcwo.
    specialize (Hscope Hcwo). subst cur. by rewrite Hcwo in Hscope. }
  assert (∀ idx, idx ∈ matching → ∀ pre,
            Forall (λ a, window_request a = false) pre →
            ∃ arg0 config0 target_class0 idx0 w pre0,
              Some arg = Some arg0 ∧
              (Some config, @nil Action) = (Some config0, []) ∧
              find_wmclass_for_mark (marks config0) (atoi arg0) = Some target_class0 ∧
              windows !! idx0 = Some w ∧
              in_scope target_class0 (current_workspace_only args)
                (get_current_desktop env) w ∧
              Forall (λ a, window_request a = false) pre0 ∧
              pre ++ activate_window windows (Z.of_nat idx) ++ [XCloseDisplay] =
              pre0 ++ activation (id w) (known_desktop w) ++ [XCloseDisplay]) as Hact.
  { intros idx (w & Hw & Hs)%Hsound pre Hpre.
    exists arg, config, target_class, idx, w, pre.
    by rewrite (winleap_activate_window _ _ _ Hw). }
  destruct (decide (length matching = 0%nat));
    [intros [= <- <-]; left; by repeat constructor|].
  destruct (decide (length matching = 1%nat)) as [Hone|Hmany].
  - intros [= <- <-]. right. split; [done|].
    destruct matching as [|idx [|]] eqn:Hm; [done| |done].
    exact (Hact idx ltac:(left) [] ltac:(constructor)).
  - destruct (select_instance_interactively _ _ _ _) as [[target_idx|] acts'] eqn:Hsel.
    2:{ intros [= <- <-]. left. split; [done|]. by eapply select_no_request. }
    pose proof (select_no_request _ _ _ _ _ _ Hsel) as Hpre.
    destruct (decide (target_idx = -1)).
    { intros [= <- <-]. left. split; [done|].
      apply no_request_app; [done|]. by repeat constructor. }
    destruct (decide (target_idx < 0)).
    { intros [= <- <-]. left. split; [done|].
      apply no_request_app; [done|]. by repeat constructor. }
    intros [= <- <-]. right. split; [done|].
    destruct (select_instance_nonneg _ _ _ _ _ _ Hsel) as (i & idx & Hi & ->); [lia|].
    apply (Hact idx); [by eapply list_elem_of_lookup_2|done].
Qed.

(** X14: take a command line that is read without error and asks neither
    for help nor for the debug log, so that the run comes to the dispatch of
    a mark. If the run exits with code 0, it has read a configuration that
    maps the mark to a class, and has activated one window of the table, of
    that class up to case and, with [--current-workspace], on the current
    desktop; the requests for that window and the closing of the display end
    the run, and nothing before them acts on a window. *)
Theorem exit_0_activates_window_in_scope argv o env trace :
  Cli.parse_arguments argv Cli.no_options = inr o →
  Cli.show_help o = false →
  Cli.open_debug o = false →
  main (Cli.dispatch_args o) env = (Exited 0, trace) →
  ∃ arg config target_class idx w pre,
    Cli.mark_arg o = Some arg ∧
    read_config_file (config_file env) = (Some config, []) ∧
    find_wmclass_for_mark (marks config) (atoi arg) = Some target_class ∧
    discover_windows (client_list env) !! idx = Some w ∧
    in_scope target_class (Cli.current_workspace_only o) (get_current_desktop env) w ∧
    Forall (λ a, window_request a = false) pre ∧
    trace = pre ++ activation (id w) (known_desktop w) ++ [XCloseDisplay].
Proof. intros _ _ _ [[? _]|[_ H]]%main_shape; done. Qed.

(** X15: a run of winleap that does not exit with code 0 (an error, a
    cancelled selection, or a selection that still waits for a key) has made
    no request that acts on a window or switches the desktop. *)
Theorem no_request_unless_exit_0 args env o trace :
  main args env = (o, trace) →
  o ≠ Exited 0 →
  Forall (λ a, window_request a = false) trace.
Proof. intros [[_ ?]|[? _]]%main_shape; done. Qed.
End winleap_main.

Section unknown_desktop.
Import Winleap Spec.

Lemma not_elem_of_Forall {A} (x : A) l : Forall (λ y, y ≠ x) l → x ∉ l.
Proof. rewrite Forall_forall. intros H Hin. by apply (H x). Qed.

Local Ltac no_grab := apply not_elem_of_Forall; by repeat constructor.

Lemma find_windows_unknown_desktop windows target_class current_desktop max_indices :
  current_desktop < 0 →
  find_windows_by_class_and_scope windows target_class true current_desktop max_indices
    = [].
Proof.
  intros Hneg.
  destruct (find_windows_by_class_and_scope _ _ _ _ _) as [|idx l] eqn:Hfind; [done|].
  assert (idx ∈ find_windows_by_class_and_scope windows target_class true
                  current_desktop max_indices) as Hin by (rewrite Hfind; left).
  apply find_windows_from_sound in Hin as (k & w & _ & _ & _ & Hscope).
  specialize (Hscope eq_refl). lia.
Qed.

(** X16: take a command line with [--current-workspace] that is read
    without error and asks neither for help nor for the debug log, so that
    the run comes to the dispatch of a mark. When the current desktop cannot
    be read no window is in scope: the run exits with code 1 or 2 and never
    tries to grab the keyboard. *)
Theorem current_workspace_unknown_desktop argv o env :
  Cli.parse_arguments argv Cli.no_options = inr o →
  Cli.show_help o = false →
  Cli.open_debug o = false →
  Cli.current_workspace_only o = true →
  get_current_desktop env < 0 →
  ∃ code, (main (Cli.dispatch_args o) env).1 = Exited code ∧ (code = 1 ∨ code = 2) ∧
          (XGrabKeyboard ∉ (main (Cli.dispatch_args o) env).2).
Proof.
  intros _ _ _ Hcwo Hneg. unfold main.
  cbn [Cli.dispatch_args mark_arg current_workspace_only].
  destruct (Cli.mark_arg o) as [arg|].
  2:{ exists 1. split_and!; [done|by left|no_grab]. }
  destruct (decide _).
  { exists 1. split_and!; [done|by left|no_grab]. }
  destruct (read_config_file (config_file env)) as [[config|] acts] eqn:Hcfg.
  2:{ exists 1. split_and!; [done|by left|]. simpl.
      unfold read_config_file in Hcfg.
      destruct (config_file env); [|simplify_eq; no_grab].
      destruct (read_lines _ _); [|simplify_eq; no_grab].
      destruct (decide _); simplify_eq. no_grab. }
  destruct (read_config_file_ok _ _ _ Hcfg) as (_ & _ & ->). cbn [app].
  destruct (find_wmclass_for_mark _ _) as [target_class|].
  2:{ exists 1. split_and!; [done|by left|no_grab]. }
  destruct (display env); cbn [negb].
  2:{ exists 2. split_and!; [done|by right|no_grab]. }
  destruct (decide _).
  { exists 2. split_and!; [done|by right|no_grab]. }
  rewrite Hcwo. rewrite find_windows_unknown_desktop by done.
  rewrite decide_True by done.
  exists 1. split_and!; [done|by left|no_grab].
Qed.
End unknown_desktop.

(** ** atsw.c: the typed buffer and the end of the event loop *)

Section matcher.
Import Atsw Spec.
Variable windows : list WindowInfo.
Variable desktop_of : Window → option Z.

Lemma step_buffer buffer event buffer' :
  step windows desktop_of buffer event = Continue buffer' →
  (length buffer ≤ MAX_BUFFER_LEN - 1)%nat → Forall (λ c, tolower c = c) buffer →
  (length buffer' ≤ MAX_BUFFER_LEN - 1)%nat ∧ Forall (λ c, tolower c = c) buffer'.
Proof.
  intros Hstep Hlen Hlow. unfold step in Hstep.
  destruct event as [keysym text|]; [|by simplify_eq].
  destruct (decide (keysym = XK_Escape)); [done|].
  destruct (decide (keysym = XK_BackSpace)).
  { simplify_eq. split; [rewrite length_take; lia|by apply Forall_take]. }
  destruct (decide (keysym = XK_Return ∨ keysym = XK_KP_Enter)).
  { destruct (decide _); [|by simplify_eq].
    destruct (find_match windows buffer) as [m ?].
    destruct (decide _); by simplify_eq. }
  destruct (decide _) as [[Htext Hroom]|]; [|by simplify_eq].
  destruct (find_match windows (append_keys buffer text)) as [m ?].
  destruct (decide _); [done|]. simplify_eq. unfold append_keys. split.
  - rewrite length_app, length_take. lia.
  - apply Forall_app. split; [done|]. apply Forall_take, Forall_fmap, Forall_forall.
    intros c _. apply tolower_idemp.
Qed.

(** X17: the buffer of typed keys of atsw.c never holds more than 63 bytes,
    and holds bytes in lower case only, whatever the events are. *)
Theorem typed_buffer_invariant evs : ∀ buffer buffer',
  (length buffer ≤ MAX_BUFFER_LEN - 1)%nat →
  Forall (λ c, tolower c = c) buffer →
  buffer_after windows desktop_of buffer evs = Some buffer' →
  (length buffer' ≤ MAX_BUFFER_LEN - 1)%nat ∧ Forall (λ c, tolower c = c) buffer'.
Proof.
  induction evs as [|e evs IH]; intros buffer buffer' Hlen Hlow; cbn [buffer_after].
  - by intros [= <-].
  - destruct (step windows desktop_of buffer e) as [b1|] eqn:Hstep; [|done].
    destruct (step_buffer _ _ _ Hstep Hlen Hlow). by apply IH.
Qed.

(** X18: when a key that gives one byte of text is appended to a buffer
    that has room and does not end the run, the buffer is the old one followed
    by that byte in lower case, and BackSpace then gives the old buffer
    back. *)
Theorem backspace_undoes_key buffer keysym c text buffer' :
  text_key keysym →
  (length buffer < MAX_BUFFER_LEN - 1)%nat →
  step windows desktop_of buffer (KeyPress keysym [c]) = Continue buffer' →
  buffer' = buffer ++ [tolower c] ∧
  step windows desktop_of buffer' (KeyPress XK_BackSpace text) = Continue buffer.
Proof.
  intros (Hesc & Hbs & Hret & Hkp) Hroom. unfold step.
  rewrite (decide_False (P := keysym = XK_Escape)) by done.
  rewrite (decide_False (P := keysym = XK_BackSpace)) by done.
  rewrite (decide_False (P := keysym = XK_Return ∨ keysym = XK_KP_Enter)) by (by intros [?|?]).
  rewrite decide_True by (split; [simpl; lia|done]).
  assert (append_keys buffer [c] = buffer ++ [tolower c]) as ->.
  { unfold append_keys. f_equal. unfold MAX_BUFFER_LEN in *.
    by rewrite take_ge by (simpl; lia). }
  destruct (find_match windows (buffer ++ [tolower c])) as [m ?].
  destruct (decide _); [done|]. intros [= <-]. split; [done|].
  rewrite decide_False by done. rewrite decide_True by done.
  f_equal. rewrite length_app. simpl.
  replace (length buffer + 1 - 1)%nat with (length buffer) by lia.
  by rewrite take_app_length.
Qed.

Lemma scan_matches_elem ws : ∀ i b n x,
  x ∈ scan_matches i ws b n ↔
  ∃ k w, x = (i + k)%nat ∧ ws !! k = Some w ∧ strncasecmp (prefix w) b n = 0.
Proof.
  induction ws as [|w0 rest IH]; intros i b n x; cbn [scan_matches].
  - split; [by intros ?%elem_of_nil|]. by intros (k & w & _ & ? & _).
  - assert (x ∈ scan_matches (S i) rest b n ↔
            ∃ k w, x = (i + S k)%nat ∧ rest !! k = Some w ∧
                   strncasecmp (prefix w) b n = 0) as Hrest.
    { rewrite IH. split; intros (k & w & -> & ? & ?); exists k, w; split_and!; done || lia. }
    destruct (decide (strncasecmp (prefix w0) b n = 0)) as [Hm|Hm].
    + rewrite elem_of_cons, Hrest. split.
      * intros [->|(k & w & -> & ? & ?)].
        -- exists 0%nat, w0. split_and!; [lia|done|done].
        -- by exists (S k), w.
      * intros ([|k] & w & -> & Hk & ?).
        -- left. lia.
        -- right. by exists k, w.
    + rewrite Hrest. split.
      * intros (k & w & -> & ? & ?). by exists (S k), w.
      * intros ([|k] & w & -> & Hk & ?); [by simplify_eq/=|]. by exists k, w.
Qed.

Lemma find_match_resolved buffer m n :
  find_match windows buffer = (m, n) → m >= 0 →
  cstr buffer ≠ [] ∧
  ∃ idx w, m = Z.of_nat idx ∧ windows !! idx = Some w ∧
    ∀ k wk, windows !! k = Some wk →
      strncasecmp (prefix wk) (cstr buffer) (strlen (cstr buffer)) = 0 ↔ k = idx.
Proof.
  unfold find_match. destruct (cstr buffer) as [|c b] eqn:Hb; [intros [= <- <-]; lia|].
  destruct (scan_matches 0 windows (c :: b) (strlen (c :: b))) as [|idx [|]] eqn:Hscan;
    [intros [= <- <-]; lia| |intros [= <- <-]; lia].
  intros [= <- <-] _. split; [done|].
  assert (∀ x, x ∈ [idx] ↔ ∃ k w, x = (0 + k)%nat ∧ windows !! k = Some w ∧
            strncasecmp (prefix w) (c :: b) (strlen (c :: b)) = 0) as Helem.
  { intros x. rewrite <-Hscan. apply scan_matches_elem. }
  destruct (proj1 (Helem idx)) as (k & w & -> & Hw & Hm); [left|].
  exists (0 + k)%nat, w. split_and!; [done|done|].
  intros k' wk Hk'. split.
  - intros Hmk. assert ((0 + k')%nat ∈ [(0 + k)%nat]) as Hin.
    { apply Helem. by exists k', wk. }
    apply list_elem_of_singleton in Hin. lia.
  - intros ->. change (0 + k)%nat with k in Hk'. rewrite Hw in Hk'.
    injection Hk' as <-. exact Hm.
Qed.

Lemma atsw_activate_window idx w :
  windows !! idx = Some w →
  activate_window windows desktop_of (Z.of_nat idx) =
  activation (id w) (desktop_of (id w)).
Proof.
  intros Hw. unfold activate_window, activation.
  rewrite decide_False by (apply lookup_lt_Some in Hw; lia).
  by rewrite Nat2Z.id, Hw.
Qed.

Lemma step_exit buffer event code acts :
  step windows desktop_of buffer event = Exit code acts →
  ∃ keysym text, event = KeyPress keysym text ∧
    ((keysym = XK_Escape ∧ code = 1 ∧ acts = [XUngrabKeyboard; XCloseDisplay]) ∨
     (keysym ≠ XK_Escape ∧ keysym ≠ XK_BackSpace ∧ code = 0 ∧
      ∃ idx w,
        resolves_to windows (looked_up buffer keysym text) idx ∧
        windows !! idx = Some w ∧
        acts = activation (id w) (desktop_of (id w)) ++ [XUngrabKeyboard; XCloseDisplay])).
Proof.
  unfold step. destruct event as [keysym text|]; [|done].
  intros Hstep. exists keysym, text. split; [done|]. revert Hstep.
  destruct (decide (keysym = XK_Escape)); [intros [= <- <-]; by left|].
  destruct (decide (keysym = XK_BackSpace)); [done|].
  assert (∀ b, (let '(m, _) := find_match windows b in
                if decide (m >= 0)
                then Exit 0 (activate_window windows desktop_of m ++
                             [XUngrabKeyboard; XCloseDisplay])
                else Continue b) = Exit code acts →
          code = 0 ∧
          ∃ idx w,
            resolves_to windows (cstr b) idx ∧ windows !! idx = Some w ∧
            acts = activation (id w) (desktop_of (id w)) ++
                   [XUngrabKeyboard; XCloseDisplay]) as Hres.
  { intros b. destruct (find_match windows b) as [m cnt] eqn:Hfind.
    destruct (decide (m >= 0)) as [Hm|]; [|done]. intros [= <- <-].
    destruct (find_match_resolved _ _ _ Hfind Hm) as (Hne & idx & w & -> & Hw & Honly).
    split; [done|]. exists idx, w.
    by rewrite (atsw_activate_window _ _ Hw). }
  unfold looked_up.
  destruct (decide (keysym = XK_Return ∨ keysym = XK_KP_Enter)).
  { destruct (decide _); [|done]. intros [-> H]%Hres. right. by split_and!. }
  destruct (decide _); [|done]. intros [-> H]%Hres. right. by split_and!.
Qed.

Lemma step_continue buffer event buffer' :
  step windows desktop_of buffer event = Continue buffer' →
  buffer' = type_key buffer event.
Proof.
  unfold step, type_key. destruct event as [keysym text|]; [|by intros [= <-]].
  destruct (decide (keysym = XK_Escape)); [done|].
  destruct (decide (keysym = XK_BackSpace)); [by intros [= <-]|].
  destruct (decide (keysym = XK_Return ∨ keysym = XK_KP_Enter)) as [Hret|Hret].
  { rewrite (decide_True (P := keysym = XK_Escape ∨ _)) by tauto.
    destruct (decide _); [|by intros [= <-]].
    destruct (find_match windows buffer) as [m ?].
    destruct (decide _); [done|by intros [= <-]]. }
  rewrite (decide_False (P := keysym = XK_Escape ∨ _)) by tauto.
  destruct (decide (_ ∧ _)) as [[Htext Hroom]|Hno].
  - rewrite decide_True by done.
    destruct (find_match windows (append_keys buffer text)) as [m ?].
    destruct (decide _); [done|by intros [= <-]].
  - intros [= <-]. destruct (decide _) as [Hroom|]; [|done].
    assert (text = []) as ->
      by (destruct text; [done|]; destruct Hno; simpl; split; [lia|done]).
    unfold append_keys. by rewrite fmap_nil, take_nil, app_nil_r.
Qed.

(** The buffer that events leave is the text of the keys typed, less what
    BackSpace took away. *)
Lemma buffer_after_typed evs : ∀ buffer typed,
  buffer_after windows desktop_of buffer evs = Some typed →
  typed = foldl type_key buffer evs.
Proof.
  induction evs as [|e evs IH]; intros buffer typed; cbn [buffer_after foldl].
  - by intros [= <-].
  - destruct (step windows desktop_of buffer e) as [b1|] eqn:Hstep; [|done].
    apply step_continue in Hstep as ->. apply IH.
Qed.

(** X19: the event loop of atsw.c ends the run at a key press, in two ways
    only. The events before it did not end the run and left in the buffer
    what was typed: the text of the keys, in lower case, less what BackSpace
    took away. Either the key is Escape, and the run ends with code 1 and no
    activation; or it is neither Escape nor BackSpace, the string looked up
    (the buffer for Return and keypad Enter, the buffer with the text of the
    key appended otherwise) is not empty and begins, up to case, the sequence
    of one window of the table and of no other, and the run ends with code 0
    after activating that window. Both end by releasing the keyboard and
    closing the display. *)
Theorem event_loop_exits evs : ∀ buffer code acts,
  event_loop windows desktop_of buffer evs = (Exited code, acts) →
  ∃ before keysym text after typed,
    evs = before ++ KeyPress keysym text :: after ∧
    buffer_after windows desktop_of buffer before = Some typed ∧
    typed = foldl type_key buffer before ∧
    ((keysym = XK_Escape ∧ code = 1 ∧ acts = [XUngrabKeyboard; XCloseDisplay]) ∨
     (keysym ≠ XK_Escape ∧ keysym ≠ XK_BackSpace ∧ code = 0 ∧
      ∃ idx w,
        resolves_to windows (looked_up typed keysym text) idx ∧
        windows !! idx = Some w ∧
        acts = activation (id w) (desktop_of (id w)) ++ [XUngrabKeyboard; XCloseDisplay])).
Proof.
  induction evs as [|e evs IH]; intros buffer code acts; cbn [event_loop]; [done|].
  destruct (step windows desktop_of buffer e) as [b1|code1 acts1] eqn:Hstep.
  - intros (before & keysym & text & after & typed & -> & Hb & Ht & H)%IH.
    exists (e :: before), keysym, text, after, typed.
    assert (buffer_after windows desktop_of buffer (e :: before) = Some typed) as Hb'
      by (cbn [buffer_after]; by rewrite Hstep).
    split_and!; [done|done| |done]. by apply buffer_after_typed.
  - intros [= <- <-].
    destruct (step_exit _ _ _ _ Hstep) as (keysym & text & -> & H).
    by exists [], keysym, text, evs, buffer.
Qed.
End matcher.

(** ** atsw.c: the whole run, and what the index keeps and gives *)

Section atsw_main.
Import Atsw Spec.

Lemma event_loop_releases windows desktop_of evs : ∀ buffer code acts,
  event_loop windows desktop_of buffer evs = (Exited code, acts) →
  (code = 0 ∨ code = 1) ∧
  ∃ requests, acts = requests ++ [XUngrabKeyboard; XCloseDisplay] ∧
              (code ≠ 0 → requests = []).
Proof.
  induction evs as [|e evs IH]; intros buffer code acts; cbn [event_loop]; [done|].
  destruct (step windows desktop_of buffer e) as [b1|code1 acts1] eqn:Hstep; [apply IH|].
  intros [= <- <-].
  apply step_exit in Hstep
    as (keysym & text & _ & [(_ & -> & ->)|(_ & _ & -> & idx & w & _ & _ & ->)]).
  - split; [by right|]. by exists [].
  - split; [by left|]. eexists. split; [done|]. done.
Qed.

(** X20: a run of atsw.c that exits has code 2 and did nothing when the
    display cannot be opened; has code 2 and closed the display without
    releasing a keyboard it never held when the grab failed; and else ends by
    releasing the keyboard and closing the display, with requests on a window
    before that only when the code is 0. *)
Theorem atsw_releases_keyboard env code trace :
  main env = (Exited code, trace) →
  (display env = false ∧ code = 2 ∧ trace = []) ∨
  (display env = true ∧ (Grab.grab_keyboard (grab_answers env)).1 = false ∧ code = 2 ∧
   trace = (Grab.grab_keyboard (grab_answers env)).2 ++ [XCloseDisplay] ∧
   (XUngrabKeyboard ∉ trace)) ∨
  (display env = true ∧ (Grab.grab_keyboard (grab_answers env)).1 = true ∧
   (code = 0 ∨ code = 1 ∨ code = 2) ∧
   ∃ requests,
     trace = (Grab.grab_keyboard (grab_answers env)).2 ++ requests ++
             [XUngrabKeyboard; XCloseDisplay] ∧
     (code ≠ 0 → requests = [])).
Proof.
  unfold main. destruct (display env); cbn [negb]; [|intros [= <- <-]; by left].
  pose proof (grab_keyboard_acts (grab_answers env)) as [Hall _].
  destruct (Grab.grab_keyboard (grab_answers env)) as [grabbed gacts]. simpl in *.
  destruct grabbed; cbn [negb].
  2:{ intros [= <- <-]. right. left. split_and!; [done..|].
      intros [Hin|[=]%list_elem_of_singleton]%elem_of_app.
      eapply Forall_forall in Hall; [|done]. by destruct Hall as [|[? ?]]. }
  destruct (decide _).
  { intros [= <- <-]. right. right. split_and!; [done|done|by right; right|].
    by exists []. }
  destruct (compute_prefixes _) as [windows'|]; [|done].
  destruct (event_loop _ _ _ _) as [o acts'] eqn:Hloop. intros [= -> <-].
  right. right. split; [done|]. split; [done|].
  apply event_loop_releases in Hloop as (Hcode & requests & -> & Hreq).
  split; [destruct Hcode as [->| ->]; [by left|by right; left]|].
  by exists requests.
Qed.
End atsw_main.

Section index_frame.
Import Atsw Spec.

Lemma erase_alter p idx (ws : list WindowInfo) :
  set_prefix [] <$> alter (set_prefix p) idx ws = set_prefix [] <$> ws.
Proof.
  rewrite (list_fmap_alter _ _ (λ w, w)); [by apply list_alter_id|].
  by apply Forall_forall.
Qed.

Lemma assign_numbered_frame app_class prefix_len indices : ∀ w0 ws,
  set_prefix [] <$> assign_numbered app_class prefix_len w0 indices ws =
  set_prefix [] <$> ws.
Proof.
  induction indices as [|idx rest IH]; intros w0 ws; [done|].
  cbn [assign_numbered]. by rewrite IH, erase_alter.
Qed.

Lemma assign_from_frame apps todo : ∀ a ws ws',
  assign_from apps a todo ws = Some ws' →
  set_prefix [] <$> ws' = set_prefix [] <$> ws.
Proof.
  induction todo as [|g rest IH]; intros a ws ws'; cbn [assign_from].
  - by intros [= <-].
  - destruct (assign_group apps a g ws) as [ws1|] eqn:Hg; [|done].
    intros ->%IH. unfold assign_group in Hg.
    destruct (decide _).
    + destruct (window_indices g); [by simplify_eq|].
      destruct (decide _); [|done]. simplify_eq. apply erase_alter.
    + simplify_eq. apply assign_numbered_frame.
Qed.

(** X21: when [compute_prefixes] writes no prefix outside its field, it
    changes nothing but the prefixes: the table keeps its length and its
    order, and every entry its identifier, class and title. *)
Theorem compute_prefixes_frame windows windows' :
  compute_prefixes windows = Some windows' →
  set_prefix [] <$> windows' = set_prefix [] <$> windows.
Proof. apply assign_from_frame. Qed.
End index_frame.

Section numbering.
Import Atsw Spec.
Variable windows : list WindowInfo.
Hypothesis windows_wf : wf_windows windows.


End numbering.

Section reachability.
Import Atsw Spec.
Variable windows : list WindowInfo.
Hypothesis windows_wf : wf_windows windows.

(** While the group table has room, every window met so far is in a
    group. *)
Lemma group_window_complete apps i w :
  ((length apps < MAX_APPS)%nat →
   ∀ idx, (idx < i)%nat → ∃ a g, apps !! a = Some g ∧ idx ∈ window_indices g) →
  (length (group_window apps i w) < MAX_APPS)%nat →
  ∀ idx, (idx < S i)%nat →
    ∃ a g, group_window apps i w !! a = Some g ∧ idx ∈ window_indices g.
Proof.
  intros Hold. unfold group_window.
  destruct (find_app apps (wm_class_lower w)) as [found|] eqn:Hfind.
  - rewrite length_alter. intros Hroom idx Hidx.
    apply find_app_Some in Hfind as (gf & Hgf & _).
    destruct (decide (idx = i)) as [->|Hne].
    + exists found, (add_window i gf). split.
      * by rewrite list_lookup_alter_eq, Hgf.
      * apply elem_of_app. right. left.
    + destruct (Hold Hroom idx ltac:(lia)) as (a & g & Ha & Hin).
      destruct (decide (a = found)) as [->|Haf].
      * exists found, (add_window i g). split.
        -- by rewrite list_lookup_alter_eq, Ha.
        -- apply elem_of_app. by left.
      * exists a, g. split; [|done]. by rewrite list_lookup_alter_ne.
  - destruct (decide (length apps < MAX_APPS)%nat) as [Hlt|Hfull]; [|done].
    rewrite length_app. simpl. intros Hroom idx Hidx.
    destruct (decide (idx = i)) as [->|Hne].
    + eexists (length apps), _. split.
      * rewrite lookup_app_r by lia. by rewrite Nat.sub_diag.
      * left.
    + destruct (Hold Hlt idx ltac:(lia)) as (a & g & Ha & Hin).
      exists a, g. split; [|done]. by apply lookup_app_l_Some.
Qed.

Lemma group_window_length apps i w :
  (length apps ≤ length (group_window apps i w))%nat.
Proof.
  unfold group_window. destruct (find_app _ _); [by rewrite length_alter|].
  destruct (decide _); [|done]. rewrite length_app. lia.
Qed.

Lemma group_windows_from_complete rest : ∀ i apps,
  ((length apps < MAX_APPS)%nat →
   ∀ idx, (idx < i)%nat → ∃ a g, apps !! a = Some g ∧ idx ∈ window_indices g) →
  (length (group_windows_from i rest apps) < MAX_APPS)%nat →
  ∀ idx, (idx < i + length rest)%nat →
    ∃ a g, group_windows_from i rest apps !! a = Some g ∧ idx ∈ window_indices g.
Proof.
  induction rest as [|w rest IH]; intros i apps Hold; cbn [group_windows_from length].
  - intros Hroom idx Hidx. apply Hold; [done|lia].
  - intros Hroom idx Hidx. apply IH; [|done|lia].
    intros Hroom'. by apply group_window_complete.
Qed.

Lemma sequence_of_nonempty a g k :
  group_windows windows !! a = Some g →
  sequence_of (group_windows windows) a g k ≠ [].
Proof.
  intros Hg. pose proof (group_class_nonempty windows windows_wf a g Hg) as Hne.
  destruct (find_prefix_len_spec (group_windows windows) a (class_lower g)) as ([Hl _] & _).
  unfold sequence_of, numbered_prefix, strncpy_str.
  destruct (class_lower g) as [|c cls]; [done|].
  destruct (find_prefix_len _ _ _) as [|L]; [lia|].
  by destruct (decide _).
Qed.

(** X23: while the table of groups is not full (fewer than 128 classes),
    every window of the table is in a group and gets a sequence that is not
    empty, the one of its rank in its group. *)
Theorem every_window_gets_a_sequence windows' idx w' :
  (length (group_windows windows) < MAX_APPS)%nat →
  compute_prefixes windows = Some windows' →
  windows' !! idx = Some w' →
  prefix w' ≠ [] ∧
  ∃ a g k, group_windows windows !! a = Some g ∧ window_indices g !! k = Some idx ∧
           prefix w' = sequence_of (group_windows windows) a g k.
Proof.
  intros Hroom Hc Hw'.
  pose proof (wf_windows_lowered _ windows_wf) as Hlow.
  assert (idx < length windows)%nat as Hidx.
  { rewrite <-(compute_prefixes_length windows windows_wf windows' Hc).
    by eapply lookup_lt_Some. }
  destruct (group_windows_from_complete windows 0 []) with (idx := idx)
    as (a & g & Hg & Hin); [by intros _ ? ?; lia|done|done|].
  apply list_elem_of_lookup_1 in Hin as [k Hk].
  destruct (compute_prefixes_lookup windows Hlow windows' a g k idx Hc Hg Hk)
    as (w & _ & _ & Hw & _).
  rewrite Hw' in Hw. injection Hw as ->. cbn [prefix set_prefix].
  split; [by apply sequence_of_nonempty|]. by exists a, g, k.
Qed.
End reachability.

(** ** atsw_manual.c: the dispatch of a mark *)

Section manual.
Import AtswManual Spec.
Variable windows : list WindowInfo.

Lemma manual_find_sound ws target_class : ∀ i max_indices count idx,
  idx ∈ find_windows_from i ws target_class max_indices count →
  ∃ k w, idx = (i + k)%nat ∧ ws !! k = Some w ∧ strcasecmp (wm_class w) target_class = 0.
Proof.
  induction ws as [|w rest IH]; intros i max_indices count idx;
    cbn [find_windows_from]; [by intros ?%elem_of_nil|].
  destruct (decide (count < max_indices)%nat); [|by intros ?%elem_of_nil].
  destruct (decide (strcasecmp (wm_class w) target_class = 0)) as [Hcls|Hcls].
  - intros [->|(k & w0 & -> & ? & ?)%IH]%elem_of_cons.
    + exists 0%nat, w. split_and!; [lia|done|done].
    + exists (S k), w0. split_and!; [lia|done|done].
  - intros (k & w0 & -> & ? & ?)%IH. exists (S k), w0. split_and!; [lia|done|done].
Qed.

Lemma manual_find_complete ws target_class : ∀ i max_indices count k w,
  (length ws + count ≤ max_indices)%nat →
  ws !! k = Some w → strcasecmp (wm_class w) target_class = 0 →
  (i + k)%nat ∈ find_windows_from i ws target_class max_indices count.
Proof.
  induction ws as [|w0 rest IH]; intros i max_indices count k w Hlen Hk Hcls; [done|].
  cbn [find_windows_from]. cbn [length] in Hlen. rewrite decide_True by lia.
  destruct k as [|k].
  - injection Hk as ->. rewrite decide_True by done. rewrite Nat.add_0_r. left.
  - replace (i + S k)%nat with (S i + k)%nat by lia.
    destruct (decide _); [right|]; apply (IH _ _ _ _ w); done || lia.
Qed.

Lemma find_active_from_range indices : ∀ s active,
  find_active_from s windows indices active = -1 ∨
  Z.of_nat s ≤ find_active_from s windows indices active < Z.of_nat (s + length indices).
Proof.
  induction indices as [|k rest IH]; intros s active; [by left|].
  cbn [find_active_from length]. destruct (decide _); [right; lia|].
  destruct (IH (S s) active) as [->|?]; [by left|right; lia].
Qed.

Lemma choose_target_member matching_indices active :
  matching_indices ≠ [] →
  ∃ i k, matching_indices !! i = Some k ∧
         choose_target windows matching_indices active = Z.of_nat k.
Proof.
  intros Hne. unfold choose_target.
  destruct matching_indices as [|k0 rest] eqn:Hm; [done|]. rewrite <-Hm.
  assert (matching_indices !! 0%nat = Some k0) as H0 by (by rewrite Hm).
  assert (0 < length matching_indices)%nat as Hlen by (rewrite Hm; simpl; lia).
  destruct (decide _); [exists 0%nat, k0; by rewrite H0|].
  destruct (decide _) as [Hfound|]; [|exists 0%nat, k0; by rewrite H0].
  destruct (find_active_from_range matching_indices 0 active) as [Hn|Hr]; [lia|].
  set (next := Z.to_nat (Z.rem _ _)).
  destruct (lookup_lt_is_Some_2 matching_indices next) as [k Hk].
  { subst next. rewrite Z.rem_mod_nonneg by lia.
    pose proof (Z.mod_pos_bound
                  (find_active_from 0 windows matching_indices active + 1)
                  (Z.of_nat (length matching_indices))). lia. }
  exists next, k. by rewrite Hk.
Qed.

Lemma manual_activate_window desktop_of idx w :
  windows !! idx = Some w →
  activate_window windows desktop_of (Z.of_nat idx) =
  activation (id w) (desktop_of (id w)).
Proof.
  intros Hw. unfold activate_window, activation.
  rewrite decide_False by (apply lookup_lt_Some in Hw; lia).
  by rewrite Nat2Z.id, Hw.
Qed.

(** X24: for a table of at most 256 windows, the dispatch of atsw_manual.c
    exits with code 1, reports the class and activates nothing when no window
    has the class of the mark up to case, and otherwise exits with code 0
    after activating one window of that class. *)
Theorem manual_dispatch_outcome target_class active desktop_of :
  (length windows ≤ MAX_WINDOWS)%nat →
  ((∀ w, w ∈ windows → strcasecmp (wm_class w) target_class ≠ 0) →
   dispatch windows target_class active desktop_of =
     (Exited 1, [Stderr (NoWindowsFound target_class false); XCloseDisplay])) ∧
  ((∃ w, w ∈ windows ∧ strcasecmp (wm_class w) target_class = 0) →
   ∃ idx w, windows !! idx = Some w ∧ strcasecmp (wm_class w) target_class = 0 ∧
     dispatch windows target_class active desktop_of =
       (Exited 0, activation (id w) (desktop_of (id w)) ++ [XCloseDisplay])).
Proof.
  intros Hlen. unfold dispatch. split.
  - intros Hnone.
    destruct (find_windows_by_class windows target_class MAX_WINDOWS) as [|idx l] eqn:Hf;
      [done|].
    assert (idx ∈ find_windows_by_class windows target_class MAX_WINDOWS) as Hin
      by (rewrite Hf; left).
    apply manual_find_sound in Hin as (k & w & _ & Hk & Hcls).
    exfalso. eapply Hnone; [|done]. by eapply list_elem_of_lookup_2.
  - intros (w0 & [k0 Hk0]%list_elem_of_lookup_1 & Hcls0).
    assert (k0 ∈ find_windows_by_class windows target_class MAX_WINDOWS) as Hin.
    { apply (manual_find_complete windows target_class 0 MAX_WINDOWS 0 k0 w0);
        [lia|done|done]. }
    assert (find_windows_by_class windows target_class MAX_WINDOWS ≠ []) as Hne.
    { intros Hnil. rewrite Hnil in Hin. by apply elem_of_nil in Hin. }
    rewrite decide_False by (by intros ?%length_zero_iff_nil).
    destruct (choose_target_member _ active Hne) as (i & k & Hi & ->).
    apply list_elem_of_lookup_2 in Hi.
    apply manual_find_sound in Hi as (k' & w & -> & Hw & Hcls).
    exists (0 + k')%nat, w. split_and!; [done|done|].
    rewrite decide_True by lia. by rewrite (manual_activate_window _ _ w).
Qed.

Lemma choose_target_next matching_indices i k :
  NoDup (id_at windows <$> matching_indices) →
  matching_indices !! i = Some k →
  ∃ next, matching_indices !! ((i + 1) mod length matching_indices)%nat = Some next ∧
          choose_target windows matching_indices (id_at windows k) = Z.of_nat next.
Proof.
  intros Hnd Hi.
  assert (i < length matching_indices)%nat as Hilt by (by eapply lookup_lt_Some).
  destruct (lookup_lt_is_Some_2 matching_indices
              ((i + 1) mod length matching_indices)%nat) as [next Hnext].
  { apply Nat.mod_upper_bound. lia. }
  exists next. split; [done|]. unfold choose_target.
  destruct (decide (length matching_indices = 1%nat)) as [H1|H1].
  - assert (i = 0%nat) as -> by lia. rewrite H1 in Hnext. simpl in Hnext.
    by rewrite Hnext.
  - rewrite (find_active_from_first windows (id_at windows k) _ 0%nat i k); [|done|done|].
    + rewrite decide_True by lia. rewrite Z.rem_mod_nonneg by lia.
      replace (Z.of_nat (0 + i) + 1) with (Z.of_nat (i + 1)) by lia.
      rewrite <-Nat2Z.inj_mod, Nat2Z.id. by rewrite Hnext.
    + intros j k' Hj Hk' Hid. assert (j = i); [|lia].
      eapply (NoDup_lookup _ _ _ _ Hnd); rewrite list_lookup_fmap.
      * by rewrite Hk'.
      * rewrite Hi. simpl. congruence.
Qed.

(** X25: when the windows of the class have distinct identifiers and each
    run makes its target the active window, [j] runs of atsw_manual.c from
    the [i]-th window of the class end on the window [j] places further,
    counting round: every window of the class is visited, and as many runs as
    there are windows lead back to the start. *)
Theorem cycling_visits_every_instance matching_indices i k j :
  NoDup (id_at windows <$> matching_indices) →
  matching_indices !! i = Some k →
  ∃ k', matching_indices !! ((i + j) mod length matching_indices)%nat = Some k' ∧
        Nat.iter j (next_active windows matching_indices) (id_at windows k) =
        id_at windows k'.
Proof.
  intros Hnd Hi.
  assert (i < length matching_indices)%nat as Hilt by (by eapply lookup_lt_Some).
  induction j as [|j (k1 & Hk1 & IH)].
  - exists k. rewrite Nat.add_0_r, Nat.mod_small by done. done.
  - rewrite Nat.iter_succ, IH.
    destruct (choose_target_next matching_indices _ k1 Hnd Hk1) as (next & Hnext & Hc).
    exists next. split.
    + rewrite <-Hnext. f_equal.
      rewrite Nat.Div0.add_mod_idemp_l. f_equal. lia.
    + unfold next_active. by rewrite Hc, Nat2Z.id.
Qed.
End manual.

(** ** atsw_mode.sh: [check_prefix_match] *)

Section shell_matcher.
Import AtswMode.

Lemma matching_lookup table buffer pfx wid :
  matching table buffer !! pfx = Some wid ↔
  table !! pfx = Some wid ∧ starts_with buffer pfx = true.
Proof.
  unfold matching.
  apply (map_lookup_filter_Some (λ kv : string * string, starts_with buffer kv.1 = true)
           table pfx wid).
Qed.

(** X26: [check_prefix_match] of atsw_mode.sh returns 0 with a window
    exactly when the buffer is not empty and one prefix of the table, and no
    other, begins with it; the window is the one recorded for that
    prefix. *)
Theorem check_prefix_match_resolves table buffer wid :
  check_prefix_match table buffer = (0%nat, Some wid, 1%nat) ↔
  buffer ≠ EmptyString ∧
  ∃ pfx, table !! pfx = Some wid ∧ starts_with buffer pfx = true ∧
    ∀ pfx', is_Some (table !! pfx') → starts_with buffer pfx' = true → pfx' = pfx.
Proof.
  unfold check_prefix_match.
  destruct (decide (buffer = EmptyString)) as [->|Hne].
  { split; [done|]. by intros [? _]. }
  split.
  - destruct (decide _); [done|]. destruct (decide _) as [Hone|]; [|done].
    match goal with |- context [head ?l] =>
      assert (length l = 1%nat) as Hlen
        by exact (eq_trans (length_map_to_list (matching table buffer)) Hone);
      assert (∀ k v, matching table buffer !! k = Some v ↔ (k, v) ∈ l) as Hm
        by (intros k v; symmetry; apply elem_of_map_to_list);
      destruct l as [|[pfx w] [|]]; simpl in Hlen; [lia| |lia]
    end.
    clear Hlen. intros [= ->]. split; [done|].
    exists pfx. destruct (proj1 (matching_lookup table buffer pfx wid)) as [? ?];
      [apply Hm; left|].
    split_and!; [done..|]. intros pfx' [w' Hw'] Hs.
    assert (matching table buffer !! pfx' = Some w') as Hin by by apply matching_lookup.
    apply Hm, list_elem_of_singleton in Hin. congruence.
  - intros (_ & pfx & Hw & Hs & Honly).
    assert (matching table buffer = ({[pfx := wid]} : gmap string string)) as ->.
    { apply map_eq. intros k. destruct (decide (k = pfx)) as [->|Hk].
      - rewrite lookup_singleton_eq. by apply matching_lookup.
      - rewrite lookup_singleton_ne by done.
        destruct (matching table buffer !! k) as [v|] eqn:Hv; [|done].
        apply matching_lookup in Hv as [Hv ?]. exfalso. apply Hk. by apply Honly. }
    pose proof (map_size_singleton (M := gmap string) pfx wid) as Hsize.
    destruct (decide _) as [Hz|_].
    { exfalso. assert (1 = 0)%nat by exact (eq_trans (eq_sym Hsize) Hz). lia. }
    destruct (decide _) as [_|Hn]; [|exfalso; apply Hn; exact Hsize].
    do 2 f_equal.
    change (snd <$> head (map_to_list ({[pfx := wid]} : gmap string string)) = Some wid).
    by rewrite map_to_list_singleton.
Qed.
End shell_matcher.

(** ** winleap.c: paths and the command line *)

Section paths.
Import Cli Spec.

Lemma path_join_nonempty out out_size a b :
  out_size ≠ 0%nat → a ≠ [] → b ≠ [] →
  path_join out out_size (Some a) (Some b) =
  take (out_size - 1)
    (if decide (last a = Some slash) then a ++ b else a ++ slash :: b).
Proof.
  intros Hsize Ha Hb. unfold path_join, snprintf. rewrite !decide_False by done.
  destruct a as [|x a]; [done|]. destruct b as [|y b]; [done|].
  repeat destruct (decide _); done.
Qed.

(** X27: [path_join] of two strings that are not empty puts one slash
    between them, whether or not the first ends in a slash already, and
    leaves in [out] a string shorter than [out_size]. *)
Theorem path_join_separator out out_size a b :
  out_size ≠ 0%nat → a ≠ [] → b ≠ [] → last a ≠ Some slash →
  path_join out out_size (Some a) (Some b) = take (out_size - 1) (a ++ slash :: b) ∧
  path_join out out_size (Some (a ++ [slash])) (Some b) =
    path_join out out_size (Some a) (Some b) ∧
  (length (path_join out out_size (Some a) (Some b)) < out_size)%nat.
Proof.
  intros Hsize Ha Hb Hlast.
  rewrite !path_join_nonempty by (done || by destruct a).
  rewrite decide_False by done. rewrite decide_True by apply last_snoc.
  split_and!; [done|by rewrite <-app_assoc|].
  rewrite length_take. lia.
Qed.

Lemma strrchr_last dir base c :
  c ∉ base → strrchr (dir ++ c :: base) c = Some (length dir).
Proof.
  intros Hbase.
  assert (strrchr base c = None) as Hnone.
  { induction base as [|x base IH]; [done|].
    apply not_elem_of_cons in Hbase as [Hx Hb]. simpl. rewrite IH by done.
    by rewrite decide_False by done. }
  induction dir as [|x dir IH]; simpl.
  - rewrite Hnone. by rewrite decide_True.
  - by rewrite IH.
Qed.

(** X28: [build_path_near_executable] puts the file name in the directory
    of [argv0], the part before its last slash, and gives the bare file name
    when [argv0] has no slash. *)
Theorem build_path_near_executable_dirname out out_size dir base filename :
  out_size ≠ 0%nat → slash ∉ base →
  build_path_near_executable out out_size (dir ++ slash :: base) filename =
    take (out_size - 1) (dir ++ slash :: filename) ∧
  build_path_near_executable out out_size base filename = take (out_size - 1) filename.
Proof.
  intros Hsize Hbase. unfold build_path_near_executable, snprintf.
  rewrite !decide_False by done. split.
  - rewrite strrchr_last by done. rewrite decide_False by done.
    by rewrite take_app_length.
  - assert (strrchr base slash = None) as ->; [|by rewrite ?decide_False by done].
    clear -Hbase. induction base as [|x base IH]; [done|].
    apply not_elem_of_cons in Hbase as [Hx Hb]. simpl. rewrite IH by done.
    by rewrite decide_False by done.
Qed.

Lemma snprintf_fits (out : cstring) out_size s :
  out_size ≠ 0%nat →
  snprintf out out_size (take (out_size - 1) s) = take (out_size - 1) s.
Proof.
  intros Hsize. unfold snprintf. rewrite decide_False by done.
  by rewrite take_take, Nat.min_id.
Qed.

(** With room for at least the terminator, what [path_join] and
    [build_path_near_executable] leave in [out] does not depend on what was
    there, and fits. *)
Lemma path_join_written out out_size a b :
  out_size ≠ 0%nat →
  ∃ s, path_join out out_size a b = take (out_size - 1) s ∧
       path_join [] out_size a b = take (out_size - 1) s.
Proof.
  intros Hsize. unfold path_join, snprintf.
  destruct a as [[|x a]|], b as [[|y b]|];
    try destruct (decide (last (x :: a) = Some slash));
    rewrite !decide_False by done; eexists; split; reflexivity.
Qed.

Lemma build_path_written out out_size argv0 filename :
  out_size ≠ 0%nat →
  ∃ s, build_path_near_executable out out_size argv0 filename = take (out_size - 1) s ∧
       build_path_near_executable [] out_size argv0 filename = take (out_size - 1) s.
Proof.
  intros Hsize. unfold build_path_near_executable, snprintf.
  destruct (strrchr _ _); rewrite !decide_False by done; eexists; split; reflexivity.
Qed.

(** X29: [resolve_config_path] with the buffer of [main] gives the path of
    [--config] when there is one; else the first readable file among
    [$XDG_CONFIG_HOME/winleap/winleap.conf], [$HOME/.config/winleap/winleap.conf]
    and [winleap.conf] next to the executable (the first two only for a
    variable that is set and not empty); and when none is readable, the first
    of these paths. *)
Theorem resolve_config_path_order sur out argv0 override_path :
  resolve_config_path sur out MAX_PATH_LEN argv0 override_path =
  if set_and_not_empty override_path
  then take (MAX_PATH_LEN - 1) (default [] override_path)
  else first_or_head (file_exists_readable sur) (config_candidates sur argv0).
Proof.
  assert (MAX_PATH_LEN ≠ 0%nat) as Hsize by done.
  unfold resolve_config_path, config_candidates, first_or_head.
  destruct (set_and_not_empty override_path); [done|].
  destruct (path_join_written out MAX_PATH_LEN (XDG_CONFIG_HOME sur)
              (Some (lit "winleap/winleap.conf")) Hsize) as (sx & -> & ->).
  destruct (path_join_written out MAX_PATH_LEN (HOME sur)
              (Some (lit ".config/winleap/winleap.conf")) Hsize) as (sh & -> & ->).
  destruct (build_path_written out MAX_PATH_LEN argv0 (lit "winleap.conf") Hsize)
    as (sn & -> & ->).
  rewrite !snprintf_fits by done.
  rewrite decide_True by (unfold MAX_PATH_LEN; lia).
  destruct (set_and_not_empty (XDG_CONFIG_HOME sur)),
    (set_and_not_empty (HOME sur)); cbn [app filter list_filter andb];
    destruct (file_exists_readable sur (take (MAX_PATH_LEN - 1) sx)),
      (file_exists_readable sur (take (MAX_PATH_LEN - 1) sh)),
      (file_exists_readable sur (take (MAX_PATH_LEN - 1) sn)); reflexivity.
Qed.
End paths.

Section command_line.
Import Cli Spec.

Lemma parse_arguments_app_bounded n : ∀ pre rest o o',
  (length pre ≤ n)%nat →
  parse_arguments pre o = inr o' →
  parse_arguments (pre ++ rest) o = parse_arguments rest o'.
Proof.
  induction n as [|n IH]; intros pre rest o o' Hlen.
  - destruct pre; [|simpl in Hlen; lia]. by intros [= <-].
  - destruct pre as [|arg pre]; [by intros [= <-]|].
    cbn [parse_arguments app]. simpl in Hlen.
    repeat (destruct (decide _); [apply IH; lia|]).
    destruct (decide _).
    { destruct pre as [|value pre]; [done|]. cbn [app]. apply IH. simpl in Hlen. lia. }
    destruct (decide _); [done|].
    destruct (mark_arg o); [done|]. apply IH. lia.
Qed.

Lemma parse_arguments_app pre rest o o' :
  parse_arguments pre o = inr o' →
  parse_arguments (pre ++ rest) o = parse_arguments rest o'.
Proof. by apply (parse_arguments_app_bounded (length pre)). Qed.

(** X30: after arguments that were read without error, an argument that is
    none of the options is refused: as an unknown option when it begins with a
    dash (a negative mark number, say), as an unexpected argument when a mark
    number was given already. *)
Theorem stray_argument_rejected pre arg post o0 o :
  parse_arguments pre o0 = inr o →
  ¬ known_option arg →
  (head arg = Some dash →
   parse_arguments (pre ++ arg :: post) o0 = inl (UnknownOption arg)) ∧
  (head arg ≠ Some dash → is_Some (mark_arg o) →
   parse_arguments (pre ++ arg :: post) o0 = inl (UnexpectedArgument arg)).
Proof.
  intros Hpre Hunknown. rewrite (parse_arguments_app _ _ _ _ Hpre).
  cbn [parse_arguments]. unfold known_option in Hunknown.
  rewrite (decide_False (P := strcmp arg (lit "--current-workspace") = 0)) by tauto.
  rewrite (decide_False (P := strcmp arg (lit "--debug") = 0)) by tauto.
  rewrite (decide_False (P := strcmp arg (lit "--open-debug") = 0)) by tauto.
  rewrite (decide_False (P := strcmp arg (lit "--help") = 0 ∨ strcmp arg (lit "-h") = 0))
    by tauto.
  rewrite (decide_False (P := strcmp arg (lit "--config") = 0)) by tauto.
  split.
  - intros Hdash. by rewrite decide_True.
  - intros Hdash [m Hm]. rewrite decide_False by done. by rewrite Hm.
Qed.

End command_line.

(** ** The further theorems at concrete inputs *)

Lemma read_config_file_invariants_witness :
  (0 < Winleap.num_marks Examples.zen_config ≤ Winleap.MAX_MARKS)%nat ∧
  Forall Spec.mark_ok (Winleap.marks Examples.zen_config) ∧
  Spec.keys_ok (Winleap.instance_keys Examples.zen_config) ∧
  @nil Action = [].
Proof.
  apply (read_config_file_invariants (Some Examples.zen_file)).
  by vm_compute.
Defined.

Lemma first_mark_line_wins_witness :
  Winleap.find_wmclass_for_mark
    [ {| Winleap.number := 1; Winleap.mark_class := Examples.lit "zen" |};
      {| Winleap.number := 1; Winleap.mark_class := Examples.lit "discord" |} ] 1 =
  Some (Examples.lit "zen").
Proof.
  apply (first_mark_line_wins [Examples.lit "1=discord" ++ [Examples.nl]]
           Examples.zen_config
           {| Winleap.marks :=
                [ {| Winleap.number := 1; Winleap.mark_class := Examples.lit "zen" |};
                  {| Winleap.number := 1; Winleap.mark_class := Examples.lit "discord" |} ];
              Winleap.instance_keys := Winleap.DEFAULT_INSTANCE_KEYS;
              Winleap.debug := false |}).
  - by vm_compute.
  - by vm_compute.
Defined.

Lemma lines_after_last_mark_ignored_witness :
  Winleap.read_lines
    ([Examples.lit "7=discord" ++ [Examples.nl]] ++
     [Examples.lit "instance_keys=aa" ++ [Examples.nl]])
    Examples.almost_full_config = Winleap.Next Examples.full_config.
Proof.
  apply lines_after_last_mark_ignored.
  - by vm_compute.
  - by vm_compute.
Defined.

Lemma get_wm_class_parts_witness :
  get_wm_class (Examples.client 101 "Navigator" "zen") 256 = Some (Examples.lit "zen") ∧
  get_wm_class (Examples.client 102 "Navigator" "") 256 = None ∧
  get_wm_class (Examples.instance_only 103 "xterm") 256 = Some (Examples.lit "xterm").
Proof.
  split_and!.
  - apply (proj1 (get_wm_class_parts (Examples.client 101 "Navigator" "zen")
                    (Examples.lit "Navigator") (Examples.lit "zen") [] 256
                    ltac:(apply (bool_decide_unpack _); vm_compute; exact I)
                    ltac:(apply (bool_decide_unpack _); vm_compute; exact I))).
    reflexivity.
  - apply (proj1 (get_wm_class_parts (Examples.client 102 "Navigator" "")
                    (Examples.lit "Navigator") [] [] 256
                    ltac:(apply (bool_decide_unpack _); vm_compute; exact I)
                    ltac:(apply (bool_decide_unpack _); vm_compute; exact I))).
    reflexivity.
  - apply (proj2 (get_wm_class_parts (Examples.instance_only 103 "xterm")
                    (Examples.lit "xterm") [] [] 256
                    ltac:(apply (bool_decide_unpack _); vm_compute; exact I)
                    ltac:(apply (bool_decide_unpack _); vm_compute; exact I))).
    reflexivity.
Defined.

Lemma find_windows_by_class_and_scope_spec_witness :
  (∀ p q x y,
     (p < q)%nat →
     Winleap.find_windows_by_class_and_scope Examples.leap_windows (Examples.lit "zen")
       true 1 Winleap.MAX_WINDOWS !! p = Some x →
     Winleap.find_windows_by_class_and_scope Examples.leap_windows (Examples.lit "zen")
       true 1 Winleap.MAX_WINDOWS !! q = Some y →
     (x < y)%nat) ∧
  ∀ idx,
    idx ∈ Winleap.find_windows_by_class_and_scope Examples.leap_windows
            (Examples.lit "zen") true 1 Winleap.MAX_WINDOWS ↔
    ∃ w, Examples.leap_windows !! idx = Some w ∧
         Spec.in_scope (Examples.lit "zen") true 1 w.
Proof.
  apply find_windows_by_class_and_scope_spec.
  simpl. unfold Winleap.MAX_WINDOWS. lia.
Defined.

Lemma selector_key_selects_witness :
  Winleap.select_loop Examples.zen_config [0; 2]%nat
    (KeyPress Examples.XK_x (Examples.lit "W") :: []) =
  (Some (Z.of_nat 2), [XUngrabKeyboard]).
Proof.
  apply (selector_key_selects Examples.zen_config [0; 2]%nat Examples.XK_x _ [] [] 1 2).
  - apply (bool_decide_unpack _). by vm_compute.
  - by vm_compute.
  - reflexivity.
  - reflexivity.
Defined.

Lemma passed_over_events_ignored_witness :
  Winleap.select_loop Examples.zen_config [0; 2]%nat
    ([OtherEvent; KeyPress Examples.XK_x (Examples.lit "x"); KeyPress XK_Return []]
     ++ [KeyPress Examples.XK_x (Examples.lit "q")]) =
  Winleap.select_loop Examples.zen_config [0; 2]%nat
    [KeyPress Examples.XK_x (Examples.lit "q")].
Proof.
  apply passed_over_events_ignored.
  apply (bool_decide_unpack _). by vm_compute.
Defined.

Lemma select_instance_result_witness :
  (-1 = -2 ∧ (XUngrabKeyboard ∉ [XGrabKeyboard; XUngrabKeyboard]) ∧
   ([0; 2]%nat = [] ∨
    (strlen (Winleap.instance_keys Examples.zen_config) < length [0; 2]%nat)%nat ∨
    (Grab.grab_keyboard (λ _, GrabSuccess)).1 = false)) ∨
  ((Grab.grab_keyboard (λ _, GrabSuccess)).1 = true ∧
   [XGrabKeyboard; XUngrabKeyboard] =
     (Grab.grab_keyboard (λ _, GrabSuccess)).2 ++ [XUngrabKeyboard] ∧
   (-1 = -1 ∨
    ∃ i idx, [0; 2]%nat !! i = Some idx ∧
             is_Some (Winleap.instance_keys Examples.zen_config !! i) ∧
             -1 = Z.of_nat idx)).
Proof.
  apply (select_instance_result Examples.zen_config [0; 2]%nat (λ _, GrabSuccess)
           [KeyPress XK_Escape []]).
  reflexivity.
Defined.

Lemma exit_0_activates_window_in_scope_witness :
  ∃ arg config target_class idx w pre,
    Some (Examples.lit "1") = Some arg ∧
    Winleap.read_config_file
      (Winleap.config_file
         (Examples.winleap_env Examples.zen_file [Examples.client 101 "Navigator" "zen"]))
      = (Some config, []) ∧
    Winleap.find_wmclass_for_mark (Winleap.marks config) (atoi arg) = Some target_class ∧
    Winleap.discover_windows
      (Winleap.client_list
         (Examples.winleap_env Examples.zen_file [Examples.client 101 "Navigator" "zen"]))
      !! idx = Some w ∧
    Spec.in_scope target_class false
      (Winleap.get_current_desktop
         (Examples.winleap_env Examples.zen_file [Examples.client 101 "Navigator" "zen"]))
      w ∧
    Forall (λ a, Spec.window_request a = false) pre ∧
    [SendActiveWindow 101; XMapRaised 101; XRaiseWindow 101; XSetInputFocus 101;
     XCloseDisplay] =
    pre ++ Spec.activation (Winleap.id w) (Spec.known_desktop w) ++ [XCloseDisplay].
Proof.
  apply (exit_0_activates_window_in_scope
           [Examples.lit "--debug"; Examples.lit "1"]
           {| Cli.current_workspace_only := false; Cli.cli_debug := true;
              Cli.open_debug := false; Cli.show_help := false;
              Cli.config_override := None; Cli.mark_arg := Some (Examples.lit "1") |}).
  - by vm_compute.
  - reflexivity.
  - reflexivity.
  - by vm_compute.
Defined.

Lemma no_request_unless_exit_0_witness :
  Forall (λ a, Spec.window_request a = false)
    [Stderr (TooManyWindows 2 1); XCloseDisplay].
Proof.
  apply (no_request_unless_exit_0 Examples.winleap_args
           (Examples.winleap_env Examples.one_key_file Examples.two_zen) (Exited 2)).
  - by vm_compute.
  - by vm_compute.
Defined.

Lemma current_workspace_unknown_desktop_witness :
  ∃ code,
    (Winleap.main Examples.current_workspace_args
       (Examples.winleap_env Examples.zen_file Examples.two_zen)).1 = Exited code ∧
    (code = 1 ∨ code = 2) ∧
    (XGrabKeyboard ∉
       (Winleap.main Examples.current_workspace_args
          (Examples.winleap_env Examples.zen_file Examples.two_zen)).2).
Proof.
  apply (current_workspace_unknown_desktop
           [Examples.lit "--current-workspace"; Examples.lit "1"]
           {| Cli.current_workspace_only := true; Cli.cli_debug := false;
              Cli.open_debug := false; Cli.show_help := false;
              Cli.config_override := None; Cli.mark_arg := Some (Examples.lit "1") |}).
  - by vm_compute.
  - reflexivity.
  - reflexivity.
  - reflexivity.
  - by vm_compute.
Defined.

Lemma path_join_separator_witness :
  Cli.path_join [] 1024 (Some (Examples.lit "/home/u")) (Some (Examples.lit "winleap")) =
    take (1024 - 1) (Examples.lit "/home/u" ++ Cli.slash :: Examples.lit "winleap") ∧
  Cli.path_join [] 1024 (Some (Examples.lit "/home/u" ++ [Cli.slash]))
    (Some (Examples.lit "winleap")) =
    Cli.path_join [] 1024 (Some (Examples.lit "/home/u")) (Some (Examples.lit "winleap")) ∧
  (length (Cli.path_join [] 1024 (Some (Examples.lit "/home/u"))
             (Some (Examples.lit "winleap"))) < 1024)%nat.
Proof.
  apply path_join_separator; by vm_compute.
Defined.

Lemma build_path_near_executable_dirname_witness :
  Cli.build_path_near_executable [] 1024
    (Examples.lit "/opt/bin" ++ Cli.slash :: Examples.lit "winleap")
    (Examples.lit "winleap.conf") =
    take (1024 - 1) (Examples.lit "/opt/bin" ++ Cli.slash :: Examples.lit "winleap.conf") ∧
  Cli.build_path_near_executable [] 1024 (Examples.lit "winleap")
    (Examples.lit "winleap.conf") = take (1024 - 1) (Examples.lit "winleap.conf").
Proof.
  apply build_path_near_executable_dirname.
  - by vm_compute.
  - apply (bool_decide_unpack _). by vm_compute.
Defined.

Lemma stray_argument_rejected_witness :
  Cli.parse_arguments
    ([Examples.lit "--config"; Examples.lit "-x"] ++ Examples.lit "-1" :: [])
    Cli.no_options = inl (Cli.UnknownOption (Examples.lit "-1")) ∧
  Cli.parse_arguments
    ([Examples.lit "--debug"; Examples.lit "3"] ++ Examples.lit "4" :: [])
    Cli.no_options = inl (Cli.UnexpectedArgument (Examples.lit "4")).
Proof.
  split.
  - apply (proj1 (stray_argument_rejected
                    [Examples.lit "--config"; Examples.lit "-x"] (Examples.lit "-1") []
                    Cli.no_options _ eq_refl
                    ltac:(apply (bool_decide_unpack _); vm_compute; exact I))).
    reflexivity.
  - apply (proj2 (stray_argument_rejected
                    [Examples.lit "--debug"; Examples.lit "3"] (Examples.lit "4") []
                    Cli.no_options _ eq_refl
                    ltac:(apply (bool_decide_unpack _); vm_compute; exact I))).
    + by vm_compute.
    + by eexists.
Defined.

Lemma typed_buffer_invariant_witness :
  (length (Examples.lit "do") ≤ Atsw.MAX_BUFFER_LEN - 1)%nat ∧
  Forall (λ c, tolower c = c) (Examples.lit "do").
Proof.
  apply (typed_buffer_invariant Examples.with_dolphins_index (λ _, None)
           [KeyPress Examples.XK_z (Examples.lit "d");
            KeyPress Examples.XK_z (Examples.lit "O")] []).
  - simpl. lia.
  - constructor.
  - reflexivity.
Defined.

Lemma backspace_undoes_key_witness :
  Examples.lit "do" = Examples.lit "d" ++ [tolower (ascii_of_nat 111)] ∧
  Atsw.step Examples.with_dolphins_index (λ _, None) (Examples.lit "do")
    (KeyPress XK_BackSpace []) = Atsw.Continue (Examples.lit "d").
Proof.
  apply (backspace_undoes_key Examples.with_dolphins_index (λ _, None) (Examples.lit "d")
           Examples.XK_z).
  - by vm_compute.
  - simpl. unfold Atsw.MAX_BUFFER_LEN. lia.
  - reflexivity.
Defined.

(** The keys d, O and 2: the first two leave do in the buffer, and do2
    resolves to the second dolphin window. *)
Lemma event_loop_exits_witness :
  ∃ before keysym text after typed,
    Examples.keys_d_O_2 = before ++ KeyPress keysym text :: after ∧
    Spec.buffer_after Examples.with_dolphins_index (λ _, None) [] before = Some typed ∧
    typed = foldl Spec.type_key [] before ∧
    ((keysym = XK_Escape ∧ 0 = 1 ∧
      [SendActiveWindow 104; XMapRaised 104; XRaiseWindow 104; XSetInputFocus 104;
       XUngrabKeyboard; XCloseDisplay] = [XUngrabKeyboard; XCloseDisplay]) ∨
     (keysym ≠ XK_Escape ∧ keysym ≠ XK_BackSpace ∧ 0 = 0 ∧
      ∃ idx w,
        Spec.resolves_to Examples.with_dolphins_index
          (Spec.looked_up typed keysym text) idx ∧
        Examples.with_dolphins_index !! idx = Some w ∧
        [SendActiveWindow 104; XMapRaised 104; XRaiseWindow 104; XSetInputFocus 104;
         XUngrabKeyboard; XCloseDisplay] =
        Spec.activation (Atsw.id w) ((λ _, None) (Atsw.id w)) ++
        [XUngrabKeyboard; XCloseDisplay])).
Proof.
  apply (event_loop_exits Examples.with_dolphins_index (λ _, None) Examples.keys_d_O_2 []).
  reflexivity.
Defined.

Lemma atsw_releases_keyboard_witness :
  (Atsw.display (Examples.atsw_env Examples.with_dolphins Examples.keys_d_O_2) = false ∧
   0 = 2 ∧
   [XGrabKeyboard; SendActiveWindow 104; XMapRaised 104; XRaiseWindow 104;
    XSetInputFocus 104; XUngrabKeyboard; XCloseDisplay] = []) ∨
  (Atsw.display (Examples.atsw_env Examples.with_dolphins Examples.keys_d_O_2) = true ∧
   (Grab.grab_keyboard
      (Atsw.grab_answers (Examples.atsw_env Examples.with_dolphins Examples.keys_d_O_2))).1
     = false ∧
   0 = 2 ∧
   [XGrabKeyboard; SendActiveWindow 104; XMapRaised 104; XRaiseWindow 104;
    XSetInputFocus 104; XUngrabKeyboard; XCloseDisplay] =
   (Grab.grab_keyboard
      (Atsw.grab_answers (Examples.atsw_env Examples.with_dolphins Examples.keys_d_O_2))).2
   ++ [XCloseDisplay] ∧
   (XUngrabKeyboard ∉
    [XGrabKeyboard; SendActiveWindow 104; XMapRaised 104; XRaiseWindow 104;
     XSetInputFocus 104; XUngrabKeyboard; XCloseDisplay])) ∨
  (Atsw.display (Examples.atsw_env Examples.with_dolphins Examples.keys_d_O_2) = true ∧
   (Grab.grab_keyboard
      (Atsw.grab_answers (Examples.atsw_env Examples.with_dolphins Examples.keys_d_O_2))).1
     = true ∧
   (0 = 0 ∨ 0 = 1 ∨ 0 = 2) ∧
   ∃ requests,
     [XGrabKeyboard; SendActiveWindow 104; XMapRaised 104; XRaiseWindow 104;
      XSetInputFocus 104; XUngrabKeyboard; XCloseDisplay] =
     (Grab.grab_keyboard
        (Atsw.grab_answers (Examples.atsw_env Examples.with_dolphins Examples.keys_d_O_2))).2
     ++ requests ++ [XUngrabKeyboard; XCloseDisplay] ∧
     (0 ≠ 0 → requests = [])).
Proof.
  apply atsw_releases_keyboard.
  reflexivity.
Defined.

Lemma compute_prefixes_frame_witness :
  Atsw.set_prefix [] <$> Examples.three_apps_index =
  Atsw.set_prefix [] <$> Examples.table_of Examples.three_apps.
Proof.
  apply compute_prefixes_frame.
  reflexivity.
Defined.


Lemma every_window_gets_a_sequence_witness :
  Atsw.prefix Examples.dolphin_2 ≠ [] ∧
  ∃ a g k,
    Atsw.group_windows (Examples.table_of Examples.with_dolphins) !! a = Some g ∧
    Atsw.window_indices g !! k = Some 4%nat ∧
    Atsw.prefix Examples.dolphin_2 =
    Spec.sequence_of (Atsw.group_windows (Examples.table_of Examples.with_dolphins)) a g k.
Proof.
  assert (Spec.wf_windows (Examples.table_of Examples.with_dolphins)) as Hwf
    by (apply (bool_decide_unpack _); vm_compute; exact I).
  apply (every_window_gets_a_sequence (Examples.table_of Examples.with_dolphins) Hwf
           Examples.with_dolphins_index 4).
  - vm_compute. lia.
  - reflexivity.
  - reflexivity.
Defined.

Lemma manual_dispatch_outcome_witness :
  AtswManual.dispatch Examples.manual_windows (Examples.lit "firefox") 10 (λ _, None) =
    (Exited 1, [Stderr (NoWindowsFound (Examples.lit "firefox") false); XCloseDisplay]) ∧
  ∃ idx w, Examples.manual_windows !! idx = Some w ∧
    strcasecmp (AtswManual.wm_class w) (Examples.lit "discord") = 0 ∧
    AtswManual.dispatch Examples.manual_windows (Examples.lit "discord") 10 (λ _, None) =
      (Exited 0,
       Spec.activation (AtswManual.id w) ((λ _, None) (AtswManual.id w)) ++
       [XCloseDisplay]).
Proof.
  assert (length Examples.manual_windows ≤ AtswManual.MAX_WINDOWS)%nat as Hlen
    by (simpl; unfold AtswManual.MAX_WINDOWS; lia).
  split.
  - apply (proj1 (manual_dispatch_outcome Examples.manual_windows (Examples.lit "firefox")
                    10 (λ _, None) Hlen)).
    apply Forall_forall. apply (bool_decide_unpack _). by vm_compute.
  - apply (proj2 (manual_dispatch_outcome Examples.manual_windows (Examples.lit "discord")
                    10 (λ _, None) Hlen)).
    exists (Examples.manual_window 10 "discord"). split; [left|reflexivity].
Defined.

Lemma cycling_visits_every_instance_witness :
  ∃ k', [0; 2]%nat !! ((0 + 2) mod length [0; 2]%nat)%nat = Some k' ∧
        Nat.iter 2 (Spec.next_active Examples.manual_windows [0; 2]%nat)
          (AtswManual.id_at Examples.manual_windows 0) =
        AtswManual.id_at Examples.manual_windows k'.
Proof.
  apply cycling_visits_every_instance.
  - apply (bool_decide_unpack _). by vm_compute.
  - reflexivity.
Defined.
